(** * Escrowzy: fee validation, amount conversion, retries and price fallback

    A shallow embedding of the TypeScript sources

      - [src/lib/utils/api-retry.ts]                     (module [ApiRetry])
      - [src/lib/api/price-service.ts]                   (module [PriceService])
      - [src/lib/utils/token-helpers.ts]                 (module [TokenHelpers])
      - [src/services/blockchain/escrow-core.service.ts] (modules [EscrowCore],
                                                          [EscrowTransactions])
      - [src/services/blockchain/base-contract-client.service.ts]
                                                         (module [EscrowTransactions])
      - [src/lib/config/price-providers-config.ts]       (module [PriceProvidersConfig])
      - [src/lib/utils/price-fetcher.ts]                 (module [PriceFetcher])
      - [src/app/api/trades/validate-fee/route.ts]       (module [ValidateFeeRoute])

    JavaScript [number]s are IEEE-754 binary64 values; they are modelled by
    Rocq's primitive floats, whose operations are specified by [FloatAxioms]
    over [SpecFloat].  [bigint]s are modelled by [Z], strings by [string],
    exceptions by an explicit [result] type. *)

From Stdlib Require Import ZArith List String Ascii Bool Lia Floats.
From Stdlib Require Import DecimalString DecimalPos.
Import ListNotations.

Set Warnings "-inexact-float".

(** ** The JavaScript runtime functions the sources rely on *)
Module JS.

(** A computation either returns a value or throws. *)
Inductive result (E A : Type) : Type :=
| Ok (a : A)
| Throw (e : E).
Arguments Ok {E A} a.
Arguments Throw {E A} e.

Definition bind {E A B} (r : result E A) (k : A -> result E B) : result E B :=
  match r with
  | Ok a => k a
  | Throw e => Throw e
  end.

(** [try { r } catch (e) { h e }] *)
Definition try_catch {E A} (r : result E A) (h : E -> result E A) : result E A :=
  match r with
  | Ok a => Ok a
  | Throw e => h e
  end.

(** *** Numbers *)

(** [Number(z)] for a bigint [z], also the value of an integer literal:
    the binary64 value nearest to [z], ties to even. *)
Definition Number_of_BigInt (z : Z) : float :=
  SF2Prim (binary_normalize prec emax z 0 false).

(** [Math.floor]: NaN, the infinities, the zeros and the floats without
    fractional bits (exponent at least [0]) are returned as they are; a
    value in (0,1) gives +0. *)
Definition Math_floor (x : float) : float :=
  match Prim2SF x with
  | S754_finite s m (Zneg p) =>
      let z := Z.shiftr (cond_Zopp s (Zpos m)) (Zpos p) in
      if (z =? 0)%Z then PrimFloat.zero else Number_of_BigInt z
  | _ => x
  end.

(** [Math.round] of a finite float, as an integer: the nearest integer,
    ties towards plus infinity. *)
Definition roundSF (x : spec_float) : option Z :=
  match x with
  | S754_zero _ => Some 0%Z
  | S754_finite s m e =>
      Some (match e with
            | Zneg p =>
                Z.shiftr (cond_Zopp s (Zpos m) + Z.shiftl 1 (Z.pred (Zpos p)))
                         (Zpos p)
            | _ => Z.shiftl (cond_Zopp s (Zpos m)) e
            end)
  | _ => None
  end.

Definition Math_abs (x : float) : float := PrimFloat.abs x.

(** [Math.min] of two numbers: NaN if either is NaN, and -0 below +0. *)
Definition Math_min (x y : float) : float :=
  if PrimFloat.is_nan x then x
  else if PrimFloat.is_nan y then y
  else if PrimFloat.ltb x y then x
  else if PrimFloat.ltb y x then y
  else if PrimFloat.get_sign x then x else y.

Definition isNaN (x : float) : bool := PrimFloat.is_nan x.

(** [BigInt(x)] for a number [x]: defined on the integral values only
    (a RangeError otherwise). *)
Definition BigInt_of_Number (x : float) : option Z :=
  match Prim2SF x with
  | S754_zero _ => Some 0%Z
  | S754_finite s m (Zneg p) =>
      if (Z.land (Zpos m) (Z.ones (Zpos p)) =? 0)%Z
      then Some (Z.shiftr (cond_Zopp s (Zpos m)) (Zpos p))
      else None
  | S754_finite s m e => Some (Z.shiftl (cond_Zopp s (Zpos m)) e)
  | _ => None
  end.

(** [10 ** d] for a non-negative integer [d]. *)
Definition pow10 (d : nat) : float := Number_of_BigInt (10 ^ Z.of_nat d).

(** The binary64 value nearest to the rational [num / den] (ties to even):
    the quotient is computed with at least 64 significant bits and a sticky
    bit, then rounded once. *)
Definition round_ratio (num den : positive) : spec_float :=
  let s := Z.max 0 (64 + Z.log2 (Zpos den) - Z.log2 (Zpos num)) in
  let '(q, r) := Z.div_eucl (Z.shiftl (Zpos num) s) (Zpos den) in
  let sticky := if (r =? 0)%Z then 0%Z else 1%Z in
  binary_normalize prec emax (2 * q + sticky) (- s - 1) false.

(** *** Strings *)

Definition chars (s : string) : list ascii := list_ascii_of_string s.
Definition str (l : list ascii) : string := string_of_list_ascii l.

Definition is_digit (c : ascii) : bool :=
  let n := nat_of_ascii c in (48 <=? n)%nat && (n <=? 57)%nat.

Definition digit_val (c : ascii) : Z := Z.of_nat (nat_of_ascii c - 48).

Definition is_space (c : ascii) : bool :=
  let n := nat_of_ascii c in
  (n =? 32)%nat || ((9 <=? n)%nat && (n <=? 13)%nat).

Fixpoint span {A} (p : A -> bool) (l : list A) : list A * list A :=
  match l with
  | x :: l' =>
      if p x then let '(a, b) := span p l' in (x :: a, b) else ([], l)
  | [] => ([], [])
  end.

Fixpoint dropWhile {A} (p : A -> bool) (l : list A) : list A :=
  match l with
  | x :: l' => if p x then dropWhile p l' else l
  | [] => []
  end.

(** The value of a run of decimal digits. *)
Definition digits_val (l : list ascii) : Z :=
  fold_left (fun acc c => (10 * acc + digit_val c)%Z) l 0%Z.

Definition toLowerCase_char (c : ascii) : ascii :=
  let n := nat_of_ascii c in
  if (65 <=? n)%nat && (n <=? 90)%nat then ascii_of_nat (n + 32) else c.

Definition toLowerCase (s : string) : string :=
  str (map toLowerCase_char (chars s)).

Fixpoint is_prefix (p l : list ascii) : bool :=
  match p, l with
  | [], _ => true
  | a :: p', b :: l' => Ascii.eqb a b && is_prefix p' l'
  | _ :: _, [] => false
  end.

Fixpoint includes_chars (l p : list ascii) : bool :=
  is_prefix p l ||
  match l with
  | [] => false
  | _ :: l' => includes_chars l' p
  end.

(** [s.includes(p)] *)
Definition includes (s p : string) : bool := includes_chars (chars s) (chars p).

(** [s.padStart(n, '0')] and [s.padEnd(n, '0')] *)
Definition padStart0 (n : nat) (l : list ascii) : list ascii :=
  repeat "0"%char (n - List.length l) ++ l.
Definition padEnd0 (n : nat) (l : list ascii) : list ascii :=
  l ++ repeat "0"%char (n - List.length l).

(** [s.replace(/0+$/, '')] *)
Definition trimTrailingZeros (l : list ascii) : list ascii :=
  rev (dropWhile (Ascii.eqb "0"%char) (rev l)).

(** [z.toString()] for a bigint. *)
Definition BigInt_toString (z : Z) : string := NilZero.string_of_int (Z.to_int z).

(** The value of a digit in a radix up to 16, letters in either case. *)
Definition radix_digit (c : ascii) : option Z :=
  let n := nat_of_ascii c in
  if (48 <=? n)%nat && (n <=? 57)%nat then Some (Z.of_nat (n - 48))
  else if (97 <=? n)%nat && (n <=? 102)%nat then Some (Z.of_nat (n - 87))
  else if (65 <=? n)%nat && (n <=? 70)%nat then Some (Z.of_nat (n - 55))
  else None.

(** The value of a non-empty run of digits of [radix]. *)
Definition radix_val (radix : Z) (l : list ascii) : option Z :=
  match l with
  | [] => None
  | _ =>
      fold_left
        (fun acc c =>
           match acc, radix_digit c with
           | Some a, Some d =>
               if (d <? radix)%Z then Some (radix * a + d)%Z else None
           | _, _ => None
           end) l (Some 0%Z)
  end.

(** The radix a literal announces with [0x], [0o] or [0b], in either
    case, and the digits that follow. *)
Definition radix_prefix (l : list ascii) : option (Z * list ascii) :=
  match l with
  | z :: x :: rest =>
      if Ascii.eqb z "0" then
        if Ascii.eqb x "x" || Ascii.eqb x "X" then Some (16%Z, rest)
        else if Ascii.eqb x "o" || Ascii.eqb x "O" then Some (8%Z, rest)
        else if Ascii.eqb x "b" || Ascii.eqb x "B" then Some (2%Z, rest)
        else None
      else None
  | _ => None
  end.

(** [BigInt(s)] for a string: surrounding white space is ignored, the empty
    string is [0n], otherwise an optionally signed run of decimal digits, or
    an unsigned hexadecimal, octal or binary literal after [0x], [0o] or [0b]
    (a SyntaxError otherwise). *)
Definition BigInt_of_string (s : string) : option Z :=
  let l := rev (dropWhile is_space (rev (dropWhile is_space (chars s)))) in
  let parse_digits l :=
    match l with
    | [] => None
    | _ => if forallb is_digit l then Some (digits_val l) else None
    end in
  match l with
  | [] => Some 0%Z
  | c :: l' =>
      if Ascii.eqb c "-" then option_map Z.opp (parse_digits l')
      else if Ascii.eqb c "+" then parse_digits l'
      else
        match radix_prefix l with
        | Some (radix, digits) => radix_val radix digits
        | None => parse_digits l
        end
  end.

(** [parseFloat(s)]: leading white space is skipped, then the longest
    prefix that is a decimal literal (sign, digits, fraction, exponent, or
    [Infinity]) is converted to the nearest binary64 value; NaN when there is
    no such prefix. *)
Definition parse_exponent (l : list ascii) : Z :=
  match l with
  | c :: l' =>
      if Ascii.eqb c "e"%char || Ascii.eqb c "E"%char then
        let '(neg, l'') :=
          match l' with
          | s :: t =>
              if Ascii.eqb s "-" then (true, t)
              else if Ascii.eqb s "+" then (false, t)
              else (false, l')
          | [] => (false, l')
          end in
        let '(ds, _) := span is_digit l'' in
        match ds with
        | [] => 0%Z
        | _ => if neg then (- digits_val ds)%Z else digits_val ds
        end
      else 0%Z
  | [] => 0%Z
  end.

Definition decimal_value (neg : bool) (mant : Z) (exp10 : Z) : spec_float :=
  match mant with
  | Zpos m =>
      let v :=
        match exp10 with
        | Zneg k => round_ratio m (Pos.pow 10 k)
        | Z0 => round_ratio m 1
        | Zpos k => round_ratio (m * Pos.pow 10 k) 1
        end in
      if neg then SFopp v else v
  | _ => S754_zero neg
  end.

Definition parseSF (s : string) : spec_float :=
  let l := dropWhile is_space (chars s) in
  let '(neg, l) :=
    match l with
    | c :: t =>
        if Ascii.eqb c "-" then (true, t)
        else if Ascii.eqb c "+" then (false, t)
        else (false, l)
    | [] => (false, l)
    end in
  if is_prefix (chars "Infinity") l then S754_infinity neg
  else
    let '(ip, rest) := span is_digit l in
    let '(fp, rest) :=
      match rest with
      | c :: t => if Ascii.eqb c "." then span is_digit t else ([], rest)
      | [] => ([], rest)
      end in
    match ip ++ fp with
    | [] => S754_nan
    | ds =>
        decimal_value neg (digits_val ds)
          (parse_exponent rest - Z.of_nat (List.length fp))
    end.

Definition parseFloat (s : string) : float := SF2Prim (parseSF s).

(** [amount: string | number] *)
Inductive string_or_number : Type :=
| OfString (s : string)
| OfNumber (x : float).

(** [x.toString()] for a number: the shortest decimal digits [s] (k of
    them) and exponent [n] with [s * 10^(n-k)] converting back to [x], the
    closest such [s] when there are several, laid out as ECMAScript's
    Number::toString does. *)
Definition ratio_lt_pow10 (num den : Z) (n : Z) : bool :=
  match n with
  | Zneg k => (num * 10 ^ Zpos k <? den)%Z
  | _ => (num <? den * 10 ^ n)%Z
  end.

Definition decimal_exponent (num den : Z) : Z :=
  let est := ((Z.log2 num - Z.log2 den) * 30103 / 100000)%Z in
  let cands := map (fun i => (est - 2 + Z.of_nat i)%Z) (seq 0 8) in
  match find (ratio_lt_pow10 num den) cands with
  | Some n => n
  | None => est
  end.

Definition scaled_ratio (s : Z) (e10 : Z) : spec_float :=
  match s, e10 with
  | Zpos p, Zneg k => round_ratio p (Pos.pow 10 k)
  | Zpos p, Z0 => round_ratio p 1
  | Zpos p, Zpos k => round_ratio (p * Pos.pow 10 k) 1
  | _, _ => S754_zero false
  end.

Definition shortest_digits (x : spec_float) (num den : Z) : Z * Z :=
  let n := decimal_exponent num den in
  let try_k (k : Z) : option (Z * Z) :=
    let '(tn, td) :=
      match (k - n)%Z with
      | Zneg j => (num, den * 10 ^ Zpos j)%Z
      | j => (num * 10 ^ j, den)%Z
      end in
    let lo := (tn / td)%Z in
    let hi := (lo + 1)%Z in
    let ok_lo := SFeqb (scaled_ratio lo (n - k)) x in
    let ok_hi := SFeqb (scaled_ratio hi (n - k)) x in
    let hi_out := if (hi <? 10 ^ k)%Z then (hi, n) else (10 ^ (k - 1), n + 1)%Z in
    match ok_lo, ok_hi with
    | true, false => Some (lo, n)
    | false, true => Some hi_out
    | true, true =>
        match (2 * tn ?= (lo + hi) * td)%Z with
        | Lt => Some (lo, n)
        | Gt => Some hi_out
        | Eq => if Z.even lo then Some (lo, n) else Some hi_out
        end
    | false, false => None
    end in
  let fix go (fuel : nat) (k : Z) : Z * Z :=
    match fuel with
    | O => (0%Z, n)
    | S fuel' =>
        match try_k k with
        | Some r => r
        | None => go fuel' (k + 1)%Z
        end
    end in
  go 17%nat 1%Z.

Definition uint_chars (z : Z) : list ascii := chars (BigInt_toString z).

Definition layout_number (s n : Z) : list ascii :=
  let ds := uint_chars s in
  let k := Z.of_nat (List.length ds) in
  if ((k <=? n) && (n <=? 21))%Z then
    ds ++ repeat "0"%char (Z.to_nat (n - k))
  else if ((0 <? n) && (n <=? 21))%Z then
    firstn (Z.to_nat n) ds ++ "."%char :: skipn (Z.to_nat n) ds
  else if ((-6 <? n) && (n <=? 0))%Z then
    "0"%char :: "."%char :: repeat "0"%char (Z.to_nat (- n)) ++ ds
  else
    let e := (n - 1)%Z in
    let sign := if (e <? 0)%Z then "-"%char else "+"%char in
    let mant :=
      match ds with
      | d :: (_ :: _) as rest => d :: "."%char :: rest
      | _ => ds
      end in
    mant ++ "e"%char :: sign :: uint_chars (Z.abs e).

Definition Number_toString (x : float) : string :=
  match Prim2SF x with
  | S754_nan => "NaN"%string
  | S754_zero _ => "0"%string
  | S754_infinity false => "Infinity"%string
  | S754_infinity true => "-Infinity"%string
  | S754_finite sg m e =>
      let '(num, den) :=
        match e with
        | Zneg p => (Zpos m, 2 ^ Zpos p)%Z
        | _ => (Zpos m * 2 ^ e, 1)%Z
        end in
      let '(s, n) := shortest_digits (S754_finite false m e) num den in
      str ((if sg then ["-"%char] else []) ++ layout_number s n)
  end.

End JS.

(** ** Values thrown by the sources *)
Module Exn.

(** The fields of a thrown object that the retry logic inspects
    ([error.status], [error.statusCode], [error.response?.status],
    [error.message]); [None] is an absent field. *)
Record error_obj : Type := {
  status : option Z;
  statusCode : option Z;
  response_status : option Z;
  message : option string
}.

(** A thrown value: [null] / [undefined], or an object. *)
Inductive exn : Type :=
| Nullish
| Obj (e : error_obj).

(** [new Error(msg)] *)
Definition Error (msg : string) : exn :=
  Obj {| status := None; statusCode := None; response_status := None;
         message := Some msg |}.

(** [error instanceof Error ? error.message : 'Unknown error'], for the
    thrown values modelled here. *)
Definition message_or_unknown (e : exn) : string :=
  match e with
  | Obj {| message := Some m |} => m
  | _ => "Unknown error"%string
  end.

End Exn.

(** ** [src/services/blockchain/escrow-core.service.ts] *)
Module EscrowCore.
Import JS Exn.
Local Open Scope float_scope.

(** The service instance: [this.contract] is absent when the chain has no
    deployed contract; the contract's [getUserFeePercentage] view returns the
    user's fee tier in basis points (a [uint256]) or fails. *)
Record EscrowCoreService : Type := {
  contract : option (string -> result exn Z)
}.

Record FeeCalculation : Type := {
  feePercentage : float;
  feeAmount : float;
  netAmount : float
}.

Definition getUserFeePercentage (this : EscrowCoreService) (userAddress : string)
  : result exn float :=
  match contract this with
  | None => Throw (Error "Contract not initialized")
  | Some c =>
      bind (c userAddress) (fun feeBasisPoints =>
      Ok (Number_of_BigInt feeBasisPoints / 100))
  end.

Definition amountNum (amount : string_or_number) : float :=
  match amount with
  | OfString s => parseFloat s
  | OfNumber x => x
  end.

Definition calculateUserFee (this : EscrowCoreService) (userAddress : string)
    (amount : string_or_number) : result exn FeeCalculation :=
  bind (getUserFeePercentage this userAddress) (fun feePercentage =>
  let amountNum := amountNum amount in
  let feeAmount := amountNum * (feePercentage / 100) in
  let netAmount := amountNum - feeAmount in
  Ok {| feePercentage := feePercentage;
        feeAmount := feeAmount;
        netAmount := netAmount |}).

Definition tolerance : float := 0.0001.

Definition validateClientFee (this : EscrowCoreService) (userAddress : string)
    (amount : string_or_number) (clientProvidedFee : float) : result exn bool :=
  bind (calculateUserFee this userAddress amount) (fun r =>
  let feeAmount := feeAmount r in
  let difference := Math_abs (feeAmount - clientProvidedFee) in
  let percentDiff := difference / feeAmount in
  Ok (percentDiff <=? tolerance)).

(** The record the specification words for [calculateUserFee], from the
    basis points read on chain. *)
Definition feeFromBasisPoints (basisPoints : Z) (amount : float) : FeeCalculation :=
  let pct := Number_of_BigInt basisPoints / 100 in
  let fee := amount * (pct / 100) in
  {| feePercentage := pct; feeAmount := fee; netAmount := amount - fee |}.

(** A service whose contract answers every address with the same tier. *)
Definition fixedTier (basisPoints : Z) : EscrowCoreService :=
  {| contract := Some (fun _ => Ok basisPoints) |}.

End EscrowCore.

(** ** [src/lib/utils/token-helpers.ts] *)
Module TokenHelpers.
Import JS Exn.
Local Open Scope float_scope.

(** [BigInt(x)] of a number and of a string, with their exceptions. *)
Definition BigIntN (x : float) : result exn Z :=
  match BigInt_of_Number x with
  | Some z => Ok z
  | None => Throw (Error "RangeError: the number cannot be converted to a BigInt")
  end.

Definition BigIntS (s : string) : result exn Z :=
  match BigInt_of_string s with
  | Some z => Ok z
  | None => Throw (Error "SyntaxError: cannot convert to a BigInt")
  end.

(** [a / b] and [a % b] on bigints: truncating, a RangeError on [0n]. *)
Definition BigInt_div (a b : Z) : result exn Z :=
  if (b =? 0)%Z then Throw (Error "RangeError: Division by zero") else Ok (Z.quot a b).
Definition BigInt_rem (a b : Z) : result exn Z :=
  if (b =? 0)%Z then Throw (Error "RangeError: Division by zero") else Ok (Z.rem a b).

(** [typeof amount === 'string' ? parseFloat(amount) : amount] *)
Definition amountValue (amount : string_or_number) : float :=
  match amount with
  | OfString s => parseFloat s
  | OfNumber x => x
  end.

Definition toSmallestUnit (amount : string_or_number) (decimals : nat)
  : result exn string :=
  let value := amountValue amount in
  if isNaN value || (value <=? 0) then Ok "0"%string
  else
    bind (BigIntN (pow10 decimals)) (fun factor =>
    bind (BigIntN (Math_floor value)) (fun wholePart =>
    let decimalPart := value - Math_floor value in
    bind (BigIntN (Math_floor (decimalPart * Number_of_BigInt factor)))
      (fun decimalPartBigInt =>
    Ok (BigInt_toString (wholePart * factor + decimalPartBigInt))))).

Definition fromSmallestUnit (amount : string_or_number) (decimals : nat) : string :=
  let value :=
    match amount with
    | OfString s => s
    | OfNumber x => Number_toString x
    end in
  let attempt :=
    bind (BigIntS value) (fun bigIntAmount =>
    bind (BigIntN (pow10 decimals)) (fun factor =>
    bind (BigInt_div bigIntAmount factor) (fun wholePart =>
    bind (BigInt_rem bigIntAmount factor) (fun remainder =>
    let decimalStr := padStart0 decimals (chars (BigInt_toString remainder)) in
    let trimmedDecimal := trimTrailingZeros decimalStr in
    match trimmedDecimal with
    | [] => Ok (BigInt_toString wholePart)
    | _ => Ok (str (chars (BigInt_toString wholePart) ++ "."%char :: trimmedDecimal))
    end)))) in
  match attempt with
  | Ok s => s
  | Throw _ => Number_toString (parseFloat value / pow10 decimals)
  end.

Definition isHederaChain (chainId : Z) : bool :=
  (chainId =? 296)%Z || (chainId =? 295)%Z.

(** Modelled from the spec: [parseUnits] is imported from the [viem]
    package and is not part of the sources; the specification calls it the
    standard fixed-point scaling of a decimal string by [10^decimals].  The
    definition follows the package's algorithm: the string must match
    [-?digits.?digits]; trailing zeros of the fraction are dropped; a
    fraction longer than [decimals] is rounded at its last kept digit
    (half up, through [Math.round(Number(...))]), and a shorter one is
    padded with zeros. *)
Definition valid_decimal (l : list ascii) : bool :=
  let l :=
    match l with
    | c :: t => if Ascii.eqb c "-" then t else l
    | [] => l
    end in
  match snd (span is_digit l) with
  | [] => true
  | c :: t => Ascii.eqb c "." && forallb is_digit t
  end.

Definition not_dot (c : ascii) : bool := negb (Ascii.eqb c "."%char).

(** Modelled from the spec: [`${BigInt(integer) + 1n}`] in [parseUnits]. *)
Definition increment (integer : list ascii) : result exn (list ascii) :=
  bind (BigIntS (str integer)) (fun i => Ok (chars (BigInt_toString (i + 1)))).

(** Modelled from the spec: [Math.round(Number(s))] in [parseUnits], as an
    integer; [None] stands for NaN. *)
Definition round_of_string (l : list ascii) : option Z := roundSF (parseSF (str l)).

(** Modelled from the spec: the part of [parseUnits] after the split at
    the point, which rounds or pads the fraction and takes [BigInt] of the
    joined digits. *)
Definition scaleParts (negative : bool) (integer fraction : list ascii)
    (decimals : nat) : result exn Z :=
  bind
    (if (decimals =? 0)%nat then
       bind (match round_of_string ("."%char :: fraction) with
             | Some 1%Z => increment integer
             | _ => Ok integer
             end) (fun integer => Ok (integer, []))
     else if (decimals <? List.length fraction)%nat then
       let left := firstn (decimals - 1) fraction in
       let unit := firstn 1 (skipn (decimals - 1) fraction) in
       let right := skipn decimals fraction in
       match round_of_string (unit ++ "."%char :: right) with
       | None => Throw (Error "SyntaxError: cannot convert to a BigInt")
       | Some rounded =>
           bind (if (9 <? rounded)%Z then
                   bind (BigIntS (str left)) (fun lz =>
                   Ok (padStart0 (List.length left + 1)
                         (chars (BigInt_toString (lz + 1)) ++ ["0"%char])))
                 else Ok (left ++ chars (BigInt_toString rounded)))
             (fun fraction =>
           bind (if (decimals <? List.length fraction)%nat then
                   bind (increment integer) (fun integer => Ok (integer, tl fraction))
                 else Ok (integer, fraction))
             (fun '(integer, fraction) => Ok (integer, firstn decimals fraction)))
       end
     else Ok (integer, padEnd0 decimals fraction))
    (fun '(integer, fraction) =>
       BigIntS (str ((if negative then ["-"%char] else []) ++ integer ++ fraction))).

(** Modelled from the spec: [parseUnits] of [viem], which validates the
    string, splits it at the point, takes the sign off and drops the
    trailing zeros of the fraction. *)
Definition parseUnits (value : string) (decimals : nat) : result exn Z :=
  let l := chars value in
  if negb (valid_decimal l) then Throw (Error "InvalidDecimalNumberError")
  else
    let '(integer, rest) := span not_dot l in
    let fraction :=
      match rest with
      | _ :: t => fst (span not_dot t)
      | [] => ["0"%char]
      end in
    let negative :=
      match integer with
      | c :: _ => Ascii.eqb c "-"
      | [] => false
      end in
    let integer := if negative then tl integer else integer in
    scaleParts negative integer (trimTrailingZeros fraction) decimals.

(** A decimal amount string: the digits [ip] of the integer part, then,
    when [fp] is not empty, a point and the digits [fp] of the fraction. *)
Definition decimalString (ip fp : list ascii) : string :=
  str (ip ++ match fp with [] => [] | _ => "."%char :: fp end).

Definition is_decimal (ip fp : list ascii) : Prop :=
  forallb is_digit ip = true /\ forallb is_digit fp = true.

Record ChainAmountPair : Type := {
  contractAmount : Z;
  transactionValue : Z
}.

(** A recorded call of the price source: the symbol and the CoinGecko id
    it was asked for. *)
Definition lookup : Type := (string * option string)%type.

(** The price source resolves no positive price: it fails, yields nothing,
    or yields a number that is not above zero (NaN included). *)
Definition no_positive_price (o : result exn (option float)) : Prop :=
  match o with
  | Ok (Some price) => (0 <? price) = false
  | _ => True
  end.

Section Chain.
(** [getNativeCurrencyDecimals], [getCoingeckoPriceId] and
    [getNativeCurrencySymbol] come from [@/lib/blockchain], which is not
    among the sources: chain tables, taken as parameters.  [priceSource]
    is the price lookup behind [getPrice] (the cached price service on the
    server, the prices endpoint on the client): it yields a price, nothing,
    or fails. *)
Variable getNativeCurrencyDecimals : Z -> nat.
Variable getCoingeckoPriceId : Z -> option string.
Variable getNativeCurrencySymbol : Z -> string.
Variable priceSource : string -> option string -> result exn (option float).

Definition parseNativeAmount (amount : string) (chainId : Z) : result exn Z :=
  let decimals := getNativeCurrencyDecimals chainId in
  parseUnits amount decimals.

Definition getEscrowAmounts (amount : string) (chainId : Z)
  : result exn ChainAmountPair :=
  if isHederaChain chainId then
    bind (parseUnits amount 8) (fun c =>
    bind (parseUnits amount 18) (fun t =>
    Ok {| contractAmount := c; transactionValue := t |}))
  else
    bind (parseNativeAmount amount chainId) (fun nativeAmount =>
    Ok {| contractAmount := nativeAmount; transactionValue := nativeAmount |}).

(** [getPrice]: one call of the price source, recorded in the log; a
    failure, a missing result and a falsy price all give [null]. *)
Definition truthy (x : float) : bool := negb (isNaN x || (x =? 0)).

Definition getPrice (symbol : string) (coingeckoId : option string)
    (log : list lookup) : option float * list lookup :=
  let log := log ++ [(symbol, coingeckoId)] in
  match priceSource symbol coingeckoId with
  | Ok (Some price) => (if truthy price then Some price else None, log)
  | Ok None => (None, log)
  | Throw _ => (None, log)
  end.

Definition convertUSDToWei (usdAmount : float) (chainId : Z)
    (log : list lookup) : result exn Z * list lookup :=
  if usdAmount =? 0 then (Ok 0%Z, log)
  else
    let coingeckoId := getCoingeckoPriceId chainId in
    let symbol := getNativeCurrencySymbol chainId in
    let '(price, log) := getPrice symbol coingeckoId log in
    let body :=
      match price with
      | None => Throw (Error "Unable to fetch current price")
      | Some price =>
          if price <=? 0 then Throw (Error "Unable to fetch current price")
          else
            let nativeAmount := usdAmount / price in
            parseNativeAmount (Number_toString nativeAmount) chainId
      end in
    (try_catch body (fun error =>
       Throw (Error ("Failed to convert USD to Wei: " ++ message_or_unknown error))),
     log).

Definition getSubscriptionAmount (amount : string) (chainId : Z) : result exn Z :=
  if isHederaChain chainId then parseUnits amount 18
  else parseNativeAmount amount chainId.

End Chain.

(** [transactionValue: bigint | string] *)
Inductive bigint_or_string : Type :=
| OfBigInt (z : Z)
| OfText (s : string).

Record NormalizedValues : Type := {
  normalizedTxValue : string;
  normalizedExpected : string
}.

Definition normalizeTransactionValue (transactionValue : bigint_or_string)
    (expectedAmount : string) (chainId : Z) : result exn NormalizedValues :=
  let txValueString :=
    match transactionValue with
    | OfBigInt z => BigInt_toString z
    | OfText s => s
    end in
  if isHederaChain chainId then
    bind (BigIntS txValueString) (fun txValueBigInt =>
    bind (BigIntN (pow10 10)) (fun divisor =>
    bind (BigInt_div txValueBigInt divisor) (fun quotient =>
    let normalizedTxValue := BigInt_toString quotient in
    Ok {| normalizedTxValue := normalizedTxValue;
          normalizedExpected := expectedAmount |})))
  else
    Ok {| normalizedTxValue := txValueString;
          normalizedExpected := expectedAmount |}.

End TokenHelpers.

(** ** [src/lib/utils/api-retry.ts] *)
Module ApiRetry.
Import JS Exn.
Local Open Scope float_scope.

(** What an observer of [withRetry] sees besides its result: the calls of
    the [onRetry] callback (or the default log line) and the sleeps. *)
Inductive event : Type :=
| OnRetry (attempt : Z) (error : exn) (delay : float)
| ConsoleLog (attempt : Z) (delay : float) (rateLimited : bool)
| Sleep (ms : float).

(** [onRetry], when given, is called with the attempt number, the error
    and the delay; like any call it may itself throw. *)
Record RetryConfig : Type := {
  maxRetries : Z;
  minRetryDelayMs : float;
  maxRetryDelayMs : float;
  backoffMultiplier : float;
  onRetry : option (Z -> exn -> float -> result exn unit)
}.

(** A JavaScript value is truthy as a status when present and not [0]. *)
Definition truthy_status (o : option Z) : bool :=
  match o with
  | Some z => negb (z =? 0)%Z
  | None => false
  end.

(** [error.status || error.statusCode || error.response?.status] *)
Definition status_of (e : error_obj) : option Z :=
  if truthy_status (status e) then status e
  else if truthy_status (statusCode e) then statusCode e
  else response_status e.

(** [error?.message?.toLowerCase() || ''] *)
Definition message_lower (e : error_obj) : string :=
  match message e with
  | Some m => toLowerCase m
  | None => ""%string
  end.

Definition isRateLimitError (error : exn) : bool :=
  match error with
  | Nullish => false
  | Obj e =>
      match status_of e with
      | Some 429%Z => true
      | _ =>
          let message := message_lower e in
          includes message "rate limit" ||
          includes message "too many requests" ||
          includes message "429"
      end
  end.

Definition isRetryableError (error : exn) : bool :=
  match error with
  | Nullish => false
  | Obj e =>
      if isRateLimitError error then true
      else
        let message := message_lower e in
        if includes message "network" ||
           includes message "timeout" ||
           includes message "econnrefused" ||
           includes message "enotfound"
        then true
        else
          let status := status_of e in
          if truthy_status status then
            match status with
            | Some s => (500 <=? s)%Z || (s =? 408)%Z || (s =? 429)%Z
            | None => false
            end
          else false
  end.

Section Runtime.
(** [Math.pow] is implementation-approximated in ECMAScript; it is taken
    as a parameter here, applied to the integer exponent [attempt - 1]. *)
Variable Math_pow : float -> Z -> float.

(** [random] is the value [Math.random()] returns when the rate-limit
    branch reads it. *)
Definition calculateRetryDelay (attempt : Z) (config : RetryConfig)
    (isRateLimit : bool) (random : float) : float :=
  if isRateLimit then
    Math_floor
      (random * (maxRetryDelayMs config - minRetryDelayMs config)
       + minRetryDelayMs config)
  else
    let exponentialDelay :=
      minRetryDelayMs config * Math_pow (backoffMultiplier config) (attempt - 1) in
    Math_min exponentialDelay (maxRetryDelayMs config).

(** The state [withRetry] runs in: how often the operation has been
    called, how many random numbers were drawn, and the events so far. *)
Record world : Type := {
  calls : nat;
  draws : nat;
  trace : list event
}.

Section WithRetry.
Context {T : Type}.
(** The operation [fn]: its outcome at each of its calls, numbered
    from [0]; and the stream [Math.random()] draws from. *)
Variable fn : nat -> result exn T.
Variable random : nat -> float.
Variable config : RetryConfig.

(** The loop of [withRetry] with [n] iterations left before
    [attempt <= maxRetries + 1] fails. *)
Fixpoint withRetry_loop (n : nat) (attempt : Z) (lastError : exn) (w : world)
  : result exn T * world :=
  match n with
  | O => (Throw lastError, w)
  | S n' =>
      let outcome := fn (calls w) in
      let w := {| calls := S (calls w); draws := draws w; trace := trace w |} in
      match outcome with
      | Ok v => (Ok v, w)
      | Throw error =>
          if (maxRetries config <? attempt)%Z || negb (isRetryableError error)
          then (Throw error, w)
          else
            let isRateLimit := isRateLimitError error in
            let delay :=
              calculateRetryDelay attempt config isRateLimit (random (draws w)) in
            let w :=
              {| calls := calls w;
                 draws := if isRateLimit then S (draws w) else draws w;
                 trace := trace w |} in
            match onRetry config with
            | Some callback =>
                let w := {| calls := calls w; draws := draws w;
                            trace := trace w ++ [OnRetry attempt error delay] |} in
                match callback attempt error delay with
                | Throw thrown => (Throw thrown, w)
                | Ok _ =>
                    withRetry_loop n' (attempt + 1)%Z error
                      {| calls := calls w; draws := draws w;
                         trace := trace w ++ [Sleep delay] |}
                end
            | None =>
                withRetry_loop n' (attempt + 1)%Z error
                  {| calls := calls w; draws := draws w;
                     trace := trace w ++ [ConsoleLog attempt delay isRateLimit;
                                          Sleep delay] |}
            end
      end
  end.

Definition withRetry (w : world) : result exn T * world :=
  withRetry_loop (Z.to_nat (maxRetries config + 1)) 1%Z Nullish w.

End WithRetry.
End Runtime.

Definition start : world := {| calls := 0; draws := 0; trace := [] |}.

(** One admissible [Math.pow] on integer exponents, by repeated
    multiplication; used to run the definitions on concrete inputs. *)
Definition pow_by_mult (x : float) (n : Z) : float :=
  Z.iter n (fun acc => acc * x) 1.

(** The observer callback, when there is one, returns normally. *)
Definition callback_returns (config : RetryConfig) : Prop :=
  forall cb, onRetry config = Some cb -> forall a e d, cb a e d = Ok tt.

(** The operation fails with a retryable error at its call number [i]. *)
Definition fails_retryably {T} (fn : nat -> result exn T) (i : nat) : Prop :=
  exists e, fn i = Throw e /\ isRetryableError e = true.

(** The loop stops at call number [k]: the operation succeeds there, or
    fails with an error that is not retried. *)
Definition settles {T} (fn : nat -> result exn T) (config : RetryConfig) (k : nat)
  : Prop :=
  match fn k with
  | Ok _ => True
  | Throw e => isRetryableError e = false \/ (maxRetries config < Z.of_nat k + 1)%Z
  end.

(** A server error on the first call, then a result: one retry. *)
Definition flaky (i : nat) : result exn nat :=
  if (i <? 1)%nat
  then Throw (Obj {| status := Some 503%Z; statusCode := None;
                     response_status := None; message := Some "unavailable"%string |})
  else Ok 42%nat.

Definition policy : RetryConfig :=
  {| maxRetries := 2; minRetryDelayMs := 1000%float; maxRetryDelayMs := 5000%float;
     backoffMultiplier := 1.5%float; onRetry := None |}.

(** A policy whose delays are not whole milliseconds. *)
Definition fractionalPolicy : RetryConfig :=
  {| maxRetries := 2; minRetryDelayMs := 0.5%float; maxRetryDelayMs := 1.5%float;
     backoffMultiplier := 1.5%float; onRetry := None |}.

(** The pauses of a run, in order, and the number of retries that were
    announced for a rate-limit error. *)
Definition sleeps (t : list event) : list float :=
  flat_map (fun ev => match ev with Sleep ms => [ms] | _ => [] end) t.

Definition rateLimitedRetries (t : list event) : nat :=
  List.length
    (filter (fun ev =>
               match ev with
               | OnRetry _ error _ => isRateLimitError error
               | ConsoleLog _ _ rateLimited => rateLimited
               | Sleep _ => false
               end) t).

(** A delay that does not exceed [cap]; NaN, which [setTimeout] takes for
    no delay, included. *)
Definition capped (cap ms : float) : Prop :=
  PrimFloat.is_nan ms = true \/ PrimFloat.leb ms cap = true.

(** *** The classes of retryable errors, as the specification lists them

    They are stated on the fields of the thrown value, apart from
    [isRetryableError]: an error carries the HTTP status found first among
    [status], [statusCode] and [response.status] (a field that is absent or
    [0] is passed over), and it mentions a keyword when its message has it in
    any letter case. *)
Definition unset (field : option Z) : Prop := field = None \/ field = Some 0%Z.

Inductive carriesStatus (e : error_obj) (s : Z) : Prop :=
| InStatus : status e = Some s -> s <> 0%Z -> carriesStatus e s
| InStatusCode :
    unset (status e) -> statusCode e = Some s -> s <> 0%Z -> carriesStatus e s
| InResponse :
    unset (status e) -> unset (statusCode e) -> response_status e = Some s ->
    carriesStatus e s.

Definition mentions (e : error_obj) (keyword : string) : Prop :=
  exists m, message e = Some m /\ includes (toLowerCase m) keyword = true.

Inductive RetryableClass : exn -> Prop :=
| RateLimitStatus e : carriesStatus e 429 -> RetryableClass (Obj e)
| RateLimitMessage e :
    mentions e "rate limit" \/ mentions e "too many requests" \/ mentions e "429" ->
    RetryableClass (Obj e)
| ServerError e s : carriesStatus e s -> (500 <= s)%Z -> RetryableClass (Obj e)
| RequestTimeout e : carriesStatus e 408 -> RetryableClass (Obj e)
| NetworkError e :
    mentions e "network" \/ mentions e "timeout"
    \/ mentions e "econnrefused" \/ mentions e "enotfound" ->
    RetryableClass (Obj e).

(** An observer that throws, and a server error at every call. *)
Definition throwingObserver : RetryConfig :=
  {| maxRetries := 2; minRetryDelayMs := 1000%float; maxRetryDelayMs := 5000%float;
     backoffMultiplier := 1.5%float;
     onRetry := Some (fun _ _ _ => Throw (Error "observer failed")) |}.

Definition unavailable (i : nat) : result exn nat :=
  Throw (Obj {| status := Some 503%Z; statusCode := None;
                response_status := None; message := Some "unavailable"%string |}).

(** The substrings [isRateLimitError] and [isRetryableError] look for in
    the lower-cased message of an error. *)
Definition retryKeywords : list string :=
  ["rate limit"; "too many requests"; "429";
   "network"; "timeout"; "econnrefused"; "enotfound"]%string.

End ApiRetry.

(** ** [src/lib/api/price-service.ts] *)
Module PriceService.
Import JS Exn.
Local Open Scope float_scope.

Inductive PriceProvider : Type :=
| COINGECKO
| BINANCE
| KRAKEN
| CRYPTOCOMPARE
| COINBASE.

Record PriceResult : Type := {
  price : float;
  provider : PriceProvider;
  timestamp : Z
}.

Record ApiKeys : Type := {
  key_coingecko : option string;
  key_cryptocompare : option string;
  key_binance : option string
}.

Record PriceServiceOptions : Type := {
  symbol : option string;
  coingeckoId : option string;
  apiKeys : option ApiKeys
}.

Definition PROVIDER_ORDER : list PriceProvider :=
  [COINGECKO; KRAKEN; CRYPTOCOMPARE; COINBASE; BINANCE].

(** [a || b] on an optional string: the empty string is falsy. *)
Definition or_else (a : option string) (b : string) : string :=
  match a with
  | Some s => if String.eqb s "" then b else s
  | None => b
  end.

(** What an adapter call gives: a price or [null], or an exception. *)
Definition outcome : Type := result exn (option float).

(** The usable price of an adapter outcome: a strictly positive number. *)
Definition yields (o : outcome) : option float :=
  match o with
  | Ok (Some p) => if 0 <? p then Some p else None
  | _ => None
  end.

Section Adapters.
(** The five provider adapters and the clock. *)
Variable getCoingeckoPrice : string -> option string -> outcome.
Variable getKrakenPrice : string -> outcome.
Variable getCryptoComparePrice : string -> option string -> outcome.
Variable getCoinbasePrice : string -> outcome.
Variable getBinancePrice : string -> option string -> outcome.
Variable Date_now : Z.

(** The [switch] of the loop body: the adapter of [provider], called
    with the identifier it needs. *)
Definition callProvider (provider : PriceProvider) (tradingSymbol geckoId : string)
    (apiKeys : option ApiKeys) : outcome :=
  let key (f : ApiKeys -> option string) :=
    match apiKeys with
    | Some k => f k
    | None => None
    end in
  match provider with
  | COINGECKO => getCoingeckoPrice geckoId (key key_coingecko)
  | KRAKEN => getKrakenPrice tradingSymbol
  | CRYPTOCOMPARE => getCryptoComparePrice tradingSymbol (key key_cryptocompare)
  | COINBASE => getCoinbasePrice tradingSymbol
  | BINANCE => getBinancePrice tradingSymbol (key key_binance)
  end.

(** The [for ... of PROVIDER_ORDER] loop; [called] lists the providers
    whose adapter has been called, in call order. *)
Fixpoint tryProviders (providers : list PriceProvider)
    (tradingSymbol geckoId : string) (apiKeys : option ApiKeys)
    (called : list PriceProvider) : option PriceResult * list PriceProvider :=
  match providers with
  | [] => (None, called)
  | provider :: rest =>
      let called := called ++ [provider] in
      match callProvider provider tradingSymbol geckoId apiKeys with
      | Ok (Some price) =>
          if 0 <? price then
            (Some {| price := price; provider := provider; timestamp := Date_now |},
             called)
          else tryProviders rest tradingSymbol geckoId apiKeys called
      | Ok None => tryProviders rest tradingSymbol geckoId apiKeys called
      | Throw _ => tryProviders rest tradingSymbol geckoId apiKeys called
      end
  end.

Definition getPriceWithFallback (symbolOrId : string) (options : PriceServiceOptions)
  : option PriceResult * list PriceProvider :=
  let tradingSymbol := or_else (symbol options) symbolOrId in
  let geckoId := or_else (coingeckoId options) symbolOrId in
  tryProviders PROVIDER_ORDER tradingSymbol geckoId (apiKeys options) [].

End Adapters.

End PriceService.

(** ** [src/lib/config/price-providers-config.ts] *)
Module PriceProvidersConfig.
Import JS Exn PriceService.
Local Open Scope Z_scope.

Record RateLimit : Type := {
  requestsPerMinute : Z;
  requestsPerSecond : option Z
}.

Record RetrySettings : Type := {
  maxRetries : Z;
  minDelayMs : float;
  maxDelayMs : float;
  backoffMultiplier : float
}.

Record ProviderConfig : Type := {
  name : PriceProvider;
  displayName : string;
  priority : Z;
  requiresApiKey : bool;
  rateLimit : RateLimit;
  retry : RetrySettings;
  timeout : Z;
  enabled : bool
}.

Definition PRICE_PROVIDERS_CONFIG (provider : PriceProvider) : ProviderConfig :=
  match provider with
  | COINGECKO =>
      {| name := COINGECKO; displayName := "CoinGecko"; priority := 1;
         requiresApiKey := false;
         rateLimit := {| requestsPerMinute := 50; requestsPerSecond := Some 1 |};
         retry := {| maxRetries := 10; minDelayMs := 1000%float;
                     maxDelayMs := 5000%float; backoffMultiplier := 1.5%float |};
         timeout := 30000; enabled := true |}
  | BINANCE =>
      {| name := BINANCE; displayName := "Binance"; priority := 2;
         requiresApiKey := false;
         rateLimit := {| requestsPerMinute := 1200; requestsPerSecond := Some 20 |};
         retry := {| maxRetries := 5; minDelayMs := 500%float;
                     maxDelayMs := 3000%float; backoffMultiplier := 1.5%float |};
         timeout := 10000; enabled := true |}
  | KRAKEN =>
      {| name := KRAKEN; displayName := "Kraken"; priority := 3;
         requiresApiKey := false;
         rateLimit := {| requestsPerMinute := 60; requestsPerSecond := Some 1 |};
         retry := {| maxRetries := 5; minDelayMs := 1000%float;
                     maxDelayMs := 5000%float; backoffMultiplier := 1.5%float |};
         timeout := 15000; enabled := true |}
  | CRYPTOCOMPARE =>
      {| name := CRYPTOCOMPARE; displayName := "CryptoCompare"; priority := 4;
         requiresApiKey := false;
         rateLimit := {| requestsPerMinute := 100; requestsPerSecond := Some 2 |};
         retry := {| maxRetries := 5; minDelayMs := 1000%float;
                     maxDelayMs := 5000%float; backoffMultiplier := 1.5%float |};
         timeout := 15000; enabled := true |}
  | COINBASE =>
      {| name := COINBASE; displayName := "Coinbase"; priority := 5;
         requiresApiKey := false;
         rateLimit := {| requestsPerMinute := 100; requestsPerSecond := Some 2 |};
         retry := {| maxRetries := 5; minDelayMs := 1000%float;
                     maxDelayMs := 5000%float; backoffMultiplier := 1.5%float |};
         timeout := 15000; enabled := true |}
  end.

Definition getProviderConfig (provider : PriceProvider) : ProviderConfig :=
  PRICE_PROVIDERS_CONFIG provider.

(** *** Provider health tracking *)

Record ProviderHealth : Type := {
  lastSuccess : Z;
  consecutiveFailures : Z;
  isHealthy : bool
}.

Definition PriceProvider_eqb (a b : PriceProvider) : bool :=
  match a, b with
  | COINGECKO, COINGECKO | BINANCE, BINANCE | KRAKEN, KRAKEN
  | CRYPTOCOMPARE, CRYPTOCOMPARE | COINBASE, COINBASE => true
  | _, _ => false
  end.

(** The [providerHealth] map: the record of each provider that has one. *)
Definition HealthMap : Type := PriceProvider -> option ProviderHealth.

Definition noHealthData : HealthMap := fun _ => None.

Definition providerHealth_set (m : HealthMap) (provider : PriceProvider)
    (health : ProviderHealth) : HealthMap :=
  fun p => if PriceProvider_eqb p provider then Some health else m p.

(** [updateProviderHealth]; [now] is what [Date.now()] returns, read in the
    success branch only. *)
Definition updateProviderHealth (providerHealth : HealthMap)
    (provider : PriceProvider) (success : bool) (now : Z) : HealthMap :=
  let health :=
    match providerHealth provider with
    | Some h => h
    | None => {| lastSuccess := 0; consecutiveFailures := 0; isHealthy := true |}
    end in
  let health :=
    if success then
      {| lastSuccess := now; consecutiveFailures := 0; isHealthy := true |}
    else
      let failures := consecutiveFailures health + 1 in
      {| lastSuccess := lastSuccess health;
         consecutiveFailures := failures;
         isHealthy := failures <? 3 |} in
  providerHealth_set providerHealth provider health.

Definition isProviderHealthy (providerHealth : HealthMap)
    (provider : PriceProvider) (now : Z) : bool :=
  match providerHealth provider with
  | None => true
  | Some health =>
      let fiveMinutesAgo := now - 5 * 60 * 1000 in
      if (lastSuccess health <? fiveMinutesAgo) && (0 <? consecutiveFailures health)
      then false
      else isHealthy health
  end.

(** [k] failures in a row reported for [provider]. *)
Fixpoint failures (k : nat) (providerHealth : HealthMap) (provider : PriceProvider)
    (now : Z) : HealthMap :=
  match k with
  | O => providerHealth
  | S k' => failures k' (updateProviderHealth providerHealth provider false now)
              provider now
  end.

End PriceProvidersConfig.

(** ** [src/lib/utils/price-fetcher.ts] *)
Module PriceFetcher.
Import JS Exn PriceService ApiRetry.
Local Open Scope float_scope.

(** What [fetch] resolves to: [response.ok], [response.status] and the
    outcome of [response.json()]. *)
Record Response (Data : Type) : Type := {
  ok : bool;
  response_code : Z;
  json : result exn Data
}.
Arguments ok {Data} _.
Arguments response_code {Data} _.
Arguments json {Data} _.

Record PriceFetchOptions (Data : Type) : Type := {
  provider : PriceProvider;
  url : string;
  headers : list (string * string);
  parseResponse : Data -> result exn (option float);
  cacheKey : option string;
  cacheSeconds : option Z;
  onRetry : option (Z -> exn -> float -> result exn unit)
}.
Arguments provider {Data} _.
Arguments url {Data} _.
Arguments headers {Data} _.
Arguments parseResponse {Data} _.
Arguments cacheKey {Data} _.
Arguments cacheSeconds {Data} _.
Arguments onRetry {Data} _.

Section Fetch.
Context {Data : Type}.
(** [fetch] at its call number [i], for a URL, request headers (later
    entries override earlier ones, as in the object spread) and a timeout:
    it resolves to a response or rejects.  [Math.pow] and the stream of
    [Math.random()] are those of [withRetry]. *)
Variable fetch : nat -> string -> list (string * string) -> Z
                 -> result exn (Response Data).
Variable Math_pow : float -> Z -> float.
Variable random : nat -> float.

(** The operation [fetchPriceInternal] hands to [withRetry]. *)
Definition request (options : PriceFetchOptions Data)
    (config : PriceProvidersConfig.ProviderConfig) (i : nat)
  : result exn (option float) :=
  bind (fetch i (url options)
          (("Content-Type", "application/json")%string :: headers options)
          (PriceProvidersConfig.timeout config))
    (fun response =>
  if negb (ok response) then
    Throw (Obj {| status := Some (response_code response);
                  statusCode := None;
                  response_status := None;
                  message :=
                    Some (PriceProvidersConfig.displayName config
                          ++ " API error: "
                          ++ BigInt_toString (response_code response)
                          ++ ". URL: " ++ url options)%string |})
  else
    bind (json response) (fun data =>
    bind (parseResponse options data) (fun price =>
    match price with
    | None => Ok None
    | Some price => if price <=? 0 then Ok None else Ok (Some price)
    end))).

(** The default observer only writes a log line. *)
Definition defaultOnRetry (attempt : Z) (error : exn) (delay : float)
  : result exn unit := Ok tt.

Definition retryConfig (options : PriceFetchOptions Data)
    (config : PriceProvidersConfig.ProviderConfig) : RetryConfig :=
  let retry := PriceProvidersConfig.retry config in
  {| ApiRetry.maxRetries := PriceProvidersConfig.maxRetries retry;
     ApiRetry.minRetryDelayMs := PriceProvidersConfig.minDelayMs retry;
     ApiRetry.maxRetryDelayMs := PriceProvidersConfig.maxDelayMs retry;
     ApiRetry.backoffMultiplier := PriceProvidersConfig.backoffMultiplier retry;
     ApiRetry.onRetry :=
       Some (match onRetry options with
             | Some callback => callback
             | None => defaultOnRetry
             end) |}.

Definition fetchPriceInternal (options : PriceFetchOptions Data) (w : world)
  : result exn (option float) * world :=
  let config := PriceProvidersConfig.getProviderConfig (provider options) in
  withRetry Math_pow (request options config) random (retryConfig options config) w.

End Fetch.

(** A server that answers every request with the same response, and
    options for a body that is the price itself; used to run the definitions
    on concrete inputs. *)
Definition answering {Data : Type} (response : Response Data)
  : nat -> string -> list (string * string) -> Z -> result exn (Response Data) :=
  fun _ _ _ _ => Ok response.

Definition bodyIsPrice (provider : PriceProvider) (url : string)
  : PriceFetchOptions float :=
  {| provider := provider; url := url; headers := [];
     parseResponse := fun data => Ok (Some data);
     cacheKey := None; cacheSeconds := None; onRetry := None |}.

End PriceFetcher.

(** ** [src/app/api/trades/validate-fee/route.ts] *)
Module ValidateFeeRoute.
Import JS Exn EscrowCore.
Local Open Scope string_scope.

(** [session.user.walletAddress] *)
Record Session : Type := {
  walletAddress : option string
}.

(** The fields the handler reads from the request body; [None] is
    [undefined]. *)
Record Body : Type := {
  amount : option string_or_number;
  chainId : option float;
  userAddress : option string;
  clientFee : option float
}.

(** The JSON of a reply and its HTTP status. *)
Record Reply : Type := {
  status : Z;
  success : bool;
  isValid : option bool;
  error : option string;
  message : option string;
  details : option string;
  correctFee : option FeeCalculation;
  providedFee : option float
}.

Definition reply (status : Z) (success : bool) : Reply :=
  {| status := status; success := success; isValid := None; error := None;
     message := None; details := None; correctFee := None; providedFee := None |}.

(** A number is truthy when it is neither NaN nor a zero, a string when it
    is not empty. *)
Definition truthyNumber (x : float) : bool :=
  negb (PrimFloat.is_nan x || PrimFloat.eqb x 0).

Definition truthyAmount (a : option string_or_number) : bool :=
  match a with
  | Some (OfString s) => negb (s =? "")
  | Some (OfNumber x) => truthyNumber x
  | None => false
  end.

(** [a || b] on optional strings. *)
Definition orString (a b : option string) : option string :=
  match a with
  | Some s => if s =? "" then b else a
  | None => b
  end.

Definition truthyString (a : option string) : bool :=
  match a with
  | Some s => negb (s =? "")
  | None => false
  end.

Section Handler.
(** [getSession] and [request.json()] can fail; [new EscrowCoreService]
    gives the instance and its [contractAddress], or throws. *)
Variable getSession : result exn (option Session).
Variable request_json : result exn Body.
Variable newEscrowCoreService : float -> result exn (EscrowCoreService * option string).

(** The [try] block of the handler. *)
Definition handle : result exn Reply :=
  bind getSession (fun session =>
  match session with
  | None =>
      Ok {| status := 401; success := false; isValid := None;
            error := Some "Unauthorized"; message := None; details := None;
            correctFee := None; providedFee := None |}
  | Some session =>
      bind request_json (fun body =>
      match amount body, chainId body, clientFee body with
      | Some amountField, Some chainIdField, Some clientFeeField =>
          if negb (truthyAmount (amount body)) || negb (truthyNumber chainIdField) then
            Ok {| status := 400; success := false; isValid := None;
                  error := Some "Missing required fields: amount, chainId, and clientFee";
                  message := None; details := None;
                  correctFee := None; providedFee := None |}
          else
            let address := orString (userAddress body) (walletAddress session) in
            match address with
            | Some addressText =>
                if addressText =? "" then
                  Ok {| status := 400; success := false; isValid := None;
                        error := Some "No wallet address available";
                        message := None; details := None;
                        correctFee := None; providedFee := None |}
                else
                  bind (newEscrowCoreService chainIdField)
                    (fun '(escrowService, contractAddress) =>
                  if negb (truthyString contractAddress) then
                    Ok {| status := 400; success := false; isValid := None;
                          error := Some "Service not available for this chain";
                          message := None; details := None;
                          correctFee := None; providedFee := None |}
                  else
                    bind (validateClientFee escrowService addressText amountField
                            clientFeeField) (fun valid =>
                    if negb valid then
                      bind (calculateUserFee escrowService addressText amountField)
                        (fun fee =>
                      Ok {| status := 200; success := false; isValid := Some false;
                            error := Some "Invalid fee amount";
                            message := None; details := None;
                            correctFee := Some fee;
                            providedFee := Some clientFeeField |})
                    else
                      Ok {| status := 200; success := true; isValid := Some true;
                            error := None;
                            message := Some "Fee validation successful";
                            details := None;
                            correctFee := None; providedFee := None |}))
            | None =>
                Ok {| status := 400; success := false; isValid := None;
                      error := Some "No wallet address available";
                      message := None; details := None;
                      correctFee := None; providedFee := None |}
            end
      | _, _, _ =>
          Ok {| status := 400; success := false; isValid := None;
                error := Some "Missing required fields: amount, chainId, and clientFee";
                message := None; details := None;
                correctFee := None; providedFee := None |}
      end)
  end).

(** [POST]: the [try] block, and the [catch] that answers 500. *)
Definition POST : Reply :=
  match handle with
  | Ok r => r
  | Throw error =>
      {| status := 500; success := false; isValid := None;
         error := Some (match error with
                        | Obj {| Exn.message := Some m |} => m
                        | _ => "Failed to validate fee"
                        end);
         message := None;
         details :=
           Some "Unable to validate fee against blockchain. Please ensure contracts are deployed.";
         correctFee := None; providedFee := None |}
  end.

(** The request gets as far as the fee check: there is a session, the
    three fields are present, a wallet address is known and the service of the
    chain has a contract address. *)
Definition reaches (session : Session) (body : Body)
    (amountField : string_or_number) (chainIdField clientFeeField : float)
    (addressText : string) (escrowService : EscrowCoreService)
    (contractAddress : option string) : Prop :=
  getSession = Ok (Some session)
  /\ request_json = Ok body
  /\ amount body = Some amountField /\ truthyAmount (amount body) = true
  /\ chainId body = Some chainIdField /\ truthyNumber chainIdField = true
  /\ clientFee body = Some clientFeeField
  /\ orString (userAddress body) (walletAddress session) = Some addressText
  /\ addressText <> ""
  /\ newEscrowCoreService chainIdField = Ok (escrowService, contractAddress)
  /\ truthyString contractAddress = true.

End Handler.

End ValidateFeeRoute.

(** ** The cache of token decimals in [src/lib/utils/token-helpers.ts] *)
Module TokenDecimalsCache.
Import JS Exn.
Local Open Scope Z_scope.

Section Cache.
(** The decimals are a [number] the cache only stores. *)
Context {Decimals : Type}.

Record CacheEntry : Type := {
  decimals : Decimals;
  timestamp : Z
}.

(** [tokenInfoCache]: the entry of each key that has one. *)
Definition TokenInfoCache : Type := string -> option CacheEntry.

Definition tokenInfoCache_set (m : TokenInfoCache) (key : string) (entry : CacheEntry)
  : TokenInfoCache :=
  fun k => if String.eqb k key then Some entry else m k.

Definition CACHE_DURATION : Z := 5 * 60 * 1000.

(** The module state, with the number of calls of [getTokenDecimals] and
    of readings of the clock so far. *)
Record state : Type := {
  tokenInfoCache : TokenInfoCache;
  lookups : nat;
  readings : nat
}.

(** [getTokenDecimals] asks a token list service and never throws; its
    answer at its call number [i] is a parameter, and so is the value of
    [Date.now()] at its reading number [j]. *)
Variable getTokenDecimals : nat -> string -> string -> Decimals.
Variable Date_now : nat -> Z.

Definition cacheKeyOf (tokenAddress chainId : string) : string :=
  (chainId ++ ":" ++ toLowerCase tokenAddress)%string.

Definition refresh (tokenAddress chainId : string) (s : state) : Decimals * state :=
  let cacheKey := cacheKeyOf tokenAddress chainId in
  let decimals := getTokenDecimals (lookups s) tokenAddress chainId in
  let now := Date_now (readings s) in
  (decimals,
   {| tokenInfoCache :=
        tokenInfoCache_set (tokenInfoCache s) cacheKey
          {| decimals := decimals; timestamp := now |};
      lookups := S (lookups s);
      readings := S (readings s) |}).

Definition getCachedTokenDecimals (tokenAddress chainId : string) (s : state)
  : Decimals * state :=
  let cacheKey := cacheKeyOf tokenAddress chainId in
  match tokenInfoCache s cacheKey with
  | Some cached =>
      let now := Date_now (readings s) in
      let s := {| tokenInfoCache := tokenInfoCache s;
                  lookups := lookups s;
                  readings := S (readings s) |} in
      if now - timestamp cached <? CACHE_DURATION then (decimals cached, s)
      else refresh tokenAddress chainId s
  | None => refresh tokenAddress chainId s
  end.

End Cache.

Arguments CacheEntry Decimals : clear implicits.
Arguments TokenInfoCache Decimals : clear implicits.
Arguments state Decimals : clear implicits.

End TokenDecimalsCache.

(** ** Transaction configs and receipts, from
    [src/services/blockchain/base-contract-client.service.ts] and
    [src/services/blockchain/escrow-core.service.ts] *)
Module EscrowTransactions.
Import JS Exn TokenHelpers.
Local Open Scope string_scope.

(** A value handed to a contract call (the elements of [any[]]). *)
Inductive value : Type :=
| VUndefined
| VString (s : string)
| VBigInt (z : Z)
| VBool (b : bool)
| VStrings (l : list string)
| VBigInts (l : list Z).

(** The [params] object of [prepareEscrowParams], which is cast to the
    interface of the method: each field is present or [undefined]. *)
Record Params : Type := {
  seller : option string;
  amount : option string;
  disputeWindow : option float;
  metadata : option string;
  autoFund : option bool;
  escrowId : option float;
  reason : option string;
  refundBuyer : option bool;
  buyerAmount : option Z;
  sellerAmount : option Z;
  sellers : option (list string);
  amounts : option (list string);
  disputeWindows : option (list float);
  metadatas : option (list string)
}.

Definition noParams : Params :=
  {| seller := None; amount := None; disputeWindow := None; metadata := None;
     autoFund := None; escrowId := None; reason := None; refundBuyer := None;
     buyerAmount := None; sellerAmount := None; sellers := None; amounts := None;
     disputeWindows := None; metadatas := None |}.

(** [BigInt(x)] for a field that may be [undefined]. *)
Definition BigIntOf {A : Type} (convert : A -> result exn Z) (x : option A)
  : result exn Z :=
  match x with
  | Some a => convert a
  | None => Throw (Error "TypeError: Cannot convert undefined to a BigInt")
  end.

Definition field {A : Type} (inject : A -> value) (x : option A) : value :=
  match x with
  | Some a => inject a
  | None => VUndefined
  end.

(** [xs.map(f)] for an [f] that may throw: the elements are converted in
    order, up to the first that throws. *)
Fixpoint mapM {A B : Type} (f : A -> result exn B) (xs : list A)
  : result exn (list B) :=
  match xs with
  | [] => Ok []
  | x :: rest => bind (f x) (fun y => bind (mapM f rest) (fun ys => Ok (y :: ys)))
  end.

(** An array field that is read with [.map] or [.reduce]: a TypeError when
    it is [undefined]. *)
Definition arrayOf (xs : option (list string)) : result exn (list string) :=
  match xs with
  | Some l => Ok l
  | None => Throw (Error "TypeError: Cannot read properties of undefined")
  end.

Definition prepareEscrowParams (method : string) (params : Params)
  : result exn (list value) :=
  if method =? "createEscrow" then
    let sellerArg := field VString (seller params) in
    bind (BigIntOf BigIntS (amount params)) (fun amountArg =>
    bind (BigIntN (match disputeWindow params with
                   | Some w => if truthy w then w else 86400%float
                   | None => 86400%float
                   end)) (fun windowArg =>
    Ok [sellerArg; VBigInt amountArg; VBigInt windowArg;
        VString (match metadata params with
                 | Some m => m
                 | None => ""
                 end)]))
  else if (method =? "fundEscrow") || (method =? "markDelivered")
          || (method =? "confirmDelivery") || (method =? "cancelEscrow") then
    bind (BigIntOf BigIntN (escrowId params)) (fun id => Ok [VBigInt id])
  else if method =? "raiseDispute" then
    bind (BigIntOf BigIntN (escrowId params)) (fun id =>
    Ok [VBigInt id; field VString (reason params)])
  else if method =? "resolveDispute" then
    bind (BigIntOf BigIntN (escrowId params)) (fun id =>
    Ok [VBigInt id; field VBool (refundBuyer params);
        field VBigInt (buyerAmount params); field VBigInt (sellerAmount params)])
  else if method =? "batchCreateEscrows" then
    bind (arrayOf (sellers params)) (fun sellerList =>
    bind (arrayOf (amounts params)) (fun amountList =>
    bind (mapM BigIntS amountList) (fun amountArgs =>
    bind (match disputeWindows params with
          | Some ws => mapM BigIntN ws
          | None => Ok []
          end) (fun windowArgs =>
    Ok [VStrings sellerList;
        VBigInts amountArgs;
        VBigInts windowArgs;
        VStrings (match metadatas params with
                  | Some ms => ms
                  | None => []
                  end)]))))
  else Throw (Error ("Unknown EscrowCore method: " ++ method)).

Record TransactionConfig (Abi : Type) : Type := {
  address : string;
  abi : Abi;
  functionName : string;
  args : list value;
  value_sent : option Z;
  chainId : Z
}.
Arguments address {Abi} _.
Arguments abi {Abi} _.
Arguments functionName {Abi} _.
Arguments args {Abi} _.
Arguments value_sent {Abi} _.
Arguments chainId {Abi} _.

(** The fields of the service instance that the configs read. *)
Record ContractClient (Abi : Type) : Type := {
  this_contractAddress : string;
  this_abi : Abi;
  this_chainId : Z
}.
Arguments this_contractAddress {Abi} _.
Arguments this_abi {Abi} _.
Arguments this_chainId {Abi} _.

Section Client.
Context {Abi : Type}.
Variable this : ContractClient Abi.

Definition getTransactionConfig (functionName : string) (args : list value)
    (value : option Z) : TransactionConfig Abi :=
  {| address := this_contractAddress this;
     abi := this_abi this;
     functionName := functionName;
     args := args;
     value_sent := value;
     chainId := this_chainId this |}.

Definition getCreateEscrowConfig (params : Params)
  : result exn (TransactionConfig Abi) :=
  bind (prepareEscrowParams "createEscrow" params) (fun args =>
  bind (match autoFund params with
        | Some true => BigIntOf BigIntS (amount params)
        | _ => Ok 0%Z
        end) (fun value =>
  Ok (getTransactionConfig "createEscrow" args (Some value)))).

Definition getFundEscrowConfig (escrowId : float) (amount : string)
  : result exn (TransactionConfig Abi) :=
  bind (prepareEscrowParams "fundEscrow"
          {| seller := None; amount := None; disputeWindow := None; metadata := None;
             autoFund := None; escrowId := Some escrowId; reason := None;
             refundBuyer := None; buyerAmount := None; sellerAmount := None;
             sellers := None; amounts := None; disputeWindows := None;
             metadatas := None |}) (fun args =>
  bind (BigIntS amount) (fun value =>
  Ok (getTransactionConfig "fundEscrow" args (Some value)))).

(** [amounts.reduce((sum, amount) => sum + BigInt(amount), BigInt(0))] *)
Fixpoint sumAmounts (sum : Z) (amountList : list string) : result exn Z :=
  match amountList with
  | [] => Ok sum
  | amount :: rest => bind (BigIntS amount) (fun a => sumAmounts (sum + a) rest)
  end.

Definition getBatchCreateEscrowsConfig (params : Params)
  : result exn (TransactionConfig Abi) :=
  bind (prepareEscrowParams "batchCreateEscrows" params) (fun args =>
  bind (arrayOf (amounts params)) (fun amountList =>
  bind (sumAmounts 0 amountList) (fun totalValue =>
  Ok (getTransactionConfig "batchCreateEscrows" args (Some totalValue))))).

End Client.

(** *** [getEscrowIdFromReceipt] *)

Record Log : Type := {
  data : string;
  topics : list string
}.

(** What [parseLog] of the contract interface gives for a log: the event
    name, and [args] (absent, or with or without an [escrowId]). *)
Record LogDescription : Type := {
  event_name : string;
  event_args : option (option Z)
}.

Section Receipt.
(** [parseLog] is the interface's parser; [getPublicClient] gives the
    client of a chain, if any, and [getTransactionReceipt] the logs of a
    transaction; each can fail. *)
Variable parseLog : Log -> result exn (option LogDescription).
Variable getPublicClient : Z -> result exn (option (string -> result exn (list Log))).

(** [decodeEventLog] of the base class: [null] when parsing throws. *)
Definition decodeEventLog (log : Log) : option LogDescription :=
  match parseLog {| topics := topics log; data := data log |} with
  | Ok d => d
  | Throw _ => None
  end.

(** The [for ... of receipt.logs] loop. *)
Fixpoint firstEscrowCreated (logs : list Log) : option float :=
  match logs with
  | [] => None
  | log :: rest =>
      match decodeEventLog {| data := data log; topics := topics log |} with
      | Some decodedLog =>
          if event_name decodedLog =? "EscrowCreated" then
            match event_args decodedLog with
            | Some args =>
                Some (match args with
                      | Some escrowId => Number_of_BigInt escrowId
                      | None => PrimFloat.nan
                      end)
            | None => firstEscrowCreated rest
            end
          else firstEscrowCreated rest
      | None => firstEscrowCreated rest
      end
  end.

Definition getEscrowIdFromReceipt (this_chainId : Z) (txHash : string)
    (chainId : option Z) : option float :=
  let effectiveChainId :=
    match chainId with
    | Some c => if (c =? 0)%Z then this_chainId else c
    | None => this_chainId
    end in
  match getPublicClient effectiveChainId with
  | Ok (Some getTransactionReceipt) =>
      match getTransactionReceipt txHash with
      | Ok logs => firstEscrowCreated logs
      | Throw _ => None
      end
  | Ok None => None
  | Throw _ => None
  end.

End Receipt.

End EscrowTransactions.

(** ** Values of binary64 floats as integers *)
Module Dyadic.

(** The exponent the binary64 format gives to a value of magnitude [e]. *)
Abbreviation fexp64 := (SpecFloat.fexp prec emax).

(** The value [m * 2^e] in units of [2^-2200]: an integer for every
    finite float and for the exact sums and products of two of them. *)
Definition scaled (m e : Z) : Z := (m * 2 ^ (e + 2200))%Z.

(** [x] is a zero or a positive finite float, of value [v * 2^-2200]. *)
Definition fin_val (x : spec_float) (v : Z) : Prop :=
  (exists s, x = S754_zero s /\ v = 0%Z)
  \/ (exists m e, x = S754_finite false m e
                  /\ bounded prec emax m e = true
                  /\ v = scaled (Z.pos m) e).

(** The value of a finite float, as the integer [value * 2^2200]; none
    for the infinities and NaN. *)
Definition dyadic (x : spec_float) : option Z :=
  match x with
  | S754_zero _ => Some 0%Z
  | S754_finite s m e => Some (cond_Zopp s (scaled (Z.pos m) e))
  | _ => None
  end.



End Dyadic.

(** * Properties *)

(** ** Rounding to binary64, from [SpecFloat] *)
Module Binary64.
Import Dyadic.
Local Open Scope Z_scope.

Lemma fexp64_eq e : fexp64 e = Z.max (e - 53) (-1074).
Proof. reflexivity. Qed.

Lemma digits2_pos_size p : digits2_pos p = Pos.size p.
Proof. induction p; simpl; congruence. Qed.

Lemma Zdigits2_log2 m : 0 < m -> Zdigits2 m = Z.log2 m + 1.
Proof.
  intros Hm. destruct m as [|p|p]; try lia.
  simpl Zdigits2. rewrite digits2_pos_size.
  symmetry. apply Z.add_move_r. apply Z.log2_unique.
  - pose proof (Pos2Z.is_pos (Pos.size p)). lia.
  - pose proof (Pos.size_gt p) as Hgt. pose proof (Pos.size_le p) as Hle.
    apply Pos2Z.pos_lt_pos in Hgt. apply Pos2Z.pos_le_pos in Hle.
    rewrite Pos2Z.inj_pow in Hgt, Hle.
    change (Z.pos p~0) with (2 * Z.pos p) in Hle.
    set (k := Z.pos (Pos.size p)) in *.
    assert (Hk : 2 ^ k = 2 * 2 ^ (k - 1)).
    { rewrite <- Z.pow_succ_r by (subst k; lia). f_equal. lia. }
    replace (Z.succ (k - 1)) with k by lia. lia.
Qed.

Lemma iter_pos_nat {A} (f : A -> A) p x :
  iter_pos f p x = Nat.iter (Pos.to_nat p) f x.
Proof.
  revert x. induction p as [p IH|p IH|]; intros x; cbn [iter_pos].
  - rewrite !IH, Pos2Nat.inj_xI.
    replace (S (2 * Pos.to_nat p))%nat with (Pos.to_nat p + (Pos.to_nat p + 1))%nat by lia.
    rewrite !Nat.iter_add. reflexivity.
  - rewrite !IH, Pos2Nat.inj_xO.
    replace (2 * Pos.to_nat p)%nat with (Pos.to_nat p + Pos.to_nat p)%nat by lia.
    rewrite Nat.iter_add. reflexivity.
  - reflexivity.
Qed.

Lemma shr_1_nonneg m r s :
  0 <= m ->
  shr_1 (Build_shr_record m r s) = Build_shr_record (m / 2) (Z.odd m) (r || s).
Proof.
  intros Hm. destruct m as [|[p|p|]|]; try lia; cbn [shr_1].
  - reflexivity.
  - f_equal. apply Z.div_unique with 1; lia.
  - f_equal. apply Z.div_unique with 0; lia.
  - reflexivity.
Qed.

(** [n] right shifts of a non-negative mantissa divide it by [2^n]; the
    two bits record whether anything was shifted out. *)
Lemma shr_iter m n :
  0 <= m ->
  let mrs := Nat.iter n shr_1 (Build_shr_record m false false) in
  shr_m mrs = m / 2 ^ Z.of_nat n
  /\ (shr_r mrs || shr_s mrs = negb (m mod 2 ^ Z.of_nat n =? 0)).
Proof.
  intros Hm. induction n as [|n IH].
  - cbn. rewrite Z.div_1_r, Z.mod_1_r. auto.
  - cbn zeta in *. rewrite Nat.iter_succ.
    destruct (Nat.iter n shr_1 _) as [q r s]. cbn [shr_m shr_r shr_s] in IH.
    destruct IH as [Hq Hrs].
    assert (Hpow : 0 < 2 ^ Z.of_nat n) by (apply Z.pow_pos_nonneg; lia).
    assert (Hq0 : 0 <= q) by (subst q; apply Z.div_pos; lia).
    rewrite (shr_1_nonneg _ _ _ Hq0). cbn [shr_m shr_r shr_s].
    rewrite Nat2Z.inj_succ, Z.pow_succ_r by lia.
    split.
    + subst q. rewrite Z.div_div by lia. f_equal. lia.
    + rewrite Hrs.
      rewrite (Z.mul_comm 2), Z.rem_mul_r by lia.
      rewrite <- Hq.
      pose proof (Z.mod_pos_bound m (2 ^ Z.of_nat n) Hpow) as Hb.
      pose proof (Z.mod_pos_bound q 2 ltac:(lia)) as Hb2.
      rewrite Zodd_mod.
      destruct (Z.eqb_spec (q mod 2) 1) as [H1|H1];
        destruct (Z.eqb_spec (m mod 2 ^ Z.of_nat n) 0) as [H0|H0]; cbn;
        symmetry; try (apply negb_true_iff); try (apply negb_false_iff);
        try (apply Z.eqb_neq); try (apply Z.eqb_eq); nia.
Qed.

Lemma shr_spec m e n :
  0 <= m ->
  exists mrs,
    shr (Build_shr_record m false false) e n = (mrs, e + Z.max 0 n)
    /\ shr_m mrs = m / 2 ^ Z.max 0 n
    /\ shr_r mrs || shr_s mrs = negb (m mod 2 ^ Z.max 0 n =? 0).
Proof.
  intros Hm. destruct n as [|p|p]; cbn [shr].
  - eexists. rewrite Z.add_0_r. split; [reflexivity|].
    cbn. rewrite Z.div_1_r, Z.mod_1_r. auto.
  - rewrite iter_pos_nat.
    pose proof (shr_iter m (Pos.to_nat p) Hm) as H. cbn zeta in H.
    rewrite positive_nat_Z in H.
    eexists. rewrite Z.max_r by lia. split; [reflexivity|]. exact H.
  - eexists. rewrite Z.max_l by lia. rewrite Z.add_0_r. split; [reflexivity|].
    cbn. rewrite Z.div_1_r, Z.mod_1_r. auto.
Qed.

Lemma shr_fexp_spec m e :
  0 <= m ->
  let k := Z.max 0 (fexp64 (Zdigits2 m + e) - e) in
  exists mrs,
    shr_fexp prec emax m e loc_Exact = (mrs, e + k)
    /\ shr_m mrs = m / 2 ^ k
    /\ shr_r mrs || shr_s mrs = negb (m mod 2 ^ k =? 0).
Proof. intros Hm k. unfold shr_fexp. cbn [shr_record_of_loc]. now apply shr_spec. Qed.

(** Whatever the two bits of the record, [n] right shifts divide the
    mantissa by [2^n]. *)
Lemma shr_m_iter mrs n :
  0 <= shr_m mrs ->
  shr_m (Nat.iter n shr_1 mrs) = shr_m mrs / 2 ^ Z.of_nat n.
Proof.
  intros Hm. induction n as [|n IH].
  - cbn. now rewrite Z.div_1_r.
  - rewrite Nat.iter_succ.
    destruct (Nat.iter n shr_1 mrs) as [q r s]. cbn [shr_m] in IH.
    assert (Hpow : 0 < 2 ^ Z.of_nat n) by (apply Z.pow_pos_nonneg; lia).
    assert (Hq0 : 0 <= q) by (subst q; apply Z.div_pos; lia).
    rewrite (shr_1_nonneg _ _ _ Hq0). cbn [shr_m].
    rewrite Nat2Z.inj_succ, Z.pow_succ_r by lia.
    subst q. rewrite Z.div_div by lia. f_equal. lia.
Qed.

Lemma shr_m_spec mrs e n :
  0 <= shr_m mrs ->
  exists mrs',
    shr mrs e n = (mrs', e + Z.max 0 n)
    /\ shr_m mrs' = shr_m mrs / 2 ^ Z.max 0 n.
Proof.
  intros Hm. destruct n as [|p|p]; cbn [shr].
  - eexists. rewrite Z.add_0_r. split; [reflexivity|].
    cbn. now rewrite Z.div_1_r.
  - rewrite iter_pos_nat.
    pose proof (shr_m_iter mrs (Pos.to_nat p) Hm) as H.
    rewrite positive_nat_Z in H.
    eexists. rewrite Z.max_r by lia. split; [reflexivity|]. exact H.
  - eexists. rewrite Z.max_l by lia. rewrite Z.add_0_r. split; [reflexivity|].
    cbn. now rewrite Z.div_1_r.
Qed.

(** The first shift of rounding, from any location: the mantissa is
    divided; from an exact location the two bits tell whether anything was
    shifted out. *)
Lemma shr_fexp_loc m e l :
  0 <= m ->
  let k := Z.max 0 (fexp64 (Zdigits2 m + e) - e) in
  exists mrs,
    shr_fexp prec emax m e l = (mrs, e + k)
    /\ shr_m mrs = m / 2 ^ k
    /\ (l = loc_Exact -> shr_r mrs || shr_s mrs = negb (m mod 2 ^ k =? 0)).
Proof.
  intros Hm k.
  destruct (shr_fexp_spec m e Hm) as (mrs0 & Hs0 & Hq0 & Hfl0). fold k in Hs0, Hq0, Hfl0.
  destruct l as [|c].
  - exists mrs0. auto.
  - unfold shr_fexp.
    destruct (shr_m_spec (shr_record_of_loc m (loc_Inexact c)) e
                (fexp64 (Zdigits2 m + e) - e)) as (mrs & Hs & Hq).
    { now destruct c. }
    exists mrs. split; [exact Hs|]. split; [|discriminate].
    rewrite Hq. now destruct c.
Qed.

Lemma round_nearest_even_bounds mrs :
  let m1 := round_nearest_even (shr_m mrs) (loc_of_shr_record mrs) in
  shr_m mrs <= m1 <= shr_m mrs + 1
  /\ (shr_r mrs || shr_s mrs = false -> m1 = shr_m mrs).
Proof.
  destruct mrs as [q [|] [|]]; cbn; try destruct (Z.even q); split; try lia;
    intros; try discriminate; reflexivity.
Qed.

Lemma Zdigits2_0 : Zdigits2 0 = 0.
Proof. reflexivity. Qed.

Lemma pow2_pos k : 0 <= k -> 0 < 2 ^ k.
Proof. intros. apply Z.pow_pos_nonneg; lia. Qed.

Lemma log2_div_pow2 m n :
  0 <= n -> 2 ^ n <= m -> Z.log2 (m / 2 ^ n) = Z.log2 m - n.
Proof.
  intros Hn Hm. pose proof (pow2_pos n Hn).
  rewrite <- Z.shiftr_div_pow2 by lia.
  rewrite Z.log2_shiftr by lia.
  assert (n <= Z.log2 m) by (apply Z.log2_le_pow2; lia). lia.
Qed.

(** The result of rounding a positive mantissa [mx] at exponent [ex],
    with the location [lx] of the value above [mx * 2^ex], when it has at least
    as many digits as the format keeps: the mantissa kept is the quotient [q]
    or its successor. *)
Lemma binary_round_aux_loc sx mx ex lx :
  0 < mx ->
  ex <= fexp64 (Zdigits2 mx + ex) ->
  let e1 := fexp64 (Zdigits2 mx + ex) in
  let q := mx / 2 ^ (e1 - ex) in
  exists m1,
    q <= m1 <= q + 1
    /\ (lx = loc_Exact -> mx mod 2 ^ (e1 - ex) = 0 -> m1 = q)
    /\ ((m1 = 0 /\ binary_round_aux prec emax sx mx ex lx = S754_zero sx)
        \/ (971 <= e1 /\ 2 ^ 1024 <= m1 * 2 ^ e1
            /\ binary_round_aux prec emax sx mx ex lx = S754_infinity sx)
        \/ (exists m e,
              binary_round_aux prec emax sx mx ex lx = S754_finite sx m e
              /\ bounded prec emax m e = true
              /\ e1 <= e <= e1 + 1
              /\ Z.pos m * 2 ^ (e - e1) = m1)).
Proof.
  intros Hmx Hpre e1 q.
  unfold binary_round_aux.
  destruct (shr_fexp_loc mx ex lx ltac:(lia)) as (mrs' & Hs1 & Hq & Hfl).
  fold e1 in Hs1, Hq, Hfl.
  rewrite Z.max_r in Hs1, Hq, Hfl by lia.
  replace (ex + (e1 - ex)) with e1 in Hs1 by lia.
  rewrite Hs1.
  destruct (round_nearest_even_bounds mrs') as [Hb Hex]. cbn zeta in Hb, Hex.
  set (m1 := round_nearest_even (shr_m mrs') (loc_of_shr_record mrs')) in *.
  fold q in Hq. rewrite Hq in Hb, Hex.
  assert (Hn : 0 <= e1 - ex) by lia.
  pose proof (pow2_pos _ Hn) as Hpow.
  assert (Hq0 : 0 <= q) by (apply Z.div_pos; lia).
  exists m1. split; [exact Hb|]. split.
  { intros Hloc Hmod. apply Hex. rewrite (Hfl Hloc), Hmod. reflexivity. }
  destruct (shr_fexp_spec m1 e1 ltac:(lia)) as (mrs'' & Hs2 & Hq2 & _).
  cbn zeta in Hs2, Hq2.
  set (k2 := Z.max 0 (fexp64 (Zdigits2 m1 + e1) - e1)) in *.
  rewrite Hs2.
  destruct (Z.eq_dec m1 0) as [Hz|Hnz].
  { left. split; [exact Hz|]. rewrite Hq2, Hz, Z.div_0_l; [reflexivity|].
    apply Z.pow_nonzero; lia. }
  right.
  assert (Hm1 : 0 < m1) by lia.
  set (L := Z.log2 mx) in *.
  assert (HL : 0 <= L) by apply Z.log2_nonneg.
  assert (Hdm : Zdigits2 mx = L + 1) by (apply Zdigits2_log2; lia).
  assert (He1 : e1 = Z.max (L + 1 + ex - 53) (-1074)).
  { unfold e1. rewrite Hdm. reflexivity. }
  assert (Hmxb : 2 ^ L <= mx < 2 ^ (L + 1)).
  { pose proof (Z.log2_spec mx Hmx). fold L in H. replace (Z.succ L) with (L + 1) in H by lia. exact H. }
  set (L1 := Z.log2 m1) in *.
  assert (Hk2eq : k2 = Z.max 0 (Z.max (L1 + 1 + e1 - 53) (-1074) - e1)).
  { unfold k2. rewrite (Zdigits2_log2 m1 Hm1). reflexivity. }
  clearbody k2.
  (* the digits of the rounded mantissa *)
  assert (HL1 : (q = 0 /\ m1 = 1 /\ e1 = -1074 /\ L1 = 0)
                \/ (e1 - ex <= L /\ (L1 = L - (e1 - ex)
                    \/ (L1 = L - (e1 - ex) + 1 /\ m1 = 2 ^ L1)))).
  { destruct (Z_lt_le_dec L (e1 - ex)) as [Hlt|Hge].
    - left. assert (q = 0).
      { apply Z.div_small. split; [lia|].
        apply Z.lt_le_trans with (2 ^ (L + 1)); [lia|].
        apply Z.pow_le_mono_r; lia. }
      assert (m1 = 1) by lia. subst L1. rewrite H0. cbn. lia.
    - right. split; [lia|].
      assert (Hlq : Z.log2 q = L - (e1 - ex)).
      { apply log2_div_pow2; [lia|].
        apply Z.le_trans with (2 ^ L); [|lia]. apply Z.pow_le_mono_r; lia. }
      assert (Hq1 : 0 < q).
      { apply Z.div_str_pos. split; [lia|].
        apply Z.le_trans with (2 ^ L); [|lia]. apply Z.pow_le_mono_r; lia. }
      assert (Hqb : q + 1 <= 2 ^ (L - (e1 - ex) + 1)).
      { pose proof (Z.log2_spec q Hq1) as Hsp. rewrite Hlq in Hsp.
        replace (Z.succ (L - (e1 - ex))) with (L - (e1 - ex) + 1) in Hsp by lia. lia. }
      assert (Hle : Z.log2 q <= L1) by (apply Z.log2_le_mono; lia).
      destruct (Z.eq_dec m1 (2 ^ (L - (e1 - ex) + 1))) as [Heq|Hne].
      + right. subst L1. rewrite Heq, Z.log2_pow2 by lia. split; [reflexivity|].
        reflexivity.
      + left. assert (L1 < L - (e1 - ex) + 1); [|lia].
        apply Z.log2_lt_pow2; lia. }
  assert (Hk2 : k2 = 0 \/ (k2 = 1 /\ m1 = 2 ^ L1 /\ 1 <= L1)).
  { destruct HL1 as [(_ & _ & He & Hl)|(Hle & [Hl|(Hl & Hpw)])].
    - left. lia.
    - left. lia.
    - destruct (Z_le_dec (Z.max (L1 + 1 + e1 - 53) (-1074)) e1); [left; lia|].
      right. split; [lia|]. split; [exact Hpw|lia]. }
  destruct Hk2 as [Hk|(Hk & Hpw & HL1pos)]; rewrite Hk in *.
  - rewrite Z.add_0_r in *. rewrite Z.pow_0_r, Z.div_1_r in Hq2.
    rewrite Hq2. destruct m1 as [|p|p] eqn:Hp; try lia.
    destruct (Z.leb_spec e1 (emax - prec)) as [Hle|Hgt].
    + right. exists p, e1. split; [reflexivity|].
      split.
      { unfold bounded, canonical_mantissa. apply andb_true_iff. split.
        - apply Z.eqb_eq. change (Z.pos (digits2_pos p)) with (Zdigits2 (Z.pos p)).
          rewrite Zdigits2_log2 by lia. fold L1. rewrite fexp64_eq.
          clear - Hk2eq He1 HL1. clearbody e1 L L1.
          change IntDef.Z.add with Z.add.
          destruct HL1 as [(_ & _ & He & Hl)|(Hle' & [Hl|(Hl & _)])]; lia.
        - apply Z.leb_le. exact Hle. }
      split; [lia|]. rewrite Z.sub_diag. lia.
    + left. change (emax - prec) with 971 in Hgt.
      split; [lia|]. split; [|reflexivity].
      assert (HL52 : L1 = 52).
      { clear - Hk2eq He1 HL1 Hgt. clearbody e1 L L1.
        destruct HL1 as [(_ & _ & He & Hl)|(Hle' & [Hl|(Hl & _)])]; lia. }
      pose proof (Z.log2_spec (Z.pos p) ltac:(lia)) as Hsp. fold L1 in Hsp.
      rewrite HL52 in Hsp.
      replace 1024 with (52 + 972) by reflexivity. rewrite Z.pow_add_r by lia.
      apply Z.mul_le_mono_nonneg; try lia.
      apply Z.pow_le_mono_r; lia.
  - rewrite Z.pow_1_r in Hq2.
    assert (Hhalf : m1 / 2 = 2 ^ (L1 - 1)).
    { rewrite Hpw. replace L1 with (Z.succ (L1 - 1)) at 1 by lia.
      rewrite Z.pow_succ_r by lia. rewrite Z.mul_comm, Z.div_mul by lia. reflexivity. }
    rewrite Hhalf in Hq2. rewrite Hq2.
    pose proof (pow2_pos (L1 - 1) ltac:(lia)) as Hpp.
    destruct (2 ^ (L1 - 1)) as [|p|p] eqn:Hp; try lia.
    destruct (Z.leb_spec (e1 + 1) (emax - prec)) as [Hle|Hgt].
    + right. exists p, (e1 + 1). split; [reflexivity|].
      split.
      { unfold bounded, canonical_mantissa. apply andb_true_iff. split.
        - apply Z.eqb_eq. change (Z.pos (digits2_pos p)) with (Zdigits2 (Z.pos p)).
          rewrite Zdigits2_log2 by lia. rewrite <- Hp, Z.log2_pow2 by lia.
          rewrite fexp64_eq. lia.
        - apply Z.leb_le. exact Hle. }
      split; [lia|]. replace (e1 + 1 - e1) with 1 by lia.
      rewrite Z.pow_1_r, <- Hp, Hpw.
      replace L1 with (Z.succ (L1 - 1)) at 2 by lia.
      rewrite Z.pow_succ_r by lia. lia.
    + left. change (emax - prec) with 971 in Hgt.
      split; [lia|]. split; [|reflexivity].
      assert (HL53 : L1 = 53).
      { clear - Hk2eq Hgt HL1pos. clearbody e1 L1. lia. }
      rewrite Hpw, HL53.
      replace 1024 with (53 + 971) by reflexivity. rewrite Z.pow_add_r by lia.
      apply Z.mul_le_mono_nonneg; try lia.
      apply Z.pow_le_mono_r; lia.
Qed.

(** The result of rounding an exact positive value [mx * 2^ex] that
    has at least as many digits as the format keeps. *)
Lemma binary_round_aux_exact sx mx ex :
  0 < mx ->
  ex <= fexp64 (Zdigits2 mx + ex) ->
  let e1 := fexp64 (Zdigits2 mx + ex) in
  let q := mx / 2 ^ (e1 - ex) in
  exists m1,
    q <= m1 <= q + 1
    /\ (mx mod 2 ^ (e1 - ex) = 0 -> m1 = q)
    /\ ((m1 = 0 /\ binary_round_aux prec emax sx mx ex loc_Exact = S754_zero sx)
        \/ (971 <= e1 /\ 2 ^ 1024 <= m1 * 2 ^ e1
            /\ binary_round_aux prec emax sx mx ex loc_Exact = S754_infinity sx)
        \/ (exists m e,
              binary_round_aux prec emax sx mx ex loc_Exact = S754_finite sx m e
              /\ bounded prec emax m e = true
              /\ e1 <= e <= e1 + 1
              /\ Z.pos m * 2 ^ (e - e1) = m1)).
Proof.
  intros Hmx Hpre e1 q.
  destruct (binary_round_aux_loc sx mx ex loc_Exact Hmx Hpre) as (m1 & Hb & Hex & Hres).
  exists m1. split; [exact Hb|]. split; [now apply Hex|exact Hres].
Qed.

Lemma pos_iter_xO m d : Z.pos (Pos.iter xO m d) = Z.pos m * 2 ^ Z.pos d.
Proof.
  induction d as [|d IH] using Pos.peano_ind.
  - cbn. lia.
  - rewrite Pos.iter_succ, Pos2Z.inj_succ, Z.pow_succ_r by lia.
    change (Z.pos (Pos.iter xO m d)~0) with (2 * Z.pos (Pos.iter xO m d)).
    rewrite IH. lia.
Qed.

Lemma shl_align_spec mx ex ex' :
  let '(mz, ez) := shl_align mx ex ex' in
  ez = Z.min ex ex' /\ Z.pos mz = Z.pos mx * 2 ^ (ex - ez).
Proof.
  unfold shl_align. destruct (ex' - ex) as [|d|d] eqn:Hd.
  - split; [lia|]. rewrite Z.sub_diag. lia.
  - split; [lia|]. rewrite Z.sub_diag. lia.
  - split; [lia|]. rewrite pos_iter_xO. f_equal. f_equal. lia.
Qed.

Lemma Zdigits2_mul_pow2 m k :
  0 < m -> 0 <= k -> Zdigits2 (m * 2 ^ k) = Zdigits2 m + k.
Proof.
  intros Hm Hk. pose proof (pow2_pos k Hk).
  rewrite !Zdigits2_log2 by nia. rewrite Z.log2_mul_pow2 by lia. lia.
Qed.

(** Rounding the exact positive value [mx * 2^ex]: its mantissa is first
    aligned on the exponent the format gives to its magnitude. *)
Lemma binary_round_exact sx mx ex :
  let e1 := fexp64 (Zdigits2 (Z.pos mx) + ex) in
  let ez := Z.min ex e1 in
  let mz := Z.pos mx * 2 ^ (ex - ez) in
  let q := mz / 2 ^ (e1 - ez) in
  exists m1,
    q <= m1 <= q + 1
    /\ (mz mod 2 ^ (e1 - ez) = 0 -> m1 = q)
    /\ ((m1 = 0 /\ binary_round prec emax sx mx ex = S754_zero sx)
        \/ (971 <= e1 /\ 2 ^ 1024 <= m1 * 2 ^ e1
            /\ binary_round prec emax sx mx ex = S754_infinity sx)
        \/ (exists m e,
              binary_round prec emax sx mx ex = S754_finite sx m e
              /\ bounded prec emax m e = true
              /\ e1 <= e <= e1 + 1
              /\ Z.pos m * 2 ^ (e - e1) = m1)).
Proof.
  intros e1 ez mz q. unfold binary_round.
  change (Z.pos (digits2_pos mx)) with (Zdigits2 (Z.pos mx)). fold e1.
  pose proof (shl_align_spec mx ex e1) as Hal.
  destruct (shl_align mx ex e1) as [mz' ez']. destruct Hal as [Hez Hmz].
  fold ez in Hez. subst ez'. fold mz in Hmz.
  assert (Hd : Zdigits2 (Z.pos mz') + ez = Zdigits2 (Z.pos mx) + ex).
  { rewrite Hmz. unfold mz. rewrite Zdigits2_mul_pow2 by lia. lia. }
  pose proof (binary_round_aux_exact sx (Z.pos mz') ez ltac:(lia)) as H.
  cbn zeta in H. rewrite Hd in H. fold e1 in H. rewrite Hmz in H |- *.
  apply H. lia.
Qed.

Lemma binary_round_valid sx mx ex :
  valid_binary (binary_round prec emax sx mx ex) = true.
Proof.
  destruct (binary_round_exact sx mx ex) as (m1 & _ & _ & [(_ & ->)|[(_ & _ & ->)|(m & e & -> & Hb & _)]]);
    auto.
Qed.

Lemma binary_normalize_valid z e s :
  valid_binary (binary_normalize prec emax z e s) = true.
Proof. destruct z; cbn [binary_normalize]; auto using binary_round_valid. Qed.


Lemma pow2_add a b : 0 <= a -> 0 <= b -> 2 ^ (a + b) = 2 ^ a * 2 ^ b.
Proof. intros. apply Z.pow_add_r; lia. Qed.

Lemma pow2_split a b : 0 <= b <= a -> 2 ^ a = 2 ^ (a - b) * 2 ^ b.
Proof. intros. rewrite <- pow2_add by lia. f_equal. lia. Qed.

Lemma pow2_le a b : 0 <= a <= b -> 2 ^ a <= 2 ^ b.
Proof. intros. apply Z.pow_le_mono_r; lia. Qed.

Lemma pow2_lt_inv a b : 0 <= b -> 2 ^ a < 2 ^ b -> a < b.
Proof. intros Hb H. apply (Z.pow_lt_mono_r_iff 2); lia. Qed.

Lemma scaled_shift m e e' :
  -2200 <= e' <= e -> scaled m e = scaled (m * 2 ^ (e - e')) e'.
Proof.
  intros H. unfold scaled. rewrite (pow2_split (e + 2200) (e' + 2200)) by lia.
  replace (e + 2200 - (e' + 2200)) with (e - e') by lia. lia.
Qed.

Lemma bounded_inv m e :
  bounded prec emax m e = true ->
  -1074 <= e <= 971
  /\ Z.pos m < 2 ^ 53
  /\ (e = -1074 \/ 2 ^ 52 <= Z.pos m)
  /\ fexp64 (Zdigits2 (Z.pos m) + e) = e.
Proof.
  unfold bounded, canonical_mantissa. intros H.
  apply andb_true_iff in H. destruct H as [Hc Hle].
  apply Z.eqb_eq in Hc. apply Z.leb_le in Hle.
  change (Z.pos (digits2_pos m)) with (Zdigits2 (Z.pos m)) in Hc.
  change (emax - prec) with 971 in Hle.
  split; [|split; [|split]]; try exact Hc.
  - rewrite fexp64_eq in Hc. lia.
  - rewrite fexp64_eq, Zdigits2_log2 in Hc by lia.
    apply Z.log2_lt_pow2; lia.
  - rewrite fexp64_eq, Zdigits2_log2 in Hc by lia.
    destruct (Z.eq_dec e (-1074)); [now left|right].
    apply Z.log2_le_pow2; lia.
Qed.

Lemma scaled_lt_of_exp m1 e1 m2 e2 :
  bounded prec emax m1 e1 = true -> bounded prec emax m2 e2 = true ->
  e1 < e2 -> scaled (Z.pos m1) e1 < scaled (Z.pos m2) e2.
Proof.
  intros H1 H2 Hlt.
  destruct (bounded_inv _ _ H1) as (He1 & Hm1 & _ & _).
  destruct (bounded_inv _ _ H2) as (He2 & _ & Hn2 & _).
  destruct Hn2 as [?|Hn2]; [lia|]. unfold scaled.
  pose proof (pow2_pos (e1 + 2200) ltac:(lia)) as Hp1.
  apply Z.lt_le_trans with (2 ^ 53 * 2 ^ (e1 + 2200)).
  - apply Z.mul_lt_mono_pos_r; lia.
  - apply Z.le_trans with (2 ^ 52 * 2 ^ (e2 + 2200)).
    + rewrite <- !pow2_add by lia. apply pow2_le. lia.
    + apply Z.mul_le_mono_nonneg_r; [|exact Hn2].
      apply Z.lt_le_incl, pow2_pos. lia.
Qed.

(** On positive finite floats the comparison is that of the values. *)
Lemma SFcompare_scaled m1 e1 m2 e2 :
  bounded prec emax m1 e1 = true -> bounded prec emax m2 e2 = true ->
  SFcompare (S754_finite false m1 e1) (S754_finite false m2 e2)
  = Some (scaled (Z.pos m1) e1 ?= scaled (Z.pos m2) e2).
Proof.
  intros H1 H2. cbn [SFcompare]. f_equal.
  destruct (Z.compare_spec e1 e2) as [Heq|Hlt|Hgt].
  - subst e2. rewrite Pos.compare_cont_spec. cbn [Pos.switch_Eq].
    unfold scaled. destruct (bounded_inv _ _ H1) as (He1 & _).
    rewrite <- Zmult_compare_compat_r by (apply Z.lt_gt, pow2_pos; lia).
    destruct (m1 ?= m2)%positive eqn:Hc; cbn; rewrite Hc; reflexivity.
  - symmetry. apply Z.compare_lt_iff. now apply scaled_lt_of_exp.
  - symmetry. apply Z.compare_gt_iff. now apply scaled_lt_of_exp.
Qed.

Lemma scaled_pos_le m1 m2 e : -2200 <= e -> m1 <= m2 -> scaled m1 e <= scaled m2 e.
Proof.
  intros He H. unfold scaled. apply Z.mul_le_mono_nonneg_r; [|exact H].
  apply Z.lt_le_incl, pow2_pos. lia.
Qed.

Lemma scaled_le_inv m1 m2 e : -2200 <= e -> scaled m1 e <= scaled m2 e -> m1 <= m2.
Proof.
  intros He H. unfold scaled in H.
  apply Z.mul_le_mono_pos_r in H; [exact H|]. apply pow2_pos. lia.
Qed.

(** The magnitude of a value bounds the exponent the format gives it. *)
Lemma fexp_le_of_scaled_le mx ex my ey :
  0 < mx -> -2200 <= ex ->
  bounded prec emax my ey = true ->
  scaled mx ex <= scaled (Z.pos my) ey ->
  fexp64 (Zdigits2 mx + ex) <= ey.
Proof.
  intros Hmx Hex Hb Hle.
  destruct (bounded_inv _ _ Hb) as (Hey & _ & _ & Hcan).
  rewrite fexp64_eq, Zdigits2_log2 in Hcan by lia.
  rewrite fexp64_eq, Zdigits2_log2 by lia.
  pose proof (Z.log2_spec mx Hmx) as Hsx.
  pose proof (Z.log2_spec (Z.pos my) ltac:(lia)) as Hsy.
  pose proof (Z.log2_nonneg mx) as Hlx.
  pose proof (Z.log2_nonneg (Z.pos my)) as Hly.
  set (Lx := Z.log2 mx) in *. set (Ly := Z.log2 (Z.pos my)) in *.
  clearbody Lx Ly.
  assert (Lx + ex < Ly + 1 + ey); [|lia].
  apply Z.add_lt_mono_r with (p := 2200).
  apply pow2_lt_inv; [lia|].
  replace (Lx + ex + 2200) with (Lx + (ex + 2200)) by lia.
  replace (Ly + 1 + ey + 2200) with (Z.succ Ly + (ey + 2200)) by lia.
  rewrite (pow2_add Lx (ex + 2200)), (pow2_add (Z.succ Ly) (ey + 2200)) by lia.
  unfold scaled in Hle.
  pose proof (pow2_pos (ex + 2200) ltac:(lia)).
  pose proof (pow2_pos (ey + 2200) ltac:(lia)).
  apply Z.le_lt_trans with (mx * 2 ^ (ex + 2200));
    [apply Z.mul_le_mono_nonneg_r; lia|].
  apply Z.le_lt_trans with (Z.pos my * 2 ^ (ey + 2200)); [exact Hle|].
  apply Z.mul_lt_mono_pos_r; lia.
Qed.

Lemma round_aux_upper mx ex my ey :
  0 < mx -> -2200 <= ex ->
  ex <= fexp64 (Zdigits2 mx + ex) ->
  bounded prec emax my ey = true ->
  scaled mx ex <= scaled (Z.pos my) ey ->
  binary_round_aux prec emax false mx ex loc_Exact = S754_zero false
  \/ exists m e,
       binary_round_aux prec emax false mx ex loc_Exact = S754_finite false m e
       /\ bounded prec emax m e = true
       /\ scaled (Z.pos m) e <= scaled (Z.pos my) ey.
Proof.
  intros Hmx Hex Hpre Hb Hle.
  pose proof (fexp_le_of_scaled_le _ _ _ _ Hmx Hex Hb Hle) as Hey.
  destruct (bounded_inv _ _ Hb) as (Hyr & Hmy & _ & _).
  destruct (binary_round_aux_exact false mx ex Hmx Hpre) as (m1 & Hb1 & Hexact & Hres).
  set (e1 := fexp64 (Zdigits2 mx + ex)) in *.
  assert (He1 : -1074 <= e1) by (unfold e1; rewrite fexp64_eq; lia).
  set (N := 2 ^ (e1 - ex)) in *.
  assert (HN : 0 < N) by (apply pow2_pos; lia).
  set (K := Z.pos my * 2 ^ (ey - e1)).
  assert (HK : scaled (Z.pos my) ey = scaled K e1) by (apply scaled_shift; lia).
  assert (HX : scaled (mx) ex = scaled mx ex) by reflexivity.
  assert (HKN : scaled K e1 = scaled (K * N) ex).
  { unfold N. apply scaled_shift. lia. }
  assert (Hmk : mx <= K * N).
  { apply scaled_le_inv with ex; [lia|]. rewrite <- HKN, <- HK. exact Hle. }
  assert (Hm1K : m1 <= K).
  { pose proof (Z.div_mod mx N ltac:(lia)) as Hdm.
    pose proof (Z.mod_pos_bound mx N HN) as Hmb.
    destruct (Z.eq_dec (mx mod N) 0) as [Hz|Hnz].
    - rewrite (Hexact Hz). nia.
    - assert (mx / N < K) by nia. lia. }
  destruct Hres as [(_ & ->)|[(H971 & Hov & _)|(m & e & -> & Hbm & Her & Hval)]].
  - now left.
  - exfalso.
    assert (K * 2 ^ e1 = Z.pos my * 2 ^ ey).
    { unfold K. rewrite (pow2_split ey e1) by lia. lia. }
    assert (Z.pos my * 2 ^ ey < 2 ^ 1024).
    { replace 1024 with (53 + 971) by reflexivity. rewrite pow2_add by lia.
      pose proof (pow2_le ey 971 ltac:(lia)).
      pose proof (pow2_pos ey ltac:(lia)). nia. }
    pose proof (pow2_pos e1 ltac:(lia)). nia.
  - right. exists m, e. split; [reflexivity|]. split; [exact Hbm|].
    rewrite (scaled_shift (Z.pos m) e e1) by lia. rewrite Hval, HK.
    apply scaled_pos_le; lia.
Qed.

Lemma round_aux_lower mx ex my ey :
  0 < mx -> -2200 <= ex ->
  ex <= fexp64 (Zdigits2 mx + ex) ->
  bounded prec emax my ey = true ->
  scaled (Z.pos my) ey <= scaled mx ex ->
  binary_round_aux prec emax false mx ex loc_Exact = S754_infinity false
  \/ exists m e,
       binary_round_aux prec emax false mx ex loc_Exact = S754_finite false m e
       /\ bounded prec emax m e = true
       /\ scaled (Z.pos my) ey <= scaled (Z.pos m) e.
Proof.
  intros Hmx Hex Hpre Hb Hle.
  destruct (bounded_inv _ _ Hb) as (Hyr & Hmy & _ & _).
  destruct (binary_round_aux_exact false mx ex Hmx Hpre) as (m1 & Hb1 & _ & Hres).
  set (e1 := fexp64 (Zdigits2 mx + ex)) in *.
  assert (He1 : -1074 <= e1) by (unfold e1; rewrite fexp64_eq; lia).
  set (N := 2 ^ (e1 - ex)) in *.
  assert (HN : 0 < N) by (apply pow2_pos; lia).
  assert (Hlow : scaled (Z.pos my) ey <= scaled m1 e1 /\ 0 < m1).
  { destruct (Z_le_gt_dec e1 ey) as [Hge|Hlt].
    - set (K := Z.pos my * 2 ^ (ey - e1)).
      assert (HK : scaled (Z.pos my) ey = scaled K e1) by (apply scaled_shift; lia).
      assert (HKN : scaled K e1 = scaled (K * N) ex).
      { unfold N. apply scaled_shift. lia. }
      assert (Hmk : K * N <= mx).
      { apply scaled_le_inv with ex; [lia|]. rewrite <- HKN, <- HK. exact Hle. }
      assert (HKq : K <= mx / N) by (apply Z.div_le_lower_bound; lia).
      assert (HK1 : 0 < K).
      { unfold K. pose proof (pow2_pos (ey - e1) ltac:(lia)). nia. }
      split; [|lia]. rewrite HK. apply scaled_pos_le; lia.
    - pose proof (Z.log2_spec mx Hmx) as Hsx.
      pose proof (Z.log2_nonneg mx) as Hlx.
      assert (He1eq : e1 = Z.log2 mx + 1 + ex - 53).
      { unfold e1. rewrite fexp64_eq, Zdigits2_log2 by lia.
        unfold e1 in Hlt. rewrite fexp64_eq, Zdigits2_log2 in Hlt by lia. lia. }
      set (Lx := Z.log2 mx) in *.
      assert (Hq : 2 ^ 52 <= mx / N).
      { apply Z.div_le_lower_bound; [lia|]. unfold N.
        rewrite Z.mul_comm, <- pow2_add by lia.
        replace (52 + (e1 - ex)) with Lx by lia. lia. }
      split; [|pose proof (pow2_pos 52 ltac:(lia)); lia].
      apply Z.le_trans with (scaled (2 ^ 52) e1).
      + unfold scaled. rewrite <- pow2_add by lia.
        apply Z.le_trans with (2 ^ 53 * 2 ^ (ey + 2200)).
        * apply Z.mul_le_mono_nonneg_r; [|lia].
          apply Z.lt_le_incl, pow2_pos. lia.
        * rewrite <- pow2_add by lia. apply pow2_le. lia.
      + apply scaled_pos_le; lia. }
  destruct Hlow as [Hlow Hm1].
  destruct Hres as [(Hz & _)|[(_ & _ & ->)|(m & e & -> & Hbm & Her & Hval)]].
  - lia.
  - now left.
  - right. exists m, e. split; [reflexivity|]. split; [exact Hbm|].
    rewrite (scaled_shift (Z.pos m) e e1) by lia. now rewrite Hval.
Qed.

(** Alignment keeps the value and meets the precondition of rounding. *)
Lemma shl_align_round mx ex :
  -2200 <= ex ->
  let e1 := fexp64 (Zdigits2 (Z.pos mx) + ex) in
  let '(mz, ez) := shl_align mx ex e1 in
  -2200 <= ez
  /\ ez <= fexp64 (Zdigits2 (Z.pos mz) + ez)
  /\ scaled (Z.pos mz) ez = scaled (Z.pos mx) ex.
Proof.
  intros Hex e1. pose proof (shl_align_spec mx ex e1) as Hal.
  destruct (shl_align mx ex e1) as [mz ez]. destruct Hal as [Hez Hmz].
  assert (He1 : -1074 <= e1) by (unfold e1; rewrite fexp64_eq; lia).
  assert (Hd : Zdigits2 (Z.pos mz) + ez = Zdigits2 (Z.pos mx) + ex).
  { rewrite Hmz, Zdigits2_mul_pow2 by lia. lia. }
  rewrite Hd. fold e1. split; [lia|]. split; [lia|].
  rewrite Hmz. symmetry. apply scaled_shift. lia.
Qed.

Lemma round_upper mx ex my ey :
  -2200 <= ex ->
  bounded prec emax my ey = true ->
  scaled (Z.pos mx) ex <= scaled (Z.pos my) ey ->
  binary_round prec emax false mx ex = S754_zero false
  \/ exists m e,
       binary_round prec emax false mx ex = S754_finite false m e
       /\ bounded prec emax m e = true
       /\ scaled (Z.pos m) e <= scaled (Z.pos my) ey.
Proof.
  intros Hex Hb Hle. unfold binary_round.
  change (Z.pos (digits2_pos mx)) with (Zdigits2 (Z.pos mx)).
  pose proof (shl_align_round mx ex Hex) as Hal. cbn zeta in Hal.
  destruct (shl_align mx ex _) as [mz ez]. destruct Hal as (Hez & Hpre & Hval).
  apply round_aux_upper; try assumption; lia.
Qed.

Lemma round_lower mx ex my ey :
  -2200 <= ex ->
  bounded prec emax my ey = true ->
  scaled (Z.pos my) ey <= scaled (Z.pos mx) ex ->
  binary_round prec emax false mx ex = S754_infinity false
  \/ exists m e,
       binary_round prec emax false mx ex = S754_finite false m e
       /\ bounded prec emax m e = true
       /\ scaled (Z.pos my) ey <= scaled (Z.pos m) e.
Proof.
  intros Hex Hb Hle. unfold binary_round.
  change (Z.pos (digits2_pos mx)) with (Zdigits2 (Z.pos mx)).
  pose proof (shl_align_round mx ex Hex) as Hal. cbn zeta in Hal.
  destruct (shl_align mx ex _) as [mz ez]. destruct Hal as (Hez & Hpre & Hval).
  apply round_aux_lower; try assumption; lia.
Qed.


Lemma fin_val_nonneg x v : fin_val x v -> 0 <= v.
Proof.
  intros [(s & _ & ->)|(m & e & _ & Hb & ->)]; [lia|].
  destruct (bounded_inv _ _ Hb) as (He & _). unfold scaled.
  pose proof (pow2_pos (e + 2200) ltac:(lia)). nia.
Qed.

Lemma fin_val_zero s : fin_val (S754_zero s) 0.
Proof. left. eauto. Qed.

Lemma fin_val_finite m e :
  bounded prec emax m e = true -> fin_val (S754_finite false m e) (scaled (Z.pos m) e).
Proof. intros. right. eauto. Qed.

Lemma scaled_pos m e : -2200 <= e -> 0 < scaled (Z.pos m) e.
Proof. intros. unfold scaled. pose proof (pow2_pos (e + 2200) ltac:(lia)). nia. Qed.

(** Rounding a non-negative exact value between two representable ones. *)
Lemma normalize_bounds z ez lo hi vlo vhi :
  -2200 <= ez ->
  fin_val lo vlo -> fin_val hi vhi ->
  vlo <= scaled z ez <= vhi ->
  exists v, fin_val (binary_normalize prec emax z ez false) v /\ vlo <= v <= vhi.
Proof.
  intros Hez Hlo Hhi [Hl Hh].
  pose proof (fin_val_nonneg _ _ Hlo) as Hlo0.
  assert (Hsc : 0 < 2 ^ (ez + 2200)) by (apply pow2_pos; lia).
  destruct z as [|p|p]; cbn [binary_normalize].
  - exists 0. split; [apply fin_val_zero|]. unfold scaled in *. lia.
  - assert (Hup : exists v, fin_val (binary_round prec emax false p ez) v
                            /\ v <= vhi
                            /\ (binary_round prec emax false p ez = S754_zero false
                                \/ 0 < v)).
    { destruct Hhi as [(s & _ & ->)|(m & e & -> & Hb & ->)].
      - pose proof (scaled_pos p ez Hez). lia.
      - destruct (round_upper p ez m e Hez Hb Hh) as [Hz|(m' & e' & Hr & Hb' & Hle)].
        + exists 0. rewrite Hz. split; [apply fin_val_zero|].
          split; [|now left].
          destruct (bounded_inv _ _ Hb). pose proof (scaled_pos m e). lia.
        + exists (scaled (Z.pos m') e'). rewrite Hr.
          split; [now apply fin_val_finite|]. split; [exact Hle|right].
          destruct (bounded_inv _ _ Hb'). apply scaled_pos. lia. }
    destruct Hup as (v & Hv & Hvh & Hnz).
    destruct Hlo as [(s & _ & ->)|(m & e & -> & Hb & ->)].
    + exists v. split; [exact Hv|]. split; [apply (fin_val_nonneg _ _ Hv)|exact Hvh].
    + destruct (round_lower p ez m e Hez Hb Hl) as [Hinf|(m' & e' & Hr & Hb' & Hle)].
      * rewrite Hinf in Hv. destruct Hv as [(? & ? & _)|(? & ? & ? & _)]; discriminate.
      * exists (scaled (Z.pos m') e'). rewrite Hr in *.
        split; [now apply fin_val_finite|]. split; [exact Hle|].
        destruct Hv as [(? & ? & _)|(m2 & e2 & Heq & _ & ->)]; [discriminate|].
        injection Heq as <- <-. exact Hvh.
  - exfalso. unfold scaled in Hl. nia.
Qed.

(** Every positive integer below [2^53] is a binary64 value. *)
Lemma int_representable z :
  0 < z < 2 ^ 53 ->
  exists m e, bounded prec emax m e = true /\ scaled (Z.pos m) e = scaled z 0.
Proof.
  intros [Hz Hlt].
  pose proof (Z.log2_nonneg z) as HL.
  assert (HL52 : Z.log2 z < 53) by (apply Z.log2_lt_pow2; lia).
  set (k := 52 - Z.log2 z).
  pose proof (pow2_pos k ltac:(unfold k; lia)) as Hpk.
  assert (Hmz : 0 < z * 2 ^ k) by nia.
  exists (Z.to_pos (z * 2 ^ k)), (- k).
  rewrite Z2Pos.id by exact Hmz. split.
  - unfold bounded, canonical_mantissa. apply andb_true_iff. split.
    + apply Z.eqb_eq.
      change (Z.pos (digits2_pos (Z.to_pos (z * 2 ^ k))))
        with (Zdigits2 (Z.pos (Z.to_pos (z * 2 ^ k)))).
      rewrite Z2Pos.id by exact Hmz.
      rewrite Zdigits2_mul_pow2 by (unfold k; lia).
      rewrite Zdigits2_log2, fexp64_eq by lia. unfold k. lia.
    + apply Z.leb_le. change (emax - prec) with 971. unfold k. lia.
  - symmetry. replace k with (0 - - k) at 1 by lia.
    apply scaled_shift. unfold k. lia.
Qed.

Lemma Prim2SF_normalize z e s :
  Prim2SF (SF2Prim (binary_normalize prec emax z e s))
  = binary_normalize prec emax z e s.
Proof. apply Prim2SF_SF2Prim, binary_normalize_valid. Qed.

Lemma normalize_int z :
  0 <= z < 2 ^ 53 -> fin_val (binary_normalize prec emax z 0 false) (scaled z 0).
Proof.
  intros [Hz Hlt]. destruct (Z.eq_dec z 0) as [->|Hnz].
  - apply fin_val_zero.
  - destruct (int_representable z ltac:(lia)) as (m & e & Hb & Hv).
    destruct (normalize_bounds z 0 (S754_finite false m e) (S754_finite false m e)
                (scaled z 0) (scaled z 0)) as (v & Hfv & Hle);
      try lia; try (rewrite <- Hv; now apply fin_val_finite).
    replace (scaled z 0) with v by lia. exact Hfv.
Qed.


Lemma SFcompare_fin x y vx vy :
  fin_val x vx -> fin_val y vy -> SFcompare x y = Some (vx ?= vy).
Proof.
  intros [(sx & -> & ->)|(mx & ex & -> & Hbx & ->)]
         [(sy & -> & ->)|(my & ey & -> & Hby & ->)].
  - reflexivity.
  - cbn [SFcompare]. f_equal. symmetry. apply Z.compare_lt_iff.
    destruct (bounded_inv _ _ Hby). apply scaled_pos. lia.
  - cbn [SFcompare]. f_equal. symmetry. apply Z.compare_gt_iff.
    destruct (bounded_inv _ _ Hbx). apply scaled_pos. lia.
  - now apply SFcompare_scaled.
Qed.

Lemma SFleb_fin x y vx vy :
  fin_val x vx -> fin_val y vy -> SFleb x y = (vx <=? vy).
Proof.
  intros Hx Hy. unfold SFleb. rewrite (SFcompare_fin _ _ _ _ Hx Hy).
  unfold Z.leb. destruct (vx ?= vy); reflexivity.
Qed.

Lemma SFltb_fin x y vx vy :
  fin_val x vx -> fin_val y vy -> SFltb x y = (vx <? vy).
Proof.
  intros Hx Hy. unfold SFltb. rewrite (SFcompare_fin _ _ _ _ Hx Hy).
  unfold Z.ltb. destruct (vx ?= vy); reflexivity.
Qed.

Lemma shl_align_scaled mx ex ez :
  -2200 <= ez -> ez <= ex ->
  scaled (Z.pos (fst (shl_align mx ex ez))) ez = scaled (Z.pos mx) ex.
Proof.
  intros Hez Hle. pose proof (shl_align_spec mx ex ez) as H.
  destruct (shl_align mx ex ez) as [mz ez']. cbn [fst]. destruct H as [He Hm].
  rewrite Z.min_r in He by lia. subst ez'. rewrite Hm. symmetry.
  now apply scaled_shift.
Qed.

Lemma scaled_add a b e : scaled (a + b) e = scaled a e + scaled b e.
Proof. unfold scaled. lia. Qed.

Lemma scaled_sub a b e : scaled (a - b) e = scaled a e - scaled b e.
Proof. unfold scaled. lia. Qed.

(** The sum of two non-negative finite floats lies between any two
    representable bounds of the exact sum. *)
Lemma SFadd_bounds x y lo hi vx vy vlo vhi :
  fin_val x vx -> fin_val y vy -> fin_val lo vlo -> fin_val hi vhi ->
  vlo <= vx + vy <= vhi ->
  exists v, fin_val (SF64add x y) v /\ vlo <= v <= vhi.
Proof.
  intros Hx Hy Hlo Hhi Hb. unfold SF64add.
  destruct Hx as [(sx & -> & ->)|(mx & ex & -> & Hbx & ->)];
    destruct Hy as [(sy & -> & ->)|(my & ey & -> & Hby & ->)].
  - exists 0. split; [|lia]. destruct sx, sy; apply fin_val_zero.
  - cbn [SFadd]. eexists. split; [now apply fin_val_finite|lia].
  - cbn [SFadd]. eexists. split; [now apply fin_val_finite|lia].
  - cbn [SFadd cond_Zopp].
    destruct (bounded_inv _ _ Hbx) as (Hex & _).
    destruct (bounded_inv _ _ Hby) as (Hey & _).
    apply (normalize_bounds _ _ lo hi); try assumption; try lia.
    rewrite scaled_add, !shl_align_scaled by lia. exact Hb.
Qed.

(** Likewise for a difference that is not negative. *)
Lemma SFsub_bounds x y lo hi vx vy vlo vhi :
  fin_val x vx -> fin_val y vy -> fin_val lo vlo -> fin_val hi vhi ->
  vlo <= vx - vy <= vhi ->
  exists v, fin_val (SF64sub x y) v /\ vlo <= v <= vhi.
Proof.
  intros Hx Hy Hlo Hhi Hb. unfold SF64sub.
  pose proof (fin_val_nonneg _ _ Hlo) as Hlo0.
  destruct Hx as [(sx & -> & ->)|(mx & ex & -> & Hbx & ->)];
    destruct Hy as [(sy & -> & ->)|(my & ey & -> & Hby & ->)].
  - exists 0. split; [|lia]. destruct sx, sy; apply fin_val_zero.
  - exfalso. destruct (bounded_inv _ _ Hby). pose proof (scaled_pos my ey). lia.
  - cbn [SFsub]. eexists. split; [now apply fin_val_finite|lia].
  - cbn [SFsub cond_Zopp].
    destruct (bounded_inv _ _ Hbx) as (Hex & _).
    destruct (bounded_inv _ _ Hby) as (Hey & _).
    apply (normalize_bounds _ _ lo hi); try assumption; try lia.
    rewrite scaled_sub, !shl_align_scaled by lia. exact Hb.
Qed.

(** The product of a non-negative float below one and a non-negative finite
    float is at most the latter. *)
Lemma SFmul_below_one u d vu vd :
  fin_val u vu -> fin_val d vd -> vu < scaled 1 0 ->
  exists v, fin_val (SF64mul u d) v /\ v <= vd.
Proof.
  intros Hu Hd Hlt. unfold SF64mul.
  destruct Hu as [(su & -> & ->)|(mu & eu & -> & Hbu & ->)];
    destruct Hd as [(sd & -> & ->)|(md & ed & -> & Hbd & ->)].
  - exists 0. split; [apply fin_val_zero|lia].
  - exists 0. split; [apply fin_val_zero|].
    destruct (bounded_inv _ _ Hbd). pose proof (scaled_pos md ed). lia.
  - exists 0. split; [apply fin_val_zero|lia].
  - cbn [SFmul xorb].
    destruct (bounded_inv _ _ Hbu) as (Heu & Hmu & Hnu & _).
    destruct (bounded_inv _ _ Hbd) as (Hed & Hmd & Hnd & _).
    change (Z.pos (mu * md)) with (Z.pos mu * Z.pos md).
    assert (Hprod : 0 < Z.pos mu * Z.pos md) by lia.
    assert (Hpre : eu + ed <= fexp64 (Zdigits2 (Z.pos mu * Z.pos md) + (eu + ed))).
    { rewrite fexp64_eq, Zdigits2_log2 by lia.
      destruct Hnu as [->|Hnu]; destruct Hnd as [->|Hnd]; try lia.
      - assert (52 <= Z.log2 (Z.pos mu * Z.pos md)); [|lia].
        apply Z.log2_le_pow2; nia.
      - assert (52 <= Z.log2 (Z.pos mu * Z.pos md)); [|lia].
        apply Z.log2_le_pow2; nia.
      - assert (52 <= Z.log2 (Z.pos mu * Z.pos md)); [|lia].
        apply Z.log2_le_pow2; nia. }
    assert (Hval : scaled (Z.pos mu * Z.pos md) (eu + ed) <= scaled (Z.pos md) ed).
    { unfold scaled in *. rewrite Z.mul_1_l in Hlt.
      replace (0 + 2200) with 2200 in Hlt by lia.
      pose proof (pow2_pos (eu + 2200) ltac:(lia)) as Hpu.
      pose proof (pow2_pos (ed + 2200) ltac:(lia)) as Hpd.
      pose proof (pow2_pos (eu + ed + 2200) ltac:(lia)) as Hpe.
      assert (Heq : 2 ^ (eu + ed + 2200) * 2 ^ 2200
                    = 2 ^ (eu + 2200) * 2 ^ (ed + 2200)).
      { rewrite <- !pow2_add by lia. f_equal. lia. }
      pose proof (pow2_pos 2200 ltac:(lia)) as Hp.
      apply Z.mul_le_mono_pos_r with (p := 2 ^ 2200); [exact Hp|].
      assert (Hre : Z.pos mu * Z.pos md * 2 ^ (eu + ed + 2200) * 2 ^ 2200
                    = (Z.pos mu * 2 ^ (eu + 2200)) * (Z.pos md * 2 ^ (ed + 2200))).
      { rewrite <- (Z.mul_assoc (Z.pos mu * Z.pos md)), Heq. ring. }
      rewrite Hre, (Z.mul_comm (Z.pos md * 2 ^ (ed + 2200)) (2 ^ 2200)).
      apply Z.mul_le_mono_nonneg_r; lia. }
    assert (Hlow : -2200 <= eu + ed) by lia.
    destruct (round_aux_upper _ _ _ _ Hprod Hlow Hpre Hbd Hval)
      as [->|(m & e & -> & Hb & Hle)].
    + exists 0. split; [apply fin_val_zero|]. pose proof (scaled_pos md ed). lia.
    + eexists. split; [now apply fin_val_finite|exact Hle].
Qed.

End Binary64.

(** ** Facts about binary64 arithmetic, from its specification *)
Module FloatFacts.
Local Open Scope float_scope.

Lemma Prim2SF_zero : Prim2SF 0 = S754_zero false.
Proof. reflexivity. Qed.

Lemma Prim2SF_infinity : Prim2SF infinity = S754_infinity false.
Proof. reflexivity. Qed.

(** Swapping the arguments of a comparison reverses its result. *)
Lemma SFcompare_swap (x y : spec_float) :
  SFcompare y x = option_map CompOpp (SFcompare x y).
Proof.
  destruct x as [sx|sx| |sx mx ex], y as [sy|sy| |sy my ey]; simpl;
    try reflexivity;
    try (destruct sx; reflexivity);
    try (destruct sy; reflexivity);
    try (destruct sx, sy; reflexivity).
  destruct sx, sy; simpl; try reflexivity;
    rewrite (Z.compare_antisym ex ey);
    destruct (ex ?= ey)%Z; simpl; try reflexivity;
    rewrite (Pos.compare_cont_antisym mx my Eq); simpl;
    try rewrite CompOpp_involutive; reflexivity.
Qed.

Lemma ltb_leb_false (x y : float) : (x <? y) = true -> (y <=? x) = false.
Proof.
  rewrite ltb_spec, leb_spec. unfold SFltb, SFleb.
  rewrite (SFcompare_swap (Prim2SF x) (Prim2SF y)).
  destruct (SFcompare (Prim2SF x) (Prim2SF y)) as [[| |]|]; simpl;
    congruence.
Qed.

(** A float above [+0] and below [+infinity] is a positive finite one. *)
Lemma positive_finite (x : float) :
  (0 <? x) = true -> (x <? infinity) = true ->
  exists m e, Prim2SF x = S754_finite false m e.
Proof.
  rewrite !ltb_spec, Prim2SF_zero, Prim2SF_infinity.
  destruct (Prim2SF x) as [s|s| |s m e]; simpl; try discriminate.
  - destruct s; discriminate.
  - destruct s; try discriminate. intros _ _. eauto.
Qed.

(** [x - x] is [+0] for every finite [x]. *)
Lemma sub_diag_finite (x : float) s m e :
  Prim2SF x = S754_finite s m e -> Prim2SF (x - x) = S754_zero false.
Proof.
  intros H. rewrite sub_spec, H. unfold SF64sub, SFsub.
  rewrite Z.sub_diag. reflexivity.
Qed.

(** Dividing by [+0] never gives a value at or below a finite positive
    bound: the quotient is NaN or an infinity of the sign of the numerator. *)
Lemma div_abs_by_zero (d t : float) m e :
  Prim2SF t = S754_finite false m e ->
  (abs d / 0 <=? t) = false.
Proof.
  intros Ht. rewrite leb_spec, div_spec, abs_spec, Prim2SF_zero, Ht.
  destruct (Prim2SF d) as [s|s| |s md ed]; reflexivity.
Qed.

(** A number that is not above zero is NaN, a zero, or at most zero. *)
Lemma not_positive_cases (x : float) :
  (0 <? x) = false ->
  PrimFloat.is_nan x = true \/ (x =? 0) = true \/ (x <=? 0) = true.
Proof.
  unfold PrimFloat.is_nan.
  rewrite ltb_spec, leb_spec, !eqb_spec, Prim2SF_zero.
  destruct (Prim2SF x) as [[|]|[|]| |[|] m e]; cbn; auto; discriminate.
Qed.

End FloatFacts.

(** ** Numbers that hold integers, [Math.floor] and [BigInt] *)
Module NumberFacts.
Import JS Dyadic Binary64 FloatFacts TokenHelpers.
Local Open Scope Z_scope.

Lemma Prim2SF_Number z :
  Prim2SF (Number_of_BigInt z) = binary_normalize prec emax z 0 false.
Proof. apply Prim2SF_normalize. Qed.

Lemma Number_fin z :
  0 <= z < 2 ^ 53 -> fin_val (Prim2SF (Number_of_BigInt z)) (scaled z 0).
Proof. intros H. rewrite Prim2SF_Number. now apply normalize_int. Qed.

Lemma scaled_0 e : scaled 0 e = 0.
Proof. reflexivity. Qed.

Lemma scaled_1 : scaled 1 0 = 2 ^ 2200.
Proof. unfold scaled. rewrite Z.mul_1_l. reflexivity. Qed.

Lemma scaled_int_le a b : scaled a 0 <= scaled b 0 <-> a <= b.
Proof.
  split; intros H.
  - apply scaled_le_inv with 0; [lia|exact H].
  - apply scaled_pos_le; [lia|exact H].
Qed.

Lemma scaled_int_lt a b : scaled a 0 < scaled b 0 <-> a < b.
Proof.
  unfold scaled. pose proof (pow2_pos (0 + 2200) ltac:(lia)) as Hp.
  split; intros H.
  - apply Z.mul_lt_mono_pos_r in H; assumption.
  - apply Z.mul_lt_mono_pos_r; assumption.
Qed.

(** [Math.floor] of a non-negative finite float is the float of the
    integer part of its value. *)
Lemma Math_floor_fin x v :
  fin_val (Prim2SF x) v ->
  exists z,
    0 <= z
    /\ fin_val (Prim2SF (Math_floor x)) (scaled z 0)
    /\ scaled z 0 <= v < scaled (z + 1) 0.
Proof.
  intros Hx. unfold Math_floor.
  destruct Hx as [(s & Hs & ->)|(m & e & Hs & Hb & ->)]; rewrite Hs.
  - exists 0. split; [lia|]. rewrite Hs. split; [apply fin_val_zero|].
    rewrite scaled_0. change (0 + 1) with 1. rewrite scaled_1.
    split; [lia|]. apply pow2_pos. lia.
  - destruct (bounded_inv _ _ Hb) as (He & Hm & _ & _).
    assert (Hint : 0 <= e ->
                   fin_val (S754_finite false m e) (scaled (Z.pos m * 2 ^ e) 0)
                   /\ scaled (Z.pos m * 2 ^ e) 0 <= scaled (Z.pos m) e
                      < scaled (Z.pos m * 2 ^ e + 1) 0).
    { intros He0.
      assert (Heq : scaled (Z.pos m) e = scaled (Z.pos m * 2 ^ e) 0).
      { rewrite (scaled_shift (Z.pos m) e 0) by lia. now rewrite Z.sub_0_r. }
      rewrite <- Heq. split; [now apply fin_val_finite|]. split; [lia|].
      rewrite Heq. apply scaled_int_lt. lia. }
    destruct e as [|pe|pe].
    + exists (Z.pos m * 2 ^ 0). rewrite Hs.
      split; [lia|]. apply Hint. lia.
    + exists (Z.pos m * 2 ^ Z.pos pe). rewrite Hs.
      split; [pose proof (pow2_pos (Z.pos pe) ltac:(lia)); nia|]. apply Hint. lia.
    + cbn [cond_Zopp]. rewrite Z.shiftr_div_pow2 by lia.
      set (N := 2 ^ Z.pos pe). set (z := Z.pos m / N).
      assert (HN : 0 < N) by (apply pow2_pos; lia).
      pose proof (Z.div_mod (Z.pos m) N ltac:(lia)) as Hdm.
      pose proof (Z.mod_pos_bound (Z.pos m) N HN) as Hmb. fold z in Hdm.
      assert (Hz0 : 0 <= z) by (apply Z.div_pos; lia).
      assert (Hzm : z * N <= Z.pos m < (z + 1) * N) by nia.
      assert (Hsc : forall k, scaled k 0 = scaled (k * N) (Z.neg pe)).
      { intros k. rewrite (scaled_shift k 0 (Z.neg pe)) by lia.
        unfold N. do 2 f_equal. }
      exists z. split; [exact Hz0|]. split.
      * destruct (Z.eqb_spec z 0) as [Hz|Hz].
        -- rewrite Hz. apply fin_val_zero.
        -- apply Number_fin. split; [lia|].
           apply Z.le_lt_trans with (Z.pos m); [|exact Hm]. nia.
      * rewrite !Hsc. split.
        -- apply scaled_pos_le; lia.
        -- unfold scaled. apply Z.mul_lt_mono_pos_r; [apply pow2_pos|]; lia.
Qed.

Lemma leb_fin x y vx vy :
  fin_val (Prim2SF x) vx -> fin_val (Prim2SF y) vy ->
  PrimFloat.leb x y = (vx <=? vy).
Proof. intros Hx Hy. rewrite leb_spec. now apply SFleb_fin. Qed.

Lemma Prim2SF_one : Prim2SF 1%float = S754_finite false 4503599627370496 (-52).
Proof. reflexivity. Qed.

Lemma one_fin : fin_val (Prim2SF 1%float) (scaled 1 0).
Proof.
  rewrite Prim2SF_one. right. eexists _, _. split; [reflexivity|].
  split; [reflexivity|]. rewrite (scaled_shift 1 0 (-52)) by lia. reflexivity.
Qed.

(** A float in [0, 1) is a zero or a positive finite float below one. *)
Lemma unit_interval_fin u :
  PrimFloat.leb 0 u = true -> PrimFloat.ltb u 1 = true ->
  exists v, fin_val (Prim2SF u) v /\ v < scaled 1 0.
Proof.
  rewrite leb_spec, ltb_spec, Prim2SF_zero. intros H0 H1.
  pose proof (Prim2SF_valid u) as Hv.
  destruct (Prim2SF u) as [s|s| |s m e] eqn:Hu.
  - exists 0. split; [apply fin_val_zero|]. rewrite scaled_1. apply pow2_pos. lia.
  - destruct s; discriminate.
  - discriminate.
  - destruct s; [discriminate|]. cbn [valid_binary] in Hv.
    exists (scaled (Z.pos m) e). split; [now apply fin_val_finite|].
    rewrite (SFltb_fin _ _ _ _ (fin_val_finite _ _ Hv) one_fin) in H1.
    now apply Z.ltb_lt.
Qed.

Lemma scaled_inj a b e : -2200 <= e -> scaled a e = scaled b e -> a = b.
Proof.
  intros He H. apply Z.le_antisymm; apply scaled_le_inv with e; try lia.
Qed.

(** A float holding an integer converts back to it. *)
Lemma BigInt_of_Number_fin x z :
  fin_val (Prim2SF x) (scaled z 0) -> BigInt_of_Number x = Some z.
Proof.
  intros Hx. unfold BigInt_of_Number.
  destruct Hx as [(s & -> & Hz)|(m & e & -> & Hb & Hz)].
  - f_equal. apply (scaled_inj 0 z 0); [lia|]. now rewrite scaled_0.
  - destruct (bounded_inv _ _ Hb) as (He & _).
    destruct e as [|pe|pe]; cbn [cond_Zopp].
    + f_equal. rewrite Z.shiftl_0_r. apply (scaled_inj _ _ 0); [lia|]. now symmetry.
    + f_equal. rewrite Z.shiftl_mul_pow2 by lia.
      rewrite (scaled_shift (Z.pos m) (Z.pos pe) 0) in Hz by lia.
      rewrite Z.sub_0_r in Hz.
      apply (scaled_inj _ _ 0); [lia|]. now symmetry.
    + rewrite (scaled_shift z 0 (Z.neg pe)) in Hz by lia.
      apply scaled_inj in Hz; [|lia].
      replace (0 - Z.neg pe) with (Z.pos pe) in Hz by lia.
      pose proof (pow2_pos (Z.pos pe) ltac:(lia)) as Hp.
      rewrite Z.land_ones by lia. rewrite <- Hz, Z.mod_mul by lia.
      rewrite Z.eqb_refl. f_equal.
      rewrite Z.shiftr_div_pow2 by lia. apply Z.div_mul. lia.
Qed.











(** A number at least one is [+infinity] or a finite float of value at
    least one. *)
Lemma at_least_one v :
  PrimFloat.leb 1 v = true ->
  Prim2SF v = S754_infinity false
  \/ exists m e, Prim2SF v = S754_finite false m e
                 /\ bounded prec emax m e = true
                 /\ scaled 1 0 <= scaled (Z.pos m) e.
Proof.
  rewrite leb_spec. intros H. pose proof (Prim2SF_valid v) as Hv.
  destruct (Prim2SF v) as [s|s| |s m e] eqn:Hp.
  - rewrite Prim2SF_one in H. discriminate.
  - destruct s; [rewrite Prim2SF_one in H; discriminate|now left].
  - rewrite Prim2SF_one in H. discriminate.
  - destruct s; [rewrite Prim2SF_one in H; discriminate|]. right.
    cbn [valid_binary] in Hv. exists m, e. split; [reflexivity|]. split; [exact Hv|].
    rewrite (SFleb_fin _ _ _ _ one_fin (fin_val_finite _ _ Hv)) in H.
    now apply Z.leb_le.
Qed.

Lemma at_least_one_valid v :
  PrimFloat.leb 1 v = true ->
  PrimFloat.is_nan v = false /\ PrimFloat.leb v 0 = false.
Proof.
  intros H. unfold PrimFloat.is_nan. rewrite eqb_spec, leb_spec, Prim2SF_zero.
  destruct (at_least_one v H) as [->|(m & e & -> & _)].
  - split; reflexivity.
  - split; [|reflexivity]. unfold SFeqb. cbn [SFcompare].
    rewrite Z.compare_refl, Pos.compare_cont_refl. reflexivity.
Qed.



End NumberFacts.


(** ** The fee service *)
Module EscrowCoreFacts.
Import JS Exn EscrowCore FloatFacts.
Local Open Scope float_scope.

Lemma tolerance_finite :
  exists m e, Prim2SF tolerance = S754_finite false m e.
Proof. eexists _, _. reflexivity. Qed.

Lemma validateClientFee_unfold this addr amount client r :
  calculateUserFee this addr amount = Ok r ->
  validateClientFee this addr amount client =
  Ok (Math_abs (feeAmount r - client) / feeAmount r <=? tolerance).
Proof. intros H. unfold validateClientFee. rewrite H. reflexivity. Qed.

(** With an authoritative fee of [+0] every client fee is rejected,
    [0] included: the quotient is [0/0] or [x/0]. *)
Lemma validateClientFee_zero_fee this addr amount client r :
  calculateUserFee this addr amount = Ok r ->
  feeAmount r = 0 ->
  validateClientFee this addr amount client = Ok false.
Proof.
  intros H Hz. rewrite (validateClientFee_unfold _ _ _ _ _ H), Hz.
  destruct tolerance_finite as (m & e & Ht).
  unfold Math_abs. now rewrite (div_abs_by_zero _ _ _ _ Ht).
Qed.

(** C1: with a fee tier of 0 basis points the authoritative fee on
    [1000] is [0]; a client fee of [0] is then rejected, where the claim
    has it accepted: [|0 - 0| / 0] is NaN and [NaN <= 0.0001] is false. *)
Theorem validateClientFee_zero_fee_zero_client :
  calculateUserFee (fixedTier 0) "0xA11CE" (OfNumber 1000)
  = Ok {| feePercentage := 0; feeAmount := 0; netAmount := 1000 |}
  /\ validateClientFee (fixedTier 0) "0xA11CE" (OfNumber 1000) 0 = Ok false.
Proof. split; vm_compute; reflexivity. Qed.

(** The two examples of the specification: on [1000] a client fee of [25]
    passes against an authoritative fee of [25] and fails against [25.5]. *)
Example validateClientFee_examples :
  validateClientFee (fixedTier 250) "0xA11CE" (OfString "1000") 25 = Ok true
  /\ validateClientFee (fixedTier 255) "0xA11CE" (OfString "1000") 25 = Ok false.
Proof. split; vm_compute; reflexivity. Qed.

(** C7, as the code has it: [calculateUserFee] returns the percentage
    [Number(basisPoints) / 100], the fee [amount * (percentage / 100)] and the
    net amount [amount - fee], each computed in binary64 arithmetic. *)
Theorem calculateUserFee_formula this c addr amount basisPoints :
  contract this = Some c ->
  c addr = Ok basisPoints ->
  exists r,
    calculateUserFee this addr amount = Ok r
    /\ feePercentage r = Number_of_BigInt basisPoints / 100
    /\ feeAmount r = amountNum amount * (feePercentage r / 100)
    /\ netAmount r = amountNum amount - feeAmount r
    /\ r = feeFromBasisPoints basisPoints (amountNum amount).
Proof.
  intros Hc Hbp. unfold calculateUserFee, getUserFeePercentage.
  rewrite Hc. cbn. rewrite Hbp. cbn.
  eexists. split; [reflexivity|]. cbn. repeat split; reflexivity.
Qed.

Lemma calculateUserFee_formula_witness :
  exists r,
    calculateUserFee (fixedTier 250) "0xA11CE" (OfString "1000") = Ok r
    /\ feePercentage r = Number_of_BigInt 250 / 100
    /\ feeAmount r = amountNum (OfString "1000") * (feePercentage r / 100)
    /\ netAmount r = amountNum (OfString "1000") - feeAmount r
    /\ r = feeFromBasisPoints 250 (amountNum (OfString "1000")).
Proof.
  apply (calculateUserFee_formula (fixedTier 250) (fun _ => Ok 250%Z));
    reflexivity.
Defined.

(** C7, the counterexample: at 250 basis points on [1.53] the returned
    fee and net amount do not add up to the amount, and on [3] the fee is
    not [3 * 250 / 10000]. *)
Lemma calculateUserFee_sum_counterexample :
  (exists r,
     calculateUserFee (fixedTier 250) "0xA11CE" (OfString "1.53") = Ok r
     /\ (feeAmount r + netAmount r =? amountNum (OfString "1.53")) = false)
  /\ (exists r,
     calculateUserFee (fixedTier 250) "0xA11CE" (OfNumber 3) = Ok r
     /\ (feeAmount r =? 3 * 250 / 10000) = false
     /\ (feeAmount r =? 3 * feePercentage r / 100) = false).
Proof.
  split; eexists; (split; [vm_compute; reflexivity|]);
    repeat split; vm_compute; reflexivity.
Qed.

End EscrowCoreFacts.

(** ** Division and subtraction of binary64 numbers, against exact values *)
Module DivisionFacts.
Import Dyadic Binary64 FloatFacts NumberFacts.
Local Open Scope Z_scope.

(** Rounding a mantissa of zero below the least exponent gives a zero or
    the least positive number. *)
Lemma binary_round_aux_zero_mantissa sx ex lx :
  ex <= -1074 ->
  binary_round_aux prec emax sx 0 ex lx = S754_zero sx
  \/ binary_round_aux prec emax sx 0 ex lx = S754_finite sx 1 (-1074).
Proof.
  intros Hex. unfold binary_round_aux.
  destruct (shr_fexp_loc 0 ex lx ltac:(lia)) as (mrs & Hs & Hq & _).
  cbn zeta in Hs, Hq. rewrite Zdigits2_0, Z.add_0_l, fexp64_eq in Hs.
  assert (Hk : ex + Z.max 0 (Z.max (ex - 53) (-1074) - ex) = -1074) by lia.
  rewrite Hk in Hs. rewrite Hs. rewrite Z.div_0_l in Hq
    by (apply Z.pow_nonzero; [lia|apply Z.le_max_l]).
  destruct mrs as [m r s]. cbn [shr_m] in Hq. subst m.
  destruct r, s; cbn [loc_of_shr_record round_nearest_even shr_m];
    ((left; reflexivity) || (right; reflexivity)).
Qed.

Lemma Zdigits2_ge m t : 0 <= t -> 2 ^ t <= m -> t + 1 <= Zdigits2 m.
Proof.
  intros Ht Hm. pose proof (pow2_pos t Ht).
  rewrite Zdigits2_log2 by lia.
  assert (t <= Z.log2 m) by (apply Z.log2_le_pow2; lia). lia.
Qed.

Lemma Zdigits2_bounds m : 0 < m -> 2 ^ (Zdigits2 m - 1) <= m < 2 ^ Zdigits2 m.
Proof.
  intros Hm. rewrite Zdigits2_log2 by lia.
  pose proof (Z.log2_spec m Hm). replace (Z.log2 m + 1 - 1) with (Z.log2 m) by lia.
  replace (Z.log2 m + 1) with (Z.succ (Z.log2 m)) by lia. exact H.
Qed.

(** The quotient [SFdiv] hands to rounding. *)
Lemma SFdiv_core_spec m1 e1 m2 e2 :
  bounded prec emax m1 e1 = true -> bounded prec emax m2 e2 = true ->
  exists q e' l,
    SFdiv_core_binary prec emax (Z.pos m1) e1 (Z.pos m2) e2 = (q, e', l)
    /\ 0 <= q /\ -2200 <= e' /\ e' <= e1 - e2
    /\ (0 < q -> e' <= fexp64 (Zdigits2 q + e'))
    /\ (q = 0 -> e' <= -1074)
    /\ q * Z.pos m2 <= Z.pos m1 * 2 ^ (e1 - e2 - e') < (q + 1) * Z.pos m2
    /\ (q * Z.pos m2 = Z.pos m1 * 2 ^ (e1 - e2 - e') -> l = loc_Exact).
Proof.
  intros Hb1 Hb2.
  destruct (bounded_inv _ _ Hb1) as (He1 & Hm1 & _ & _).
  destruct (bounded_inv _ _ Hb2) as (He2 & Hm2 & _ & _).
  unfold SFdiv_core_binary.
  set (d1 := Zdigits2 (Z.pos m1)). set (d2 := Zdigits2 (Z.pos m2)).
  change (SpecFloat.fexp prec emax) with fexp64.
  set (X := d1 + e1 - (d2 + e2)).
  set (e' := Z.min (fexp64 X) (e1 - e2)).
  set (s := e1 - e2 - e').
  assert (Hs : 0 <= s) by (unfold s, e'; lia).
  assert (Hfx : fexp64 X = Z.max (X - 53) (-1074)) by apply fexp64_eq.
  set (m' := match s with
             | 0 => Z.pos m1
             | Z.pos _ => Z.shiftl (Z.pos m1) s
             | Z.neg _ => 0
             end).
  assert (Hm' : m' = Z.pos m1 * 2 ^ s).
  { unfold m'. clearbody s. destruct s as [|p|p]; try lia.
    - now rewrite Z.shiftl_mul_pow2 by lia. }
  clearbody m'.
  pose proof (pow2_pos s Hs) as Hps.
  pose proof (Z_div_mod m' (Z.pos m2) ltac:(lia)) as Hdm.
  destruct (Z.div_eucl m' (Z.pos m2)) as [q r]. destruct Hdm as [Hdm Hr].
  assert (Hq0 : 0 <= q) by nia.
  exists q, e', (new_location (Z.pos m2) r).
  split; [reflexivity|]. split; [exact Hq0|].
  pose proof (Zdigits2_bounds (Z.pos m1) ltac:(lia)) as Hd1. fold d1 in Hd1.
  pose proof (Zdigits2_bounds (Z.pos m2) ltac:(lia)) as Hd2. fold d2 in Hd2.
  assert (Hd1p : 1 <= d1) by (unfold d1; rewrite Zdigits2_log2 by lia;
                              pose proof (Z.log2_nonneg (Z.pos m1)); lia).
  assert (Hd2p : 1 <= d2) by (unfold d2; rewrite Zdigits2_log2 by lia;
                              pose proof (Z.log2_nonneg (Z.pos m2)); lia).
  (* above the least exponent the quotient has at least 53 digits *)
  assert (Hbig : -1074 < e' -> 0 < q /\ X - e' <= Zdigits2 q).
  { intros He'.
    assert (Ht : 52 <= d1 - 1 + s - d2) by (unfold s; lia).
    set (t := d1 - 1 + s - d2) in *.
    assert (Hqt : 2 ^ t <= q).
    { assert (2 ^ t * Z.pos m2 < (q + 1) * Z.pos m2); [|nia].
      apply Z.lt_le_trans with (2 ^ t * 2 ^ d2).
      - pose proof (pow2_pos t ltac:(lia)). nia.
      - rewrite <- pow2_add by lia. replace (t + d2) with (d1 - 1 + s) by (unfold t; lia).
        rewrite pow2_add by lia. nia. }
    pose proof (pow2_pos t ltac:(lia)).
    split; [lia|].
    pose proof (Zdigits2_ge q t ltac:(lia) Hqt). unfold t, s in *. lia. }
  split; [unfold e'; lia|]. split; [unfold e'; lia|].
  split.
  { intros Hq. destruct (Z_le_gt_dec e' (-1074)) as [Hle|Hgt].
    - rewrite fexp64_eq. lia.
    - destruct (Hbig ltac:(lia)) as [_ Hdq]. rewrite fexp64_eq. unfold e' in *. lia. }
  split.
  { intros Hq. destruct (Z_le_gt_dec e' (-1074)) as [Hle|Hgt]; [exact Hle|].
    destruct (Hbig ltac:(lia)). lia. }
  fold s. split; [nia|].
  intros Heq. assert (r = 0) by nia. subst r.
  unfold new_location, new_location_even, new_location_odd.
  now destruct (Z.even (Z.pos m2)).
Qed.

(** Rounding from any location stays below a representable bound that
    the value does not exceed, and above one it reaches. *)
Lemma round_loc_upper mx ex lx my ey :
  0 < mx -> -2200 <= ex ->
  ex <= fexp64 (Zdigits2 mx + ex) ->
  bounded prec emax my ey = true ->
  scaled mx ex <= scaled (Z.pos my) ey ->
  (scaled mx ex = scaled (Z.pos my) ey -> lx = loc_Exact) ->
  binary_round_aux prec emax false mx ex lx = S754_zero false
  \/ exists m e,
       binary_round_aux prec emax false mx ex lx = S754_finite false m e
       /\ bounded prec emax m e = true
       /\ scaled (Z.pos m) e <= scaled (Z.pos my) ey.
Proof.
  intros Hmx Hex Hpre Hb Hle Hexact.
  pose proof (fexp_le_of_scaled_le _ _ _ _ Hmx Hex Hb Hle) as Hey.
  destruct (bounded_inv _ _ Hb) as (Hyr & Hmy & _ & _).
  destruct (binary_round_aux_loc false mx ex lx Hmx Hpre) as (m1 & Hb1 & Hex1 & Hres).
  set (e1 := fexp64 (Zdigits2 mx + ex)) in *.
  assert (He1 : -1074 <= e1) by (unfold e1; rewrite fexp64_eq; lia).
  set (N := 2 ^ (e1 - ex)) in *.
  assert (HN : 0 < N) by (apply pow2_pos; lia).
  set (K := Z.pos my * 2 ^ (ey - e1)).
  assert (HK : scaled (Z.pos my) ey = scaled K e1) by (apply scaled_shift; lia).
  assert (HKN : scaled K e1 = scaled (K * N) ex).
  { unfold N. apply scaled_shift. lia. }
  assert (Hmk : mx <= K * N).
  { apply scaled_le_inv with ex; [lia|]. rewrite <- HKN, <- HK. exact Hle. }
  assert (Hm1K : m1 <= K).
  { pose proof (Z.div_mod mx N ltac:(lia)) as Hdm.
    pose proof (Z.mod_pos_bound mx N HN) as Hmb.
    destruct (Z.eq_dec mx (K * N)) as [Heq|Hne].
    - assert (Hl : lx = loc_Exact).
      { apply Hexact. rewrite HK, HKN. now rewrite Heq. }
      assert (Hmod : mx mod N = 0) by (rewrite Heq; apply Z.mod_mul; lia).
      rewrite (Hex1 Hl Hmod). rewrite Heq, Z.div_mul by lia. lia.
    - assert (mx / N < K) by (apply Z.div_lt_upper_bound; lia). lia. }
  destruct Hres as [(_ & ->)|[(H971 & Hov & _)|(m & e & -> & Hbm & Her & Hval)]].
  - now left.
  - exfalso.
    assert (K * 2 ^ e1 = Z.pos my * 2 ^ ey).
    { unfold K. rewrite (pow2_split ey e1) by lia. lia. }
    assert (Z.pos my * 2 ^ ey < 2 ^ 1024).
    { replace 1024 with (53 + 971) by reflexivity. rewrite pow2_add by lia.
      pose proof (pow2_le ey 971 ltac:(lia)).
      pose proof (pow2_pos ey ltac:(lia)). nia. }
    pose proof (pow2_pos e1 ltac:(lia)). nia.
  - right. exists m, e. split; [reflexivity|]. split; [exact Hbm|].
    rewrite (scaled_shift (Z.pos m) e e1) by lia. rewrite Hval, HK.
    apply scaled_pos_le; lia.
Qed.

Lemma round_loc_lower mx ex lx my ey :
  0 < mx -> -2200 <= ex ->
  ex <= fexp64 (Zdigits2 mx + ex) ->
  bounded prec emax my ey = true ->
  scaled (Z.pos my) ey < scaled (mx + 1) ex ->
  binary_round_aux prec emax false mx ex lx = S754_infinity false
  \/ exists m e,
       binary_round_aux prec emax false mx ex lx = S754_finite false m e
       /\ bounded prec emax m e = true
       /\ scaled (Z.pos my) ey <= scaled (Z.pos m) e.
Proof.
  intros Hmx Hex Hpre Hb Hlt.
  destruct (bounded_inv _ _ Hb) as (Hyr & Hmy & _ & _).
  destruct (binary_round_aux_loc false mx ex lx Hmx Hpre) as (m1 & Hb1 & _ & Hres).
  set (e1 := fexp64 (Zdigits2 mx + ex)) in *.
  assert (He1 : -1074 <= e1) by (unfold e1; rewrite fexp64_eq; lia).
  set (N := 2 ^ (e1 - ex)) in *.
  assert (HN : 0 < N) by (apply pow2_pos; lia).
  assert (Hlow : scaled (Z.pos my) ey <= scaled m1 e1 /\ 0 < m1).
  { destruct (Z_le_gt_dec e1 ey) as [Hge|Hgt].
    - set (K := Z.pos my * 2 ^ (ey - e1)).
      assert (HK : scaled (Z.pos my) ey = scaled K e1) by (apply scaled_shift; lia).
      assert (HKN : scaled K e1 = scaled (K * N) ex).
      { unfold N. apply scaled_shift. lia. }
      assert (Hmk : K * N <= mx).
      { assert (K * N < mx + 1); [|lia].
        pose proof (pow2_pos (ex + 2200) ltac:(lia)) as Hp.
        rewrite HK, HKN in Hlt. unfold scaled in Hlt. nia. }
      assert (HKq : K <= mx / N) by (apply Z.div_le_lower_bound; lia).
      assert (HK1 : 0 < K).
      { unfold K. pose proof (pow2_pos (ey - e1) ltac:(lia)). nia. }
      split; [|lia]. rewrite HK. apply scaled_pos_le; lia.
    - pose proof (Z.log2_spec mx Hmx) as Hsx.
      pose proof (Z.log2_nonneg mx) as Hlx.
      assert (He1eq : e1 = Z.log2 mx + 1 + ex - 53).
      { unfold e1. rewrite fexp64_eq, Zdigits2_log2 by lia.
        unfold e1 in Hgt. rewrite fexp64_eq, Zdigits2_log2 in Hgt by lia. lia. }
      set (Lx := Z.log2 mx) in *.
      assert (Hq : 2 ^ 52 <= mx / N).
      { apply Z.div_le_lower_bound; [lia|]. unfold N.
        rewrite Z.mul_comm, <- pow2_add by lia.
        replace (52 + (e1 - ex)) with Lx by lia. lia. }
      split; [|pose proof (pow2_pos 52 ltac:(lia)); lia].
      apply Z.le_trans with (scaled (2 ^ 52) e1).
      + unfold scaled. rewrite <- pow2_add by lia.
        apply Z.le_trans with (2 ^ 53 * 2 ^ (ey + 2200)).
        * apply Z.mul_le_mono_nonneg_r; [|lia].
          apply Z.lt_le_incl, pow2_pos. lia.
        * rewrite <- pow2_add by lia. apply pow2_le. lia.
      + apply scaled_pos_le; lia. }
  destruct Hlow as [Hlow Hm1].
  destruct Hres as [(Hz & _)|[(_ & _ & ->)|(m & e & -> & Hbm & Her & Hval)]].
  - lia.
  - now left.
  - right. exists m, e. split; [reflexivity|]. split; [exact Hbm|].
    rewrite (scaled_shift (Z.pos m) e e1) by lia. now rewrite Hval.
Qed.

(** The value the quotient brackets, on the common scale. *)
Lemma SFdiv_core_scaled e' md ed mf ef :
  -2200 <= e' -> -2200 <= ef -> -2200 <= ed -> 0 <= ed - ef - e' ->
  exists P, 0 < P
    /\ (forall k, scaled k e' * scaled (Z.pos mf) ef = k * Z.pos mf * P)
    /\ scaled (Z.pos md) ed * 2 ^ 2200 = Z.pos md * 2 ^ (ed - ef - e') * P.
Proof.
  intros He' Hef Hed Hs. exists (2 ^ (e' + 2200) * 2 ^ (ef + 2200)).
  pose proof (pow2_pos (e' + 2200) ltac:(lia)).
  pose proof (pow2_pos (ef + 2200) ltac:(lia)).
  split; [nia|]. split.
  - intros k. unfold scaled. ring.
  - unfold scaled. rewrite <- !Z.mul_assoc. f_equal.
    rewrite <- !pow2_add by lia. f_equal. lia.
Qed.

(** Division of positive finite numbers against a representable bound
    [Y]: the quotient stays below a bound the exact quotient does not exceed,
    and reaches a bound the exact quotient reaches. *)
Lemma SFdiv_upper md ed mf ef my ey :
  bounded prec emax md ed = true -> bounded prec emax mf ef = true ->
  bounded prec emax my ey = true ->
  scaled (Z.pos md) ed * 2 ^ 2200 <= scaled (Z.pos my) ey * scaled (Z.pos mf) ef ->
  SF64div (S754_finite false md ed) (S754_finite false mf ef) = S754_zero false
  \/ exists m e,
       SF64div (S754_finite false md ed) (S754_finite false mf ef)
       = S754_finite false m e
       /\ bounded prec emax m e = true
       /\ scaled (Z.pos m) e <= scaled (Z.pos my) ey.
Proof.
  intros Hbd Hbf Hby Hle. unfold SF64div. cbn [SFdiv xorb].
  destruct (SFdiv_core_spec md ed mf ef Hbd Hbf)
    as (q & e' & l & -> & Hq0 & He' & Hee & Hpre & Htiny & Hbr & Hexact).
  destruct (bounded_inv _ _ Hbd) as (Hed & _).
  destruct (bounded_inv _ _ Hbf) as (Hef & _).
  destruct (bounded_inv _ _ Hby) as (Hey & Hmy & _).
  destruct (Z.eq_dec q 0) as [->|Hq].
  - destruct (binary_round_aux_zero_mantissa false e' l (Htiny eq_refl)) as [->| ->];
      [now left|right].
    exists 1%positive, (-1074). split; [reflexivity|]. split; [reflexivity|].
    rewrite (scaled_shift (Z.pos my) ey (-1074)) by lia.
    apply scaled_pos_le; [lia|]. pose proof (pow2_pos (ey - -1074) ltac:(lia)). nia.
  - destruct (SFdiv_core_scaled e' md ed mf ef) as (P & HP & Hk & HD); try lia.
    pose proof (scaled_pos mf ef ltac:(lia)) as HF.
    assert (Hqy : scaled q e' * scaled (Z.pos mf) ef
                  <= scaled (Z.pos my) ey * scaled (Z.pos mf) ef).
    { rewrite Hk. apply Z.le_trans with (Z.pos md * 2 ^ (ed - ef - e') * P); [|lia].
      apply Z.mul_le_mono_nonneg_r; lia. }
    apply (round_loc_upper q e' l my ey);
      [lia|lia|apply Hpre; lia|exact Hby| |].
    + now apply (Z.mul_le_mono_pos_r _ _ (scaled (Z.pos mf) ef)).
    + intros Heq. apply Hexact.
      assert (q * Z.pos mf * P = Z.pos md * 2 ^ (ed - ef - e') * P).
      { apply Z.le_antisymm; [apply Z.mul_le_mono_nonneg_r; lia|].
        rewrite <- Hk, Heq, <- HD. exact Hle. }
      nia.
Qed.

Lemma SFdiv_lower md ed mf ef my ey :
  bounded prec emax md ed = true -> bounded prec emax mf ef = true ->
  bounded prec emax my ey = true ->
  scaled (Z.pos my) ey * scaled (Z.pos mf) ef <= scaled (Z.pos md) ed * 2 ^ 2200 ->
  SF64div (S754_finite false md ed) (S754_finite false mf ef) = S754_infinity false
  \/ exists m e,
       SF64div (S754_finite false md ed) (S754_finite false mf ef)
       = S754_finite false m e
       /\ bounded prec emax m e = true
       /\ scaled (Z.pos my) ey <= scaled (Z.pos m) e.
Proof.
  intros Hbd Hbf Hby Hle. unfold SF64div. cbn [SFdiv xorb].
  destruct (SFdiv_core_spec md ed mf ef Hbd Hbf)
    as (q & e' & l & -> & Hq0 & He' & Hee & Hpre & Htiny & Hbr & Hexact).
  destruct (bounded_inv _ _ Hbd) as (Hed & _).
  destruct (bounded_inv _ _ Hbf) as (Hef & _).
  destruct (bounded_inv _ _ Hby) as (Hey & Hmy & _).
  destruct (SFdiv_core_scaled e' md ed mf ef) as (P & HP & Hk & HD); try lia.
  pose proof (scaled_pos mf ef ltac:(lia)) as HF.
  assert (Hlt : scaled (Z.pos my) ey < scaled (q + 1) e').
  { apply (Z.mul_lt_mono_pos_r (scaled (Z.pos mf) ef)); [exact HF|].
    rewrite Hk. apply Z.le_lt_trans with (Z.pos md * 2 ^ (ed - ef - e') * P); [lia|].
    apply Z.mul_lt_mono_pos_r; lia. }
  destruct (Z.eq_dec q 0) as [->|Hq].
  - exfalso. specialize (Htiny eq_refl).
    assert (scaled 1 e' <= scaled (Z.pos my) ey); [|cbn [Z.add] in Hlt; lia].
    rewrite (scaled_shift (Z.pos my) ey e') by lia.
    apply scaled_pos_le; [lia|]. pose proof (pow2_pos (ey - e') ltac:(lia)). nia.
  - apply (round_loc_lower q e' l my ey);
      [lia|lia|apply Hpre; lia|exact Hby|exact Hlt].
Qed.

End DivisionFacts.

Module DifferenceFacts.
Import Dyadic Binary64 FloatFacts NumberFacts DivisionFacts.
Local Open Scope Z_scope.

(** Rounding a positive value [X] of the format's range gives a number
    within [X * 2^-52] of it, or overflows when that number is beyond the
    range. *)
Lemma binary_round_error sx mx ex :
  -1074 <= ex ->
  exists R,
    2 ^ 52 * Z.abs (R - scaled (Z.pos mx) ex) <= scaled (Z.pos mx) ex
    /\ ((binary_round prec emax sx mx ex = S754_infinity sx
         /\ scaled (2 ^ 1024) 0 <= R)
        \/ exists m e,
             binary_round prec emax sx mx ex = S754_finite sx m e
             /\ bounded prec emax m e = true
             /\ scaled (Z.pos m) e = R).
Proof.
  intros Hex. unfold binary_round.
  change (Z.pos (digits2_pos mx)) with (Zdigits2 (Z.pos mx)).
  pose proof (shl_align_round mx ex ltac:(lia)) as Hal. cbn zeta in Hal.
  pose proof (shl_align_spec mx ex (fexp64 (Zdigits2 (Z.pos mx) + ex))) as Hsp.
  destruct (shl_align mx ex _) as [mz ez].
  destruct Hal as (Hez & Hpre & Hval). destruct Hsp as [Hmin _].
  assert (Hez1 : -1074 <= ez).
  { rewrite Hmin, fexp64_eq. lia. }
  rewrite <- Hval.
  destruct (binary_round_aux_exact sx (Z.pos mz) ez ltac:(lia) Hpre)
    as (m1 & Hb1 & Hexact & Hres).
  set (e1 := fexp64 (Zdigits2 (Z.pos mz) + ez)) in *.
  assert (He1 : -1074 <= e1) by (unfold e1; rewrite fexp64_eq; lia).
  set (N := 2 ^ (e1 - ez)) in *.
  assert (HN : 0 < N) by (apply pow2_pos; lia).
  pose proof (Z.div_mod (Z.pos mz) N ltac:(lia)) as Hdm.
  pose proof (Z.mod_pos_bound (Z.pos mz) N HN) as Hmb.
  (* the mantissa kept is within one unit, and exact when nothing is shifted *)
  assert (Herr : 2 ^ 52 * Z.abs (m1 * N - Z.pos mz) <= Z.pos mz /\ 0 < m1).
  { destruct (Z.eq_dec e1 ez) as [Heq|Hne].
    - assert (HN1 : N = 1) by (unfold N; rewrite Heq, Z.sub_diag; reflexivity).
      assert (Hmod : Z.pos mz mod N = 0) by (rewrite HN1; apply Z.mod_1_r).
      rewrite (Hexact Hmod), HN1, Z.div_1_r, Z.mul_1_r, Z.sub_diag. cbn. lia.
    - assert (Hd : e1 = Zdigits2 (Z.pos mz) + ez - 53).
      { unfold e1 in *. rewrite fexp64_eq in *. lia. }
      pose proof (Zdigits2_bounds (Z.pos mz) ltac:(lia)) as [Hlo _].
      assert (HNm : 2 ^ 52 * N <= Z.pos mz).
      { unfold N. rewrite <- pow2_add by lia.
        replace (52 + (e1 - ez)) with (Zdigits2 (Z.pos mz) - 1) by lia. exact Hlo. }
      pose proof (pow2_pos 52 ltac:(lia)) as H52.
      assert (Hq : 2 ^ 52 <= Z.pos mz / N) by (apply Z.div_le_lower_bound; lia).
      split; [|lia].
      apply Z.le_trans with (2 ^ 52 * N); [|exact HNm].
      apply Z.mul_le_mono_nonneg_l; [lia|]. nia. }
  destruct Herr as [Herr Hm1].
  exists (scaled m1 e1).
  assert (Hsc : scaled m1 e1 = scaled (m1 * N) ez).
  { unfold N. apply scaled_shift. lia. }
  split.
  { rewrite Hsc, <- scaled_sub. unfold scaled.
    pose proof (pow2_pos (ez + 2200) ltac:(lia)) as Hp.
    rewrite Z.abs_mul, (Z.abs_eq (2 ^ (ez + 2200))) by lia.
    rewrite Z.mul_assoc. apply Z.mul_le_mono_nonneg_r; lia. }
  destruct Hres as [(Hz & _)|[(H971 & Hov & ->)|(m & e & -> & Hbm & Her & Hv)]].
  - lia.
  - left. split; [reflexivity|]. unfold scaled.
    rewrite Z.add_0_l, (pow2_add e1 2200 ltac:(lia) ltac:(lia)), Z.mul_assoc.
    apply Z.mul_le_mono_nonneg_r; [|exact Hov]. apply Z.lt_le_incl, pow2_pos. lia.
  - right. exists m, e. split; [reflexivity|]. split; [exact Hbm|].
    rewrite (scaled_shift (Z.pos m) e e1) by lia. now rewrite Hv.
Qed.

Lemma scaled_opp s a e : scaled (cond_Zopp s a) e = cond_Zopp s (scaled a e).
Proof. unfold scaled. destruct s; cbn [cond_Zopp]; lia. Qed.

(** The absolute difference [|f - c|] of a positive finite [f] and a
    finite [c]: a zero when they are equal, otherwise the difference [X]
    rounded, within [X * 2^-52] of it, or [+infinity] when that is beyond the
    range. *)
Lemma abs_difference mf ef c C :
  bounded prec emax mf ef = true -> valid_binary c = true ->
  dyadic c = Some C ->
  let X := Z.abs (scaled (Z.pos mf) ef - C) in
  let d := SFabs (SF64sub (S754_finite false mf ef) c) in
  (X = 0 /\ d = S754_zero false)
  \/ (0 < X
      /\ exists R,
           2 ^ 52 * Z.abs (R - X) <= X
           /\ ((d = S754_infinity false /\ scaled (2 ^ 1024) 0 <= R)
               \/ exists m e,
                    d = S754_finite false m e
                    /\ bounded prec emax m e = true
                    /\ scaled (Z.pos m) e = R)).
Proof.
  intros Hbf Hvc Hc X d.
  destruct (bounded_inv _ _ Hbf) as (Hef & _).
  pose proof (scaled_pos mf ef ltac:(lia)) as HF.
  destruct c as [s|s| |sc mc ec]; try discriminate Hc.
  - injection Hc as <-. right. subst X d. rewrite Z.sub_0_r, Z.abs_eq by lia.
    split; [exact HF|]. exists (scaled (Z.pos mf) ef).
    rewrite Z.sub_diag. change (Z.abs 0) with 0. rewrite Z.mul_0_r.
    split; [lia|].
    right. exists mf, ef. cbn. auto.
  - cbn [valid_binary] in Hvc.
    assert (HC : C = cond_Zopp sc (scaled (Z.pos mc) ec))
      by (cbn [dyadic] in Hc; congruence).
    clear Hc. subst C.
    destruct (bounded_inv _ _ Hvc) as (Hec & _).
    subst d. unfold SF64sub. cbn [SFsub cond_Zopp].
    set (ez := Z.min ef ec).
    assert (Hez : -1074 <= ez) by (unfold ez; lia).
    set (v := Z.pos (fst (shl_align mf ef ez))
              - cond_Zopp sc (Z.pos (fst (shl_align mc ec ez)))).
    assert (Hv : scaled v ez = scaled (Z.pos mf) ef - cond_Zopp sc (scaled (Z.pos mc) ec)).
    { unfold v. rewrite scaled_sub, scaled_opp.
      rewrite !shl_align_scaled by (unfold ez; lia). reflexivity. }
    subst X. rewrite <- Hv. clearbody v.
    pose proof (pow2_pos (ez + 2200) ltac:(lia)) as Hp.
    destruct v as [|p|p]; cbn [binary_normalize].
    + left. split; reflexivity.
    + right. rewrite Z.abs_eq by (unfold scaled; nia).
      split; [apply scaled_pos; lia|].
      destruct (binary_round_error false p ez Hez) as (R & HR & Hres).
      exists R. split; [exact HR|].
      destruct Hres as [(-> & Hov)|(m & e & -> & Hbm & Hval)].
      * left. split; [reflexivity|exact Hov].
      * right. exists m, e. auto.
    + right.
      assert (Habs : Z.abs (scaled (Z.neg p) ez) = scaled (Z.pos p) ez).
      { unfold scaled. rewrite Z.abs_mul, (Z.abs_eq (2 ^ (ez + 2200))) by lia.
        reflexivity. }
      rewrite Habs. split; [apply scaled_pos; lia|].
      destruct (binary_round_error true p ez Hez) as (R & HR & Hres).
      exists R. split; [exact HR|].
      destruct Hres as [(-> & Hov)|(m & e & -> & Hbm & Hval)].
      * left. split; [reflexivity|exact Hov].
      * right. exists m, e. auto.
Qed.

End DifferenceFacts.

(** ** The relative tolerance of the fee check *)
Module FeeToleranceFacts.
Import JS Exn EscrowCore Dyadic Binary64 FloatFacts NumberFacts.
Import DivisionFacts DifferenceFacts.
Local Open Scope Z_scope.

(** The tolerance [0.0001] as a binary64 number, and the next one. *)
Lemma Prim2SF_tolerance :
  Prim2SF tolerance = S754_finite false 7378697629483821 (-66).
Proof. reflexivity. Qed.

Lemma scaled_tolerance k : scaled k (-66) = k * 2 ^ 2134.
Proof. reflexivity. Qed.

Lemma pow2_2200 : 2 ^ 2200 = 2 ^ 66 * 2 ^ 2134.
Proof. reflexivity. Qed.

(** A positive exact value is that of a positive finite float. *)
Lemma dyadic_positive (x : float) F :
  dyadic (Prim2SF x) = Some F -> 0 < F ->
  exists m e,
    Prim2SF x = S754_finite false m e
    /\ bounded prec emax m e = true /\ F = scaled (Z.pos m) e.
Proof.
  intros Hd HF. pose proof (Prim2SF_valid x) as Hv.
  destruct (Prim2SF x) as [s|s| |s m e]; try discriminate Hd.
  - cbn [dyadic] in Hd. injection Hd as <-. lia.
  - assert (HF' : F = cond_Zopp s (scaled (Z.pos m) e))
      by (cbn [dyadic] in Hd; congruence).
    cbn [valid_binary] in Hv.
    destruct (bounded_inv _ _ Hv) as (He & _).
    pose proof (scaled_pos m e ltac:(lia)) as Hp.
    destruct s; cbn [cond_Zopp] in HF'; [lia|].
    exists m, e. auto.
Qed.

(** What [validateClientFee] computes, on the specification of the
    float operations. *)
Lemma validateClientFee_spec this addr amount client r :
  calculateUserFee this addr amount = Ok r ->
  validateClientFee this addr amount client
  = Ok (SFleb (SF64div (SFabs (SF64sub (Prim2SF (feeAmount r)) (Prim2SF client)))
                 (Prim2SF (feeAmount r)))
          (Prim2SF tolerance)).
Proof.
  intros H. unfold validateClientFee. rewrite H. cbn [bind]. f_equal.
  unfold Math_abs. now rewrite leb_spec, div_spec, abs_spec, sub_spec.
Qed.

Lemma SFleb_tolerance_below x :
  x = S754_zero false
  \/ (exists m e, x = S754_finite false m e /\ bounded prec emax m e = true
                  /\ scaled (Z.pos m) e <= scaled 7378697629483821 (-66)) ->
  SFleb x (Prim2SF tolerance) = true.
Proof.
  rewrite Prim2SF_tolerance.
  intros [->|(m & e & -> & Hb & Hle)]; [reflexivity|].
  rewrite (SFleb_fin _ _ (scaled (Z.pos m) e) (scaled 7378697629483821 (-66))).
  - now apply Z.leb_le.
  - now apply fin_val_finite.
  - now apply fin_val_finite.
Qed.

Lemma SFleb_tolerance_above x :
  x = S754_infinity false
  \/ (exists m e, x = S754_finite false m e /\ bounded prec emax m e = true
                  /\ scaled 7378697629483822 (-66) <= scaled (Z.pos m) e) ->
  SFleb x (Prim2SF tolerance) = false.
Proof.
  rewrite Prim2SF_tolerance.
  intros [->|(m & e & -> & Hb & Hle)]; [reflexivity|].
  rewrite (SFleb_fin _ _ (scaled (Z.pos m) e) (scaled 7378697629483821 (-66))).
  - apply Z.leb_gt. rewrite !scaled_tolerance in *.
    pose proof (pow2_pos 2134 ltac:(lia)). nia.
  - now apply fin_val_finite.
  - now apply fin_val_finite.
Qed.

Lemma accept_arith R X Fv :
  4503599627370496 * Z.abs (R - X) <= X ->
  (1125899906842624 + 1) * 10000 * X <= 1125899906842624 * Fv ->
  R * 73786976294838206464 <= 7378697629483821 * Fv.
Proof. lia. Qed.

Lemma reject_arith R X Fv :
  4503599627370496 * Z.abs (R - X) <= X ->
  (1125899906842624 + 1) * Fv <= 1125899906842624 * 10000 * X ->
  7378697629483822 * Fv <= R * 73786976294838206464.
Proof. lia. Qed.

Lemma finite_below_top m e :
  bounded prec emax m e = true -> scaled (Z.pos m) e < scaled (2 ^ 1024) 0.
Proof.
  intros Hb. destruct (bounded_inv _ _ Hb) as (He & Hm & _).
  rewrite (scaled_shift (2 ^ 1024) 0 (-1074)) by lia.
  rewrite (scaled_shift (Z.pos m) e (-1074)) by lia.
  assert (Z.pos m * 2 ^ (e - -1074) < 2 ^ 1024 * 2 ^ (0 - -1074)).
  { apply Z.lt_le_trans with (2 ^ 53 * 2 ^ (e - -1074)).
    - apply Z.mul_lt_mono_pos_r; [apply pow2_pos|]; lia.
    - rewrite <- !pow2_add by lia. apply pow2_le. lia. }
  unfold scaled. apply Z.mul_lt_mono_pos_r; [apply pow2_pos; lia|assumption].
Qed.

(** C5, as the code has it: for a strictly positive finite authoritative
    fee and a finite client fee, with [F] and [C] their exact values,
    [validateClientFee] returns [true] when [|F - C| <= 0.0001 * F / (1 + 2^-50)]
    and [false] when [|F - C| >= 0.0001 * (1 + 2^-50) * F]; in particular a
    client fee equal to the authoritative fee is accepted.  Between the two
    bounds the roundings of the subtraction and of the division decide. *)
Theorem validateClientFee_relative_tolerance this addr amount client r F C :
  calculateUserFee this addr amount = Ok r ->
  dyadic (Prim2SF (feeAmount r)) = Some F -> 0 < F ->
  dyadic (Prim2SF client) = Some C ->
  ((2 ^ 50 + 1) * 10000 * Z.abs (F - C) <= 2 ^ 50 * F ->
   validateClientFee this addr amount client = Ok true)
  /\ ((2 ^ 50 + 1) * F <= 2 ^ 50 * 10000 * Z.abs (F - C) ->
      validateClientFee this addr amount client = Ok false)
  /\ (C = F -> validateClientFee this addr amount client = Ok true).
Proof.
  intros H HdF HF HdC.
  rewrite (validateClientFee_spec _ _ _ _ _ H).
  destruct (dyadic_positive _ _ HdF HF) as (mf & ef & Hfee & Hbf & HFv).
  rewrite Hfee.
  pose proof (abs_difference mf ef (Prim2SF client) C Hbf (Prim2SF_valid client) HdC)
    as Hd.
  cbv zeta in Hd. rewrite <- HFv in Hd.
  pose proof (finite_below_top mf ef Hbf) as Htop. rewrite <- HFv in Htop.
  set (X := Z.abs (F - C)) in *.
  set (d := SFabs (SF64sub (S754_finite false mf ef) (Prim2SF client))) in *.
  change (2 ^ 50) with 1125899906842624.
  change (2 ^ 52) with 4503599627370496 in Hd.
  assert (Haccept :
            (1125899906842624 + 1) * 10000 * X <= 1125899906842624 * F ->
            Ok (E := exn)
              (SFleb (SF64div d (S754_finite false mf ef)) (Prim2SF tolerance))
            = Ok true).
  { intros Ha. f_equal. apply SFleb_tolerance_below.
    destruct Hd as [(HX & ->)|(HX & R & HR & [(-> & Hov)|(m & e & -> & Hbm & Hval)])].
    - left. reflexivity.
    - exfalso. lia.
    - apply (SFdiv_upper m e mf ef 7378697629483821 (-66) Hbm Hbf eq_refl).
      rewrite Hval, <- HFv, scaled_tolerance, pow2_2200.
      pose proof (accept_arith R X F HR Ha) as Hr.
      change (2 ^ 66) with 73786976294838206464.
      pose proof (pow2_pos 2134 ltac:(lia)) as Hp.
      rewrite Z.mul_assoc, <- (Z.mul_assoc 7378697629483821),
        (Z.mul_comm (2 ^ 2134) F), Z.mul_assoc.
      apply Z.mul_le_mono_nonneg_r; lia. }
  split; [exact Haccept|]. split.
  - intros Hr. f_equal. apply SFleb_tolerance_above.
    destruct Hd as [(HX & ->)|(HX & R & HR & [(-> & Hov)|(m & e & -> & Hbm & Hval)])].
    + exfalso. lia.
    + left. reflexivity.
    + apply (SFdiv_lower m e mf ef 7378697629483822 (-66) Hbm Hbf eq_refl).
      rewrite Hval, <- HFv, scaled_tolerance, pow2_2200.
      pose proof (reject_arith R X F HR Hr) as Hrr.
      change (2 ^ 66) with 73786976294838206464.
      pose proof (pow2_pos 2134 ltac:(lia)) as Hp.
      rewrite Z.mul_assoc, <- (Z.mul_assoc 7378697629483822),
        (Z.mul_comm (2 ^ 2134) F), Z.mul_assoc.
      apply Z.mul_le_mono_nonneg_r; lia.
  - intros ->. apply Haccept. subst X. rewrite Z.sub_diag.
    change (Z.abs 0) with 0. lia.
Qed.

Lemma validateClientFee_relative_tolerance_witness :
  validateClientFee (fixedTier 250) "0xA11CE" (OfNumber 1000) 25 = Ok true
  /\ validateClientFee (fixedTier 255) "0xA11CE" (OfNumber 1000) 25 = Ok false.
Proof.
  split.
  - edestruct (validateClientFee_relative_tolerance (fixedTier 250) "0xA11CE"
                 (OfNumber 1000) 25) as (Haccept & _ & _);
      [reflexivity|vm_compute; reflexivity|vm_compute; reflexivity
      |vm_compute; reflexivity|].
    apply Haccept. vm_compute. discriminate.
  - edestruct (validateClientFee_relative_tolerance (fixedTier 255) "0xA11CE"
                 (OfNumber 1000) 25) as (_ & Hreject & _);
      [reflexivity|vm_compute; reflexivity|vm_compute; reflexivity
      |vm_compute; reflexivity|].
    apply Hreject. vm_compute. discriminate.
Defined.

(** C5, the counterexample.  An authoritative fee of [+Infinity] is
    strictly positive, and a client fee equal to it is rejected: the difference
    is NaN.  And at 250 basis points on [78.84865731195843] the client fee
    [1.971019311155681] deviates from the authoritative fee by more than
    [0.0001] of it, in exact arithmetic, and is accepted. *)
Lemma validateClientFee_tolerance_counterexample :
  (exists r,
     calculateUserFee (fixedTier 250) "0xA11CE" (OfString "Infinity") = Ok r
     /\ feeAmount r = infinity
     /\ validateClientFee (fixedTier 250) "0xA11CE" (OfString "Infinity") infinity
        = Ok false)
  /\ (exists r F C,
        calculateUserFee (fixedTier 250) "0xA11CE" (OfNumber 78.84865731195843%float)
        = Ok r
        /\ dyadic (Prim2SF (feeAmount r)) = Some F
        /\ dyadic (Prim2SF 1.971019311155681%float) = Some C
        /\ 0 < F /\ F < 10000 * Z.abs (F - C)
        /\ validateClientFee (fixedTier 250) "0xA11CE"
             (OfNumber 78.84865731195843%float) 1.971019311155681%float
           = Ok true).
Proof.
  split.
  - eexists. split; [vm_compute; reflexivity|]. split; vm_compute; reflexivity.
  - eexists _, _, _. split; [vm_compute; reflexivity|].
    split; [vm_compute; reflexivity|]. split; [vm_compute; reflexivity|].
    split; [vm_compute; reflexivity|]. split; vm_compute; reflexivity.
Qed.

End FeeToleranceFacts.

(** ** The retry executor *)
Module ApiRetryFacts.
Import JS Exn ApiRetry.

Section Loop.
Variable Math_pow : float -> Z -> float.
Context {T : Type}.
Variable fn : nat -> result exn T.
Variable random : nat -> float.
Variable config : RetryConfig.

Hypothesis Hmax : (0 <= maxRetries config)%Z.
Hypothesis Hcb : callback_returns config.

(** The loop invariant: entered before call number [j] with the iterations
    that remain, the loop ends at the first call [k] that settles, with the
    outcome of that call, after [k - j] pauses. *)
Lemma withRetry_loop_runs (m j k : nat) (lastError : exn) (w : world) :
  calls w = j ->
  j + m = Z.to_nat (maxRetries config + 1) ->
  j <= k < j + m ->
  (forall i, j <= i < k -> fails_retryably fn i) ->
  settles fn config k ->
  exists w',
    withRetry_loop Math_pow fn random config m (Z.of_nat j + 1) lastError w
    = (fn k, w')
    /\ calls w' = S k
    /\ List.length (trace w') = List.length (trace w) + 2 * (k - j).
Proof.
  revert j lastError w.
  induction m as [|m IH]; intros j lastError w Hcalls Hfuel Hk Hfail Hstop.
  - lia.
  - cbn [withRetry_loop]. rewrite Hcalls.
    destruct (Nat.eq_dec j k) as [->|Hjk].
    + unfold settles in Hstop.
      destruct (fn k) as [v|e] eqn:Hfn.
      * eexists. split; [reflexivity|]. cbn. split; [reflexivity|lia].
      * assert (Hc : ((maxRetries config <? Z.of_nat k + 1)%Z
                      || negb (isRetryableError e)) = true).
        { destruct Hstop as [->|Hlt]; [apply orb_true_r|].
          apply orb_true_iff; left. now apply Z.ltb_lt. }
        rewrite Hc. eexists. split; [reflexivity|]. cbn.
        split; [reflexivity|lia].
    + destruct (Hfail j ltac:(lia)) as (e & Hfn & Hre). rewrite Hfn, Hre.
      assert (Hle : (maxRetries config <? Z.of_nat j + 1)%Z = false).
      { apply Z.ltb_ge. lia. }
      rewrite Hle. cbn [orb negb].
      destruct (onRetry config) as [cb|] eqn:Hon.
      * rewrite (Hcb cb Hon). cbn [calls draws trace].
        replace (Z.of_nat j + 1 + 1)%Z with (Z.of_nat (S j) + 1)%Z by lia.
        edestruct (IH (S j) e) as (w' & Hrun & Hc' & Ht');
          [ | | | | eassumption | ].
        5:{ rewrite Hrun. eexists. split; [reflexivity|].
            split; [exact Hc'|]. rewrite Ht'. cbn [trace].
            rewrite !length_app. cbn [List.length]. lia. }
        all: cbn [calls]; try lia.
        intros i Hi. apply Hfail. lia.
      * cbn [calls draws trace].
        replace (Z.of_nat j + 1 + 1)%Z with (Z.of_nat (S j) + 1)%Z by lia.
        edestruct (IH (S j) e) as (w' & Hrun & Hc' & Ht');
          [ | | | | eassumption | ].
        5:{ rewrite Hrun. eexists. split; [reflexivity|].
            split; [exact Hc'|]. rewrite Ht'. cbn [trace].
            rewrite !length_app. cbn [List.length]. lia. }
        all: cbn [calls]; try lia.
        intros i Hi. apply Hfail. lia.
Qed.

(** From the start, [withRetry] ends at the first call that settles. *)
Lemma withRetry_settles (k : nat) :
  (Z.of_nat k <= maxRetries config)%Z ->
  (forall i, i < k -> fails_retryably fn i) ->
  settles fn config k ->
  exists w,
    withRetry Math_pow fn random config start = (fn k, w)
    /\ calls w = S k
    /\ List.length (trace w) = 2 * k.
Proof.
  intros Hk Hfail Hstop. unfold withRetry.
  destruct (withRetry_loop_runs (Z.to_nat (maxRetries config + 1)) 0 k Nullish start)
    as (w & Hrun & Hc & Ht); try reflexivity; try assumption; try lia.
  - intros i Hi. apply Hfail. lia.
  - exists w. cbn in Hrun, Ht. rewrite Hrun. repeat split; try assumption. lia.
Qed.

End Loop.

Section Delay.
Import Dyadic Binary64 FloatFacts NumberFacts.
Local Open Scope Z_scope.

(** The jittered delay for integral bounds [a <= b] and a draw in [0, 1)
    is an integer between them. *)
Lemma jitter_between (a b : Z) (u : float) :
  0 <= a <= b -> b < 2 ^ 53 ->
  PrimFloat.leb 0 u = true -> PrimFloat.ltb u 1 = true ->
  let lo := Number_of_BigInt a in
  let hi := Number_of_BigInt b in
  let delay := Math_floor (u * (hi - lo) + lo)%float in
  exists d,
    BigInt_of_Number delay = Some d /\ a <= d <= b
    /\ PrimFloat.leb lo delay = true /\ PrimFloat.leb delay hi = true.
Proof.
  intros Hab Hb Hu0 Hu1 lo hi delay.
  pose proof (Number_fin a ltac:(lia)) as Hlo. fold lo in Hlo.
  pose proof (Number_fin b ltac:(lia)) as Hhi. fold hi in Hhi.
  pose proof (Number_fin (b - a) ltac:(lia)) as Hd.
  destruct (unit_interval_fin u Hu0 Hu1) as (vu & Hvu & Hlt).
  (* the width [hi - lo] is exact *)
  destruct (SFsub_bounds _ _ _ _ _ _ _ _ Hhi Hlo Hd Hd) as (vw & Hw & Hwv).
  { rewrite scaled_sub. lia. }
  assert (vw = scaled (b - a) 0) by lia. subst vw. clear Hwv.
  rewrite <- sub_spec in Hw.
  (* the product stays within the width *)
  destruct (SFmul_below_one _ _ _ _ Hvu Hw Hlt) as (vp & Hp & Hpv).
  rewrite <- mul_spec in Hp.
  pose proof (fin_val_nonneg _ _ Hp) as Hp0.
  (* the sum stays within the bounds *)
  destruct (SFadd_bounds _ _ _ _ _ _ _ _ Hp Hlo Hlo Hhi) as (vs & Hs & Hsv).
  { rewrite scaled_sub in Hpv. lia. }
  rewrite <- add_spec in Hs.
  (* and so does its integer part *)
  destruct (Math_floor_fin _ _ Hs) as (d & Hd0 & Hfl & Hdv). fold delay in Hfl.
  assert (Had : a <= d).
  { assert (a < d + 1); [|lia]. apply scaled_int_lt. lia. }
  assert (Hdb : d <= b) by (apply scaled_int_le; lia).
  exists d. split; [now apply BigInt_of_Number_fin|]. split; [lia|]. split.
  - rewrite (leb_fin _ _ _ _ Hlo Hfl). apply Z.leb_le. now apply scaled_int_le.
  - rewrite (leb_fin _ _ _ _ Hfl Hhi). apply Z.leb_le. now apply scaled_int_le.
Qed.

End Delay.

(** C8: for a rate-limit error the code means to "use a random delay
    between min and max", as its comment says, but it takes the integer part
    of the jittered value: with delays of [0.5] and [1.5] milliseconds and a
    draw of [0] the delay is [0], below the minimum. *)
Theorem calculateRetryDelay_below_min :
  calculateRetryDelay pow_by_mult 1 fractionalPolicy true 0%float = 0%float
  /\ PrimFloat.ltb (calculateRetryDelay pow_by_mult 1 fractionalPolicy true 0%float)
       (minRetryDelayMs fractionalPolicy) = true
  /\ PrimFloat.leb 0 0 = true /\ PrimFloat.ltb 0 1 = true.
Proof. repeat split; vm_compute; reflexivity. Qed.

End ApiRetryFacts.

(** ** The price fallback engine *)
Module PriceServiceFacts.
Import JS Exn PriceService.
Local Open Scope float_scope.

Section Adapters.
Variable getCoingeckoPrice : string -> option string -> outcome.
Variable getKrakenPrice : string -> outcome.
Variable getCryptoComparePrice : string -> option string -> outcome.
Variable getCoinbasePrice : string -> outcome.
Variable getBinancePrice : string -> option string -> outcome.
Variable Date_now : Z.

Let call := callProvider getCoingeckoPrice getKrakenPrice getCryptoComparePrice
              getCoinbasePrice getBinancePrice.
Let try := tryProviders getCoingeckoPrice getKrakenPrice getCryptoComparePrice
             getCoinbasePrice getBinancePrice Date_now.

(** Providers without a usable price are called and passed over. *)
Lemma tryProviders_skip pre rest sym id keys called :
  (forall q, In q pre -> yields (call q sym id keys) = None) ->
  try (pre ++ rest) sym id keys called = try rest sym id keys (called ++ pre).
Proof.
  revert called. induction pre as [|q pre IH]; intros called Hnone.
  - now rewrite app_nil_r.
  - cbn [app]. unfold try. cbn [tryProviders]. fold try.
    specialize (Hnone q (or_introl eq_refl)) as Hq.
    unfold yields, call in Hq.
    destruct (callProvider _ _ _ _ _ q sym id keys) as [[p|]|e].
    + destruct (0 <? p); [discriminate|].
      rewrite IH by (intros; apply Hnone; now right).
      now rewrite <- app_assoc.
    + rewrite IH by (intros; apply Hnone; now right).
      now rewrite <- app_assoc.
    + rewrite IH by (intros; apply Hnone; now right).
      now rewrite <- app_assoc.
Qed.

Lemma tryProviders_hit p rest sym id keys called price :
  yields (call p sym id keys) = Some price ->
  try (p :: rest) sym id keys called
  = (Some {| price := price; provider := p; timestamp := Date_now |},
     called ++ [p]).
Proof.
  intros Hy. unfold try. cbn [tryProviders].
  unfold yields, call in Hy.
  destruct (callProvider _ _ _ _ _ p sym id keys) as [[x|]|e]; try discriminate.
  destruct (0 <? x); [|discriminate].
  now injection Hy as ->.
Qed.

End Adapters.

(** C6: for all adapters, [getPriceWithFallback] goes through CoinGecko,
    Kraken, CryptoCompare, Coinbase and Binance in this order, calling
    CoinGecko's adapter with the CoinGecko id and the others with the trading
    symbol.  It returns the price and the identity of the first of them whose
    adapter gives a strictly positive price, having called exactly the adapters
    up to that one; and it returns [null] (it has no way to throw) after calling
    all five when none does, whether an adapter returns [null], a price that is
    not positive, or throws. *)
Theorem getPriceWithFallback_first_positive
    (getCoingeckoPrice : string -> option string -> outcome)
    (getKrakenPrice : string -> outcome)
    (getCryptoComparePrice : string -> option string -> outcome)
    (getCoinbasePrice : string -> outcome)
    (getBinancePrice : string -> option string -> outcome)
    (Date_now : Z) (symbolOrId : string) (options : PriceServiceOptions) :
  let given (field : option string) :=
    match field with
    | Some s => if (s =? "")%string then symbolOrId else s
    | None => symbolOrId
    end in
  let tradingSymbol := given (symbol options) in
  let geckoId := given (coingeckoId options) in
  let key (f : ApiKeys -> option string) :=
    match apiKeys options with
    | Some keys => f keys
    | None => None
    end in
  let adapter provider : outcome :=
    match provider with
    | COINGECKO => getCoingeckoPrice geckoId (key key_coingecko)
    | KRAKEN => getKrakenPrice tradingSymbol
    | CRYPTOCOMPARE => getCryptoComparePrice tradingSymbol (key key_cryptocompare)
    | COINBASE => getCoinbasePrice tradingSymbol
    | BINANCE => getBinancePrice tradingSymbol (key key_binance)
    end in
  let noPrice provider :=
    adapter provider = Ok None
    \/ (exists x, adapter provider = Ok (Some x) /\ (0 <? x) = false)
    \/ (exists e, adapter provider = Throw e) in
  let result :=
    getPriceWithFallback getCoingeckoPrice getKrakenPrice getCryptoComparePrice
      getCoinbasePrice getBinancePrice Date_now symbolOrId options in
  (forall earlier p later x,
     [COINGECKO; KRAKEN; CRYPTOCOMPARE; COINBASE; BINANCE] = earlier ++ p :: later ->
     (forall q, In q earlier -> noPrice q) ->
     adapter p = Ok (Some x) -> (0 <? x) = true ->
     result = (Some {| price := x; provider := p; timestamp := Date_now |},
               earlier ++ [p]))
  /\ ((forall q, noPrice q) ->
      result = (None, [COINGECKO; KRAKEN; CRYPTOCOMPARE; COINBASE; BINANCE])).
Proof.
  intros given tradingSymbol geckoId key adapter noPrice result.
  assert (Hcall : forall q,
             callProvider getCoingeckoPrice getKrakenPrice getCryptoComparePrice
               getCoinbasePrice getBinancePrice q
               (or_else (symbol options) symbolOrId)
               (or_else (coingeckoId options) symbolOrId) (apiKeys options)
             = adapter q).
  { intros q. destruct q; reflexivity. }
  assert (Hno : forall q, noPrice q ->
             yields (callProvider getCoingeckoPrice getKrakenPrice
                       getCryptoComparePrice getCoinbasePrice getBinancePrice q
                       (or_else (symbol options) symbolOrId)
                       (or_else (coingeckoId options) symbolOrId)
                       (apiKeys options)) = None).
  { intros q Hq. rewrite Hcall. unfold yields.
    destruct Hq as [->|[(x & -> & ->)|(e & ->)]]; reflexivity. }
  split.
  - intros earlier p later x Horder Hnone Hp Hx.
    subst result. unfold getPriceWithFallback.
    change PROVIDER_ORDER with [COINGECKO; KRAKEN; CRYPTOCOMPARE; COINBASE; BINANCE].
    rewrite Horder.
    rewrite tryProviders_skip by (intros q Hq; apply Hno, Hnone, Hq).
    apply tryProviders_hit. rewrite Hcall, Hp. unfold yields. now rewrite Hx.
  - intros Hnone. subst result. unfold getPriceWithFallback.
    rewrite <- (app_nil_r PROVIDER_ORDER) at 1.
    rewrite tryProviders_skip by (intros q _; apply Hno, Hnone). reflexivity.
Qed.

End PriceServiceFacts.

(** ** Strings of decimal digits *)
Module StringFacts.
Import JS Exn TokenHelpers Binary64.
Local Open Scope Z_scope.

Lemma chars_str l : chars (str l) = l.
Proof. apply list_ascii_of_string_of_list_ascii. Qed.

Lemma digit_cases c :
  is_digit c = true ->
  is_space c = false /\ Ascii.eqb c "-" = false /\ Ascii.eqb c "+" = false
  /\ Ascii.eqb c "." = false /\ Ascii.eqb "I" c = false
  /\ 0 <= digit_val c <= 9.
Proof.
  destruct c as [[] [] [] [] [] [] [] []]; intros H; try discriminate H;
    repeat split; try reflexivity; vm_compute; discriminate.
Qed.

Lemma span_all {A} (p : A -> bool) l : forallb p l = true -> span p l = (l, []).
Proof.
  induction l as [|x l IH]; cbn; [reflexivity|].
  intros H. apply andb_prop in H as [-> H]. now rewrite (IH H).
Qed.

Lemma span_stop {A} (p : A -> bool) l c rest :
  forallb p l = true -> p c = false -> span p (l ++ c :: rest) = (l, c :: rest).
Proof.
  intros Hl Hc. induction l as [|x l IH]; cbn.
  - now rewrite Hc.
  - cbn in Hl. apply andb_prop in Hl as [-> Hl]. now rewrite (IH Hl).
Qed.

Lemma forallb_rev {A} (p : A -> bool) l : forallb p (rev l) = forallb p l.
Proof.
  induction l as [|x l IH]; cbn; [reflexivity|].
  rewrite forallb_app, IH. cbn. rewrite andb_true_r. apply andb_comm.
Qed.

Lemma forallb_dropWhile {A} (p q : A -> bool) l :
  forallb p l = true -> forallb p (dropWhile q l) = true.
Proof.
  induction l as [|x l IH]; cbn; [reflexivity|].
  intros H. destruct (q x); [|exact H].
  apply andb_prop in H as [_ H]. auto.
Qed.

Lemma length_dropWhile {A} (q : A -> bool) l :
  (List.length (dropWhile q l) <= List.length l)%nat.
Proof. induction l as [|x l IH]; cbn; [lia|]. destruct (q x); cbn; lia. Qed.

Lemma forallb_firstn {A} (p : A -> bool) n l :
  forallb p l = true -> forallb p (firstn n l) = true.
Proof.
  revert l. induction n as [|n IH]; intros [|x l]; cbn; auto.
  intros H. apply andb_prop in H as [-> H]. cbn. auto.
Qed.

Lemma forallb_skipn {A} (p : A -> bool) n l :
  forallb p l = true -> forallb p (skipn n l) = true.
Proof.
  revert l. induction n as [|n IH]; intros [|x l]; cbn; auto.
  intros H. apply andb_prop in H as [_ H]. auto.
Qed.

Lemma forallb_tl {A} (p : A -> bool) l :
  forallb p l = true -> forallb p (tl l) = true.
Proof. destruct l; cbn; auto. intros H. now apply andb_prop in H. Qed.

Lemma forallb_repeat {A} (p : A -> bool) x n :
  p x = true -> forallb p (repeat x n) = true.
Proof. intros H. induction n; cbn; [reflexivity|]. now rewrite H. Qed.

Lemma digits_trim l :
  forallb is_digit l = true -> forallb is_digit (trimTrailingZeros l) = true.
Proof.
  intros H. unfold trimTrailingZeros.
  rewrite forallb_rev. apply forallb_dropWhile. now rewrite forallb_rev.
Qed.

Lemma length_trim l : (List.length (trimTrailingZeros l) <= List.length l)%nat.
Proof.
  unfold trimTrailingZeros. rewrite length_rev.
  etransitivity; [apply length_dropWhile|]. now rewrite length_rev.
Qed.

Lemma digits_padEnd0 n l :
  forallb is_digit l = true -> forallb is_digit (padEnd0 n l) = true.
Proof.
  intros H. unfold padEnd0. rewrite forallb_app, H. now apply forallb_repeat.
Qed.

Lemma digits_padStart0 n l :
  forallb is_digit l = true -> forallb is_digit (padStart0 n l) = true.
Proof.
  intros H. unfold padStart0. rewrite forallb_app, H, andb_true_r.
  now apply forallb_repeat.
Qed.

Lemma dropWhile_digits l :
  forallb is_digit l = true -> dropWhile is_space l = l.
Proof.
  destruct l as [|c l]; cbn; [reflexivity|].
  intros H. apply andb_prop in H as [H _].
  apply digit_cases in H as (-> & _). reflexivity.
Qed.

Lemma trim_digits l :
  forallb is_digit l = true ->
  rev (dropWhile is_space (rev (dropWhile is_space l))) = l.
Proof.
  intros H. rewrite (dropWhile_digits l H).
  rewrite dropWhile_digits by now rewrite forallb_rev.
  apply rev_involutive.
Qed.

Lemma digit_not_radix_letter c :
  is_digit c = true ->
  Ascii.eqb c "x" || Ascii.eqb c "X" = false
  /\ Ascii.eqb c "o" || Ascii.eqb c "O" = false
  /\ Ascii.eqb c "b" || Ascii.eqb c "B" = false.
Proof.
  destruct c as [[] [] [] [] [] [] [] []]; intros H; try discriminate H;
    repeat split; reflexivity.
Qed.

(** A run of decimal digits announces no radix. *)
Lemma radix_prefix_digits l : forallb is_digit l = true -> radix_prefix l = None.
Proof.
  destruct l as [|z [|x rest]]; try reflexivity.
  cbn [forallb radix_prefix]. intros H.
  apply andb_prop in H as [_ H]. apply andb_prop in H as [H _].
  apply digit_not_radix_letter in H as (-> & -> & ->).
  now destruct (Ascii.eqb z "0").
Qed.

Lemma BigInt_of_string_digits l :
  forallb is_digit l = true -> BigInt_of_string (str l) = Some (digits_val l).
Proof.
  intros H. unfold BigInt_of_string. rewrite chars_str, (trim_digits l H).
  destruct l as [|c l]; [reflexivity|].
  rewrite (radix_prefix_digits _ H), H.
  cbn in H. apply andb_prop in H as [H _].
  apply digit_cases in H as (_ & -> & -> & _). reflexivity.
Qed.

Lemma BigIntS_digits l :
  forallb is_digit l = true -> BigIntS (str l) = Ok (digits_val l).
Proof. intros H. unfold BigIntS. now rewrite BigInt_of_string_digits. Qed.

Lemma digits_string_of_uint d :
  forallb is_digit (chars (NilEmpty.string_of_uint d)) = true.
Proof. induction d; cbn; auto. Qed.

Lemma digits_toString z :
  0 <= z -> forallb is_digit (chars (BigInt_toString z)) = true.
Proof.
  intros Hz. unfold BigInt_toString.
  destruct z as [|p|p]; [reflexivity| |lia].
  cbn. destruct (Pos.to_uint p); try reflexivity; apply digits_string_of_uint.
Qed.

Lemma digits_val_nonneg_from l acc :
  forallb is_digit l = true -> 0 <= acc ->
  0 <= fold_left (fun acc c => 10 * acc + digit_val c) l acc.
Proof.
  revert acc. induction l as [|c l IH]; cbn [fold_left forallb];
    intros acc H Hacc; [exact Hacc|].
  apply andb_prop in H as [Hc H]. apply IH; [exact H|].
  apply digit_cases in Hc. lia.
Qed.

Lemma digits_val_nonneg l : forallb is_digit l = true -> 0 <= digits_val l.
Proof. intros H. apply digits_val_nonneg_from; [exact H|lia]. Qed.

Lemma fold_digits_from l acc :
  fold_left (fun acc c => 10 * acc + digit_val c) l acc
  = acc * 10 ^ Z.of_nat (List.length l) + digits_val l.
Proof.
  unfold digits_val. revert acc. induction l as [|c l IH]; intros acc.
  - cbn. lia.
  - cbn [fold_left List.length]. rewrite IH, (IH (10 * 0 + digit_val c)).
    rewrite Nat2Z.inj_succ, Z.pow_succ_r by lia. ring.
Qed.

Lemma digits_val_app a b :
  digits_val (a ++ b) = digits_val a * 10 ^ Z.of_nat (List.length b) + digits_val b.
Proof. unfold digits_val at 1. rewrite fold_left_app. apply fold_digits_from. Qed.

Lemma digits_val_zeros k : digits_val (repeat "0"%char k) = 0.
Proof.
  induction k as [|k IH]; [reflexivity|].
  change (repeat "0"%char (S k)) with (["0"%char] ++ repeat "0"%char k).
  rewrite digits_val_app, IH. reflexivity.
Qed.

Lemma digits_val_padEnd0 n l :
  digits_val (padEnd0 n l) = digits_val l * 10 ^ Z.of_nat (n - List.length l).
Proof.
  unfold padEnd0. rewrite digits_val_app, repeat_length, digits_val_zeros. lia.
Qed.

Lemma digits_val_lt l :
  forallb is_digit l = true -> digits_val l < 10 ^ Z.of_nat (List.length l).
Proof.
  induction l as [|c l IH] using rev_ind; intros H; [cbn; lia|].
  rewrite forallb_app in H. apply andb_prop in H as [Hl Hc].
  cbn in Hc. rewrite andb_true_r in Hc. apply digit_cases in Hc.
  rewrite digits_val_app, length_app. cbn [List.length].
  replace (Z.of_nat (List.length l + 1)) with (Z.succ (Z.of_nat (List.length l))) by lia.
  rewrite Z.pow_succ_r by lia. specialize (IH Hl).
  change (digits_val [c]) with (10 * 0 + digit_val c). lia.
Qed.

End StringFacts.


(** ** [parseUnits] on decimal strings *)
Module ParseUnitsFacts.
Import JS Exn TokenHelpers Binary64 StringFacts.
Local Open Scope Z_scope.

Lemma round_ratio_small num den :
  Z.pos num < 16 * Z.pos den ->
  exists z, roundSF (round_ratio num den) = Some z /\ 0 <= z.
Proof.
  intros Hlt. unfold round_ratio.
  set (s := Z.max 0 (64 + Z.log2 (Z.pos den) - Z.log2 (Z.pos num))).
  assert (Hs : 0 <= s) by (unfold s; lia).
  destruct (Z.div_eucl (Z.shiftl (Z.pos num) s) (Z.pos den)) as [q r] eqn:Hqr.
  assert (Hq : q = Z.shiftl (Z.pos num) s / Z.pos den)
    by (unfold Z.div; now rewrite Hqr).
  rewrite Z.shiftl_mul_pow2 in Hq by exact Hs.
  pose proof (pow2_pos s Hs) as Hp.
  assert (Hq0 : 0 <= q) by (subst q; apply Z.div_pos; nia).
  assert (Hq1 : q < 16 * 2 ^ s).
  { subst q. apply Z.div_lt_upper_bound; [lia|]. nia. }
  set (z := 2 * q + (if r =? 0 then 0 else 1)).
  assert (Hz : 0 <= z < 2 ^ (s + 5)).
  { rewrite Z.pow_add_r by lia. change (2 ^ 5) with 32.
    unfold z. destruct (r =? 0); lia. }
  clearbody z. clear Hqr Hq Hq0 Hq1 q r.
  unfold binary_normalize.
  destruct z as [|p|p]; [exists 0; split; [reflexivity|lia]| |lia].
  destruct (binary_round_exact false p (- s - 1))
    as (m1 & _ & _ & [(_ & ->)|[(He & _)|(m & e & -> & _)]]).
  - exists 0. split; [reflexivity|lia].
  - exfalso. rewrite fexp64_eq in He.
    rewrite Zdigits2_log2 in He by lia.
    assert (Z.log2 (Z.pos p) < s + 5) by (apply Z.log2_lt_pow2; lia).
    lia.
  - cbn [roundSF cond_Zopp]. eexists. split; [reflexivity|].
    destruct e as [|e|e].
    + cbn. lia.
    + apply Z.shiftl_nonneg. lia.
    + apply Z.shiftr_nonneg.
      assert (0 <= Z.shiftl 1 (Z.pred (Z.pos e))) by (apply Z.shiftl_nonneg; lia).
      lia.
Qed.

Lemma round_decimal_small mant n :
  mant < 10 * 10 ^ Z.of_nat n ->
  exists z, roundSF (decimal_value false mant (0 - Z.of_nat n)) = Some z /\ 0 <= z.
Proof.
  intros Hm. unfold decimal_value.
  destruct mant as [|m|m]; try (exists 0; split; [reflexivity|lia]).
  destruct n as [|n].
  - cbn [Z.of_nat Z.sub Z.opp Z.add]. apply round_ratio_small. cbn in Hm. lia.
  - change (0 - Z.of_nat (S n)) with (Z.neg (Pos.of_succ_nat n)).
    cbn match. apply round_ratio_small.
    rewrite Pos2Z.inj_pow.
    change (Z.of_nat (S n)) with (Z.pos (Pos.of_succ_nat n)) in Hm.
    pose proof (Z.pow_pos_nonneg 10 (Z.pos (Pos.of_succ_nat n))). lia.
Qed.

Lemma parseSF_unit u right :
  is_digit u = true -> forallb is_digit right = true ->
  parseSF (str (u :: "."%char :: right))
  = decimal_value false (digits_val (u :: right)) (0 - Z.of_nat (List.length right)).
Proof.
  intros Hu Hr. unfold parseSF. rewrite chars_str.
  destruct (digit_cases u Hu) as (Hsp & Hm & Hp & Hd & HI & _).
  cbn [dropWhile]. rewrite Hsp, Hm, Hp.
  unfold chars at 1. cbn [list_ascii_of_string is_prefix]. rewrite HI.
  cbn [andb].
  change (u :: "."%char :: right) with ([u] ++ "."%char :: right).
  rewrite span_stop; [|cbn; now rewrite Hu|reflexivity].
  rewrite Ascii.eqb_refl, (span_all _ _ Hr). reflexivity.
Qed.

Lemma round_of_string_unit u right :
  is_digit u = true -> forallb is_digit right = true ->
  exists z, round_of_string ([u] ++ "."%char :: right) = Some z /\ 0 <= z.
Proof.
  intros Hu Hr. unfold round_of_string. cbn [app].
  rewrite (parseSF_unit u right Hu Hr).
  apply round_decimal_small.
  assert (Hd : forallb is_digit (u :: right) = true) by (cbn; now rewrite Hu).
  pose proof (digits_val_lt _ Hd) as Hlt. cbn [List.length] in Hlt.
  rewrite Nat2Z.inj_succ, Z.pow_succ_r in Hlt by lia. exact Hlt.
Qed.

Lemma increment_digits integer :
  forallb is_digit integer = true ->
  exists l, increment integer = Ok l /\ forallb is_digit l = true.
Proof.
  intros H. unfold increment. rewrite (BigIntS_digits _ H). cbn [bind].
  eexists. split; [reflexivity|].
  apply digits_toString. pose proof (digits_val_nonneg _ H). lia.
Qed.

Lemma scaleParts_returns integer fraction decimals :
  forallb is_digit integer = true -> forallb is_digit fraction = true ->
  exists n, scaleParts false integer fraction decimals = Ok n.
Proof.
  intros Hi Hf. unfold scaleParts.
  destruct (increment_digits _ Hi) as (inc & Hinc & Hincd).
  destruct (decimals =? 0)%nat eqn:Hd0.
  - assert (Hj : exists l, (match round_of_string ("."%char :: fraction) with
                            | Some 1 => increment integer
                            | _ => Ok integer
                            end) = Ok l /\ forallb is_digit l = true).
    { destruct (round_of_string _) as [[|[p|p|]|p]|]; eauto. }
    destruct Hj as (l & -> & Hl). cbn [bind app].
    rewrite app_nil_r, (BigIntS_digits _ Hl). eauto.
  - destruct (decimals <? List.length fraction)%nat eqn:Hlt.
    + apply Nat.eqb_neq in Hd0. apply Nat.ltb_lt in Hlt.
      cbn zeta.
      destruct (skipn (decimals - 1) fraction) as [|u rest] eqn:Hsk.
      { apply (f_equal (@List.length _)) in Hsk.
        rewrite length_skipn in Hsk. cbn in Hsk. lia. }
      assert (Hu : is_digit u = true).
      { pose proof (forallb_skipn is_digit (decimals - 1) _ Hf) as H.
        rewrite Hsk in H. cbn in H. now apply andb_prop in H. }
      cbn [firstn].
      destruct (round_of_string_unit u (skipn decimals fraction) Hu
                  (forallb_skipn _ _ _ Hf)) as (z & -> & Hz).
      pose proof (forallb_firstn is_digit (decimals - 1) _ Hf) as Hleft.
      set (left := firstn (decimals - 1) fraction) in *.
      assert (Hfr : exists fr,
                 (if 9 <? z
                  then bind (BigIntS (str left)) (fun lz =>
                       Ok (padStart0 (List.length left + 1)
                             (chars (BigInt_toString (lz + 1)) ++ ["0"%char])))
                  else Ok (left ++ chars (BigInt_toString z))) = Ok fr
                 /\ forallb is_digit fr = true).
      { destruct (9 <? z).
        - rewrite (BigIntS_digits _ Hleft). cbn [bind]. eexists. split; [reflexivity|].
          apply digits_padStart0. rewrite forallb_app.
          rewrite digits_toString; [reflexivity|].
          pose proof (digits_val_nonneg _ Hleft). lia.
        - eexists. split; [reflexivity|].
          rewrite forallb_app, Hleft. now apply digits_toString. }
      destruct Hfr as (fr & -> & Hfrd). cbn [bind].
      destruct (decimals <? List.length fr)%nat.
      * rewrite Hinc. cbn [bind app].
        rewrite BigIntS_digits; [eauto|].
        rewrite forallb_app, Hincd. apply forallb_firstn. now apply forallb_tl.
      * cbn [bind app]. rewrite BigIntS_digits; [eauto|].
        rewrite forallb_app, Hi. now apply forallb_firstn.
    + cbn [bind app]. rewrite BigIntS_digits; [eauto|].
      rewrite forallb_app, Hi. now apply digits_padEnd0.
Qed.

Lemma scaleParts_padded integer fraction decimals :
  forallb is_digit integer = true -> forallb is_digit fraction = true ->
  (0 < decimals)%nat -> (List.length fraction <= decimals)%nat ->
  scaleParts false integer fraction decimals
  = Ok (digits_val integer * 10 ^ Z.of_nat decimals
        + digits_val fraction * 10 ^ Z.of_nat (decimals - List.length fraction)).
Proof.
  intros Hi Hf Hd Hlen. unfold scaleParts.
  destruct (decimals =? 0)%nat eqn:Hd0; [apply Nat.eqb_eq in Hd0; lia|].
  destruct (decimals <? List.length fraction)%nat eqn:Hlt;
    [apply Nat.ltb_lt in Hlt; lia|].
  cbn [bind app]. rewrite BigIntS_digits
    by (rewrite forallb_app, Hi; now apply digits_padEnd0).
  rewrite digits_val_app, digits_val_padEnd0. f_equal. f_equal. f_equal.
  unfold padEnd0. rewrite length_app, repeat_length. f_equal. lia.
Qed.

Lemma forallb_not_dot l : forallb is_digit l = true -> forallb not_dot l = true.
Proof.
  induction l as [|c l IH]; cbn; [reflexivity|].
  intros H. apply andb_prop in H as [Hc H]. rewrite (IH H), andb_true_r.
  unfold not_dot. apply digit_cases in Hc as (_ & _ & _ & -> & _). reflexivity.
Qed.

Lemma parseUnits_decimal ip fp decimals :
  is_decimal ip fp ->
  parseUnits (decimalString ip fp) decimals
  = scaleParts false ip (trimTrailingZeros fp) decimals.
Proof.
  intros [Hi Hf]. unfold parseUnits, decimalString. rewrite chars_str.
  assert (Hneg : match ip with c :: _ => Ascii.eqb c "-" | [] => false end = false).
  { destruct ip as [|c ip]; [reflexivity|]. cbn in Hi.
    apply andb_prop in Hi as [Hc _]. now apply digit_cases in Hc. }
  destruct fp as [|d fp].
  - rewrite app_nil_r. unfold valid_decimal.
    replace (match ip with c :: t => if Ascii.eqb c "-" then t else ip | [] => ip end)
      with ip by (destruct ip; [reflexivity|]; now rewrite Hneg).
    rewrite (span_all _ _ Hi). cbn [snd negb].
    rewrite (span_all _ _ (forallb_not_dot _ Hi)). now rewrite Hneg.
  - unfold valid_decimal.
    replace (match ip ++ "."%char :: d :: fp with
             | c :: t => if Ascii.eqb c "-" then t else ip ++ "."%char :: d :: fp
             | [] => ip ++ "."%char :: d :: fp
             end) with (ip ++ "."%char :: d :: fp)
      by (destruct ip; [reflexivity|]; cbn [app]; now rewrite Hneg).
    rewrite (span_stop _ _ _ _ Hi) by reflexivity.
    cbn [snd]. rewrite Ascii.eqb_refl, Hf. cbn [andb negb].
    rewrite (span_stop _ _ _ _ (forallb_not_dot _ Hi)) by reflexivity.
    rewrite (span_all _ _ (forallb_not_dot _ Hf)). cbn [fst]. now rewrite Hneg.
Qed.

Lemma dropWhile_zeros l :
  exists k, l = repeat "0"%char k ++ dropWhile (Ascii.eqb "0"%char) l.
Proof.
  induction l as [|c l [k IH]]; [exists 0%nat; reflexivity|].
  cbn [dropWhile]. destruct (Ascii.eqb "0" c) eqn:Hc.
  - apply Ascii.eqb_eq in Hc. subst c. exists (S k). cbn. now f_equal.
  - exists 0%nat. reflexivity.
Qed.

Lemma rev_zeros k : rev (repeat "0"%char k) = repeat "0"%char k.
Proof.
  induction k as [|k IH]; [reflexivity|].
  cbn [repeat rev]. rewrite IH. symmetry. apply repeat_cons.
Qed.

Lemma trim_zeros l :
  exists k, l = trimTrailingZeros l ++ repeat "0"%char k.
Proof.
  unfold trimTrailingZeros. destruct (dropWhile_zeros (rev l)) as [k Hk].
  exists k. rewrite <- (rev_involutive l) at 1. rewrite Hk at 1.
  rewrite rev_app_distr, rev_zeros. reflexivity.
Qed.

Lemma digits_val_trim l n :
  (List.length l <= n)%nat ->
  digits_val (trimTrailingZeros l)
    * 10 ^ Z.of_nat (n - List.length (trimTrailingZeros l))
  = digits_val l * 10 ^ Z.of_nat (n - List.length l).
Proof.
  intros Hn. destruct (trim_zeros l) as [k Hk].
  set (t := trimTrailingZeros l) in *. clearbody t. subst l.
  rewrite length_app, repeat_length in Hn |- *.
  rewrite digits_val_app, digits_val_zeros, repeat_length, Z.add_0_r.
  rewrite <- Z.mul_assoc, <- Z.pow_add_r by lia. do 2 f_equal. lia.
Qed.

Lemma parseUnits_scaled ip fp decimals :
  is_decimal ip fp -> (0 < decimals)%nat -> (List.length fp <= decimals)%nat ->
  parseUnits (decimalString ip fp) decimals
  = Ok (digits_val ip * 10 ^ Z.of_nat decimals
        + digits_val fp * 10 ^ Z.of_nat (decimals - List.length fp)).
Proof.
  intros Hdec Hd Hlen. rewrite (parseUnits_decimal _ _ _ Hdec).
  destruct Hdec as [Hi Hf].
  rewrite scaleParts_padded; auto using digits_trim.
  - now rewrite digits_val_trim.
  - pose proof (length_trim fp). lia.
Qed.

Lemma parseUnits_returns ip fp decimals :
  is_decimal ip fp -> exists n, parseUnits (decimalString ip fp) decimals = Ok n.
Proof.
  intros Hdec. rewrite (parseUnits_decimal _ _ _ Hdec). destruct Hdec as [Hi Hf].
  apply scaleParts_returns; auto using digits_trim.
Qed.

End ParseUnitsFacts.


(** ** Escrow amounts *)
Module EscrowAmountsFacts.
Import JS Exn TokenHelpers StringFacts ParseUnitsFacts.
Local Open Scope Z_scope.

(** C2: for every decimal amount string (digits, then optionally a point
    and digits) and every chain id: on a chain that is not of the Hedera
    family (chain id neither 295 nor 296) [getEscrowAmounts] returns a pair
    whose [contractAmount] and [transactionValue] are equal; on a chain of
    the Hedera family, for an amount of at most 8 fractional digits, it
    returns a pair whose [transactionValue] is [contractAmount * 10^10],
    the [contractAmount] being the amount scaled at 8 decimals. *)
Theorem getEscrowAmounts_pair (getNativeCurrencyDecimals : Z -> nat)
    (ip fp : list ascii) (chainId : Z) :
  is_decimal ip fp ->
  (chainId <> 295 -> chainId <> 296 ->
   exists n,
     getEscrowAmounts getNativeCurrencyDecimals (decimalString ip fp) chainId
     = Ok {| contractAmount := n; transactionValue := n |})
  /\ (chainId = 295 \/ chainId = 296 -> (List.length fp <= 8)%nat ->
      exists c,
        getEscrowAmounts getNativeCurrencyDecimals (decimalString ip fp) chainId
        = Ok {| contractAmount := c; transactionValue := c * 10 ^ 10 |}
        /\ c = digits_val ip * 10 ^ 8
               + digits_val fp * 10 ^ Z.of_nat (8 - List.length fp)).
Proof.
  intros Hdec. unfold getEscrowAmounts, parseNativeAmount, isHederaChain. split.
  - intros H295 H296.
    apply Z.eqb_neq in H295, H296. rewrite H295, H296. cbn [orb].
    destruct (parseUnits_returns ip fp (getNativeCurrencyDecimals chainId) Hdec)
      as [n ->].
    exists n. reflexivity.
  - intros Hchain Hlen.
    assert (Hh : (chainId =? 296) || (chainId =? 295) = true)
      by (destruct Hchain as [-> | ->]; reflexivity).
    rewrite Hh.
    rewrite (parseUnits_scaled ip fp 8), (parseUnits_scaled ip fp 18);
      try assumption; try lia.
    cbn [bind]. eexists. split; [|reflexivity]. do 2 f_equal.
    replace (18 - List.length fp)%nat with (8 - List.length fp + 10)%nat by lia.
    rewrite Nat2Z.inj_add, Z.pow_add_r by lia.
    change (Z.of_nat 18) with (8 + 10). change (Z.of_nat 8) with 8.
    change (Z.of_nat 10) with 10.
    rewrite (Z.pow_add_r 10 8 10) by lia. ring.
Qed.

Lemma getEscrowAmounts_pair_witness :
  (exists n,
     getEscrowAmounts (fun _ => 18%nat) "100.5" 1
     = Ok {| contractAmount := n; transactionValue := n |})
  /\ (exists c,
        getEscrowAmounts (fun _ => 18%nat) "100.5" 296
        = Ok {| contractAmount := c; transactionValue := c * 10 ^ 10 |}
        /\ c = 100 * 10 ^ 8 + 5 * 10 ^ 7).
Proof.
  split.
  - apply (getEscrowAmounts_pair (fun _ => 18%nat) (chars "100") (chars "5") 1);
      [split; reflexivity | lia | lia].
  - apply (getEscrowAmounts_pair (fun _ => 18%nat) (chars "100") (chars "5") 296);
      [split; reflexivity | right; reflexivity | cbn; lia].
Defined.

End EscrowAmountsFacts.


(** ** Amount conversion *)
Module TokenHelpersFacts.
Import JS Exn TokenHelpers FloatFacts.
Local Open Scope float_scope.

Section Chain.
Variable getNativeCurrencyDecimals : Z -> nat.
Variable getCoingeckoPriceId : Z -> option string.
Variable getNativeCurrencySymbol : Z -> string.
Variable priceSource : string -> option string -> result exn (option float).

Let convert := convertUSDToWei getNativeCurrencyDecimals getCoingeckoPriceId
                 getNativeCurrencySymbol priceSource.

Lemma convertUSDToWei_zero usdAmount chainId log :
  (usdAmount =? 0) = true -> convert usdAmount chainId log = (Ok 0%Z, log).
Proof. intros H. unfold convert, convertUSDToWei. now rewrite H. Qed.

Lemma convertUSDToWei_no_price usdAmount chainId log :
  (usdAmount =? 0) = false ->
  no_positive_price
    (priceSource (getNativeCurrencySymbol chainId) (getCoingeckoPriceId chainId)) ->
  convert usdAmount chainId log
  = (Throw (Error "Failed to convert USD to Wei: Unable to fetch current price"),
     log ++ [(getNativeCurrencySymbol chainId, getCoingeckoPriceId chainId)]).
Proof.
  intros Hnz Hprice. unfold convert, convertUSDToWei, getPrice. rewrite Hnz.
  unfold no_positive_price in Hprice.
  destruct (priceSource _ _) as [[price|]|e]; try reflexivity.
  unfold truthy, isNaN.
  destruct (not_positive_cases price Hprice) as [Hnan|[Hz|Hle]].
  - rewrite Hnan. reflexivity.
  - rewrite Hz, orb_true_r. reflexivity.
  - destruct (PrimFloat.is_nan price || (price =? 0)); cbn; [reflexivity|].
    rewrite Hle. reflexivity.
Qed.

End Chain.

(** C9: for every chain, [convertUSDToWei] of a zero amount returns [0n]
    with the lookup log untouched (no price lookup is made); for every amount
    that is not zero, when the price source resolves no positive price (it
    fails, yields nothing, or yields a number not above zero), the call throws
    after its one lookup. *)
Theorem convertUSDToWei_zero_and_unavailable
    (getNativeCurrencyDecimals : Z -> nat)
    (getCoingeckoPriceId : Z -> option string)
    (getNativeCurrencySymbol : Z -> string)
    (priceSource : string -> option string -> result exn (option float))
    (chainId : Z) (log : list lookup) :
  convertUSDToWei getNativeCurrencyDecimals getCoingeckoPriceId
    getNativeCurrencySymbol priceSource 0 chainId log = (Ok 0%Z, log)
  /\ (forall usdAmount,
        (usdAmount =? 0) = false ->
        no_positive_price
          (priceSource (getNativeCurrencySymbol chainId) (getCoingeckoPriceId chainId)) ->
        exists e,
          convertUSDToWei getNativeCurrencyDecimals getCoingeckoPriceId
            getNativeCurrencySymbol priceSource usdAmount chainId log
          = (Throw e,
             log ++ [(getNativeCurrencySymbol chainId, getCoingeckoPriceId chainId)])).
Proof.
  split.
  - now apply convertUSDToWei_zero.
  - intros usdAmount Hnz Hprice. eexists.
    now apply convertUSDToWei_no_price.
Qed.

(** C3: the scaling round trip loses precision.  [toSmallestUnit] of
    ["0.57"] at 2 decimals is ["56"], since [0.57 * 100] is
    [56.99999999999999] in binary64 and is floored, and [fromSmallestUnit]
    takes it back to ["0.56"]; likewise ["1.1"] at 18 decimals comes back as
    ["1.100000000000000096"]. *)
Theorem toSmallestUnit_round_trip_loses_precision :
  toSmallestUnit (OfString "0.57") 2 = Ok "56"%string
  /\ fromSmallestUnit (OfString "56") 2 = "0.56"%string
  /\ toSmallestUnit (OfString "1.1") 18 = Ok "1100000000000000096"%string
  /\ fromSmallestUnit (OfString "1100000000000000096") 18
     = "1.100000000000000096"%string.
Proof. repeat split; vm_compute; reflexivity. Qed.

Section SmallestUnit.
Import Dyadic Binary64 NumberFacts.
Local Open Scope Z_scope.



End SmallestUnit.




End TokenHelpersFacts.

Module BigIntStringFacts.
Import JS Exn TokenHelpers StringFacts.
Local Open Scope Z_scope.

Lemma str_chars s : str (chars s) = s.
Proof. apply string_of_list_ascii_of_string. Qed.

Lemma fold_uint_acc d (acc : positive) :
  fold_left (fun a c => 10 * a + digit_val c) (chars (NilEmpty.string_of_uint d))
    (Z.pos acc)
  = Z.pos (Pos.of_uint_acc d acc).
Proof.
  revert acc. induction d; intros acc; cbn [NilEmpty.string_of_uint chars
    list_ascii_of_string fold_left Pos.of_uint_acc]; try reflexivity;
    rewrite <- IHd; f_equal; vm_compute digit_val; lia.
Qed.

Lemma digits_val_uint d :
  digits_val (chars (NilEmpty.string_of_uint d)) = Z.of_N (Pos.of_uint d).
Proof.
  unfold digits_val.
  induction d; cbn [NilEmpty.string_of_uint chars list_ascii_of_string fold_left
    Pos.of_uint]; try reflexivity; try exact IHd;
    match goal with
    | |- fold_left _ _ ?a = _ =>
        let v := eval vm_compute in a in
        change a with v
    end; rewrite fold_uint_acc; reflexivity.
Qed.

Lemma toString_pos p :
  BigInt_toString (Z.pos p) = NilEmpty.string_of_uint (Pos.to_uint p).
Proof.
  unfold BigInt_toString. cbn.
  pose proof (Unsigned.to_uint_nonnil p) as H.
  destruct (Pos.to_uint p); try reflexivity. now elim H.
Qed.

Lemma digits_val_toString z :
  0 <= z -> digits_val (chars (BigInt_toString z)) = z.
Proof.
  intros Hz. destruct z as [|p|p]; [reflexivity| |lia].
  rewrite toString_pos, digits_val_uint, Unsigned.of_to. reflexivity.
Qed.

Lemma BigInt_of_toString_nonneg z :
  0 <= z -> BigInt_of_string (BigInt_toString z) = Some z.
Proof.
  intros Hz. rewrite <- (str_chars (BigInt_toString z)).
  rewrite BigInt_of_string_digits by now apply digits_toString.
  now rewrite digits_val_toString.
Qed.

Lemma toString_neg p :
  chars (BigInt_toString (Z.neg p)) = "-"%char :: chars (BigInt_toString (Z.pos p)).
Proof. reflexivity. Qed.

Lemma toString_nonempty z : 0 <= z -> chars (BigInt_toString z) <> [].
Proof.
  intros Hz. destruct z as [|p|p]; [discriminate| |lia].
  rewrite toString_pos. pose proof (Unsigned.to_uint_nonnil p) as H.
  destruct (Pos.to_uint p); try discriminate. now elim H.
Qed.

(** [BigInt(z.toString())] is [z]. *)
Lemma BigInt_of_toString z : BigInt_of_string (BigInt_toString z) = Some z.
Proof.
  destruct (Z.neg_nonneg_cases z) as [Hneg|Hz]; [|now apply BigInt_of_toString_nonneg].
  destruct z as [|p|p]; try lia. clear Hneg.
  unfold BigInt_of_string. rewrite toString_neg.
  pose proof (digits_toString (Z.pos p) ltac:(lia)) as Hd.
  pose proof (toString_nonempty (Z.pos p) ltac:(lia)) as Hne.
  pose proof (digits_val_toString (Z.pos p) ltac:(lia)) as Hv.
  set (ds := chars (BigInt_toString (Z.pos p))) in *. clearbody ds.
  change (dropWhile is_space ("-"%char :: ds)) with ("-"%char :: ds).
  cbn [rev]. assert (Hr : dropWhile is_space (rev ds ++ ["-"%char]) = rev ds ++ ["-"%char]).
  { assert (Hrd : forallb is_digit (rev ds) = true) by now rewrite forallb_rev.
    destruct (rev ds) as [|c t] eqn:Hrev.
    - apply (f_equal (@rev _)) in Hrev. rewrite rev_involutive in Hrev. now elim Hne.
    - cbn [app dropWhile]. cbn in Hrd. apply andb_prop in Hrd as [Hc _].
      apply digit_cases in Hc as (-> & _). reflexivity. }
  rewrite Hr, rev_app_distr, rev_involutive. cbn [rev app].
  rewrite Ascii.eqb_refl.
  destruct ds as [|c t]; [now elim Hne|]. rewrite Hd, Hv. reflexivity.
Qed.

Lemma nzhead_head d : match Decimal.nzhead d with Decimal.D0 _ => False | _ => True end.
Proof. induction d; cbn; auto. Qed.

(** The decimal digits of a positive integer start with a digit that is not
    zero. *)
Lemma toString_leading p :
  exists c t, chars (BigInt_toString (Z.pos p)) = c :: t /\ 1 <= digit_val c.
Proof.
  rewrite toString_pos.
  pose proof (Unsigned.to_of (Pos.to_uint p)) as Hn.
  rewrite Unsigned.of_to in Hn. cbn [N.to_uint] in Hn.
  pose proof (Unsigned.to_uint_nonzero p) as Hz.
  pose proof (nzhead_head (Pos.to_uint p)) as Hh.
  unfold Decimal.unorm in Hn.
  destruct (Decimal.nzhead (Pos.to_uint p)) eqn:Hnz; try (now elim Hh);
    try (now elim Hz); rewrite Hn; cbn [NilEmpty.string_of_uint chars
      list_ascii_of_string]; do 2 eexists; (split; [reflexivity|]);
    vm_compute; discriminate.
Qed.

Lemma toString_length z k :
  0 <= z < 10 ^ Z.of_nat k -> (1 <= k)%nat ->
  (List.length (chars (BigInt_toString z)) <= k)%nat.
Proof.
  intros Hz Hk. destruct z as [|p|p]; [cbn; lia| |lia].
  destruct (toString_leading p) as (c & t & Hct & Hc).
  pose proof (digits_val_toString (Z.pos p) ltac:(lia)) as Hv.
  pose proof (digits_toString (Z.pos p) ltac:(lia)) as Hd.
  rewrite Hct in Hv, Hd |- *. cbn [List.length].
  destruct (Nat.le_gt_cases (S (List.length t)) k) as [|Hgt]; [assumption|].
  exfalso. change (c :: t) with ([c] ++ t) in Hv. rewrite digits_val_app in Hv.
  change (digits_val [c]) with (10 * 0 + digit_val c) in Hv.
  cbn in Hd. apply andb_prop in Hd as [_ Hd].
  pose proof (digits_val_nonneg _ Hd).
  assert (10 ^ Z.of_nat k <= 10 ^ Z.of_nat (List.length t))
    by (apply Z.pow_le_mono_r; lia).
  nia.
Qed.

End BigIntStringFacts.

Module SmallestUnitFacts.
Import JS Exn TokenHelpers StringFacts ParseUnitsFacts BigIntStringFacts.
Local Open Scope Z_scope.

(** [10 ** d] is exact up to [d = 22]: it is finite and [BigInt] takes it
    back to [10^d]. *)
Lemma pow10_exact d :
  (d <= 22)%nat ->
  BigIntN (pow10 d) = Ok (10 ^ Z.of_nat d)
  /\ exists m e, Prim2SF (pow10 d) = S754_finite false m e.
Proof.
  intros Hd.
  do 23 (destruct d as [|d]; [split; [vm_compute; reflexivity|];
                              do 2 eexists; vm_compute; reflexivity|]).
  lia.
Qed.

Lemma dropWhile_head {A} (p : A -> bool) l c t :
  dropWhile p l = c :: t -> p c = false.
Proof.
  induction l as [|x l IH]; cbn [dropWhile]; [discriminate|].
  destruct (p x) eqn:Hx; [exact IH|]. now intros [= <- _].
Qed.

Lemma trim_no_trailing_zero l t : trimTrailingZeros l <> t ++ ["0"%char].
Proof.
  unfold trimTrailingZeros. intros H.
  apply (f_equal (@rev _)) in H. rewrite rev_involutive, rev_app_distr in H.
  apply dropWhile_head in H. discriminate H.
Qed.

Lemma length_padStart0 n l :
  (List.length l <= n)%nat -> List.length (padStart0 n l) = n.
Proof. intros H. unfold padStart0. rewrite length_app, repeat_length. lia. Qed.

Lemma digits_val_padStart0 n l : digits_val (padStart0 n l) = digits_val l.
Proof.
  unfold padStart0. rewrite digits_val_app, digits_val_zeros. lia.
Qed.

Section FromSmallestUnit.
Variable amount : string.
Variable n : Z.
Variable decimals : nat.
Hypothesis Hamount : BigInt_of_string amount = Some n.
Hypothesis Hn : 0 <= n.
Hypothesis Hd : (decimals <= 22)%nat.

Let whole := n / 10 ^ Z.of_nat decimals.
Let remainder := n mod 10 ^ Z.of_nat decimals.
Let fraction :=
  trimTrailingZeros (padStart0 decimals (chars (BigInt_toString remainder))).

Lemma fromSmallestUnit_parts :
  fromSmallestUnit (OfString amount) decimals
  = decimalString (chars (BigInt_toString whole)) fraction.
Proof.
  unfold fromSmallestUnit, BigIntS. rewrite Hamount. cbn [bind].
  destruct (pow10_exact decimals Hd) as [-> _]. cbn [bind].
  assert (Hp : 0 < 10 ^ Z.of_nat decimals) by (apply Z.pow_pos_nonneg; lia).
  unfold BigInt_div, BigInt_rem.
  replace (10 ^ Z.of_nat decimals =? 0) with false by (symmetry; apply Z.eqb_neq; lia).
  cbn [bind]. rewrite Z.quot_div_nonneg, Z.rem_mod_nonneg by lia.
  fold whole remainder fraction. unfold decimalString.
  destruct fraction; [|reflexivity].
  now rewrite List.app_nil_r, str_chars.
Qed.

Lemma fromSmallestUnit_fraction :
  forallb is_digit fraction = true
  /\ (List.length fraction <= decimals)%nat
  /\ digits_val fraction * 10 ^ Z.of_nat (decimals - List.length fraction)
     = remainder.
Proof.
  assert (Hp : 0 < 10 ^ Z.of_nat decimals) by (apply Z.pow_pos_nonneg; lia).
  assert (Hr : 0 <= remainder < 10 ^ Z.of_nat decimals)
    by (unfold remainder; apply Z.mod_pos_bound; exact Hp).
  pose proof (digits_toString remainder ltac:(lia)) as Hdig.
  split; [apply digits_trim; now apply digits_padStart0|].
  destruct (Nat.eq_dec decimals 0) as [Hz|Hnz].
  - assert (H0 : remainder = 0).
    { unfold remainder. rewrite Hz. apply Z.mod_1_r. }
    subst fraction. rewrite H0, Hz. cbn. split; [lia|reflexivity].
  - assert (Hlen : (List.length (chars (BigInt_toString remainder)) <= decimals)%nat)
      by (apply toString_length; [exact Hr|lia]).
    pose proof (length_padStart0 _ _ Hlen) as Hpad.
    split.
    + etransitivity; [apply length_trim|]. lia.
    + subst fraction.
      rewrite (digits_val_trim _ decimals) by lia.
      rewrite Hpad, Nat.sub_diag, digits_val_padStart0, digits_val_toString by lia.
      cbn. lia.
Qed.

End FromSmallestUnit.

End SmallestUnitFacts.

Module WholeAmountFacts.
Import JS Exn TokenHelpers Dyadic Binary64 FloatFacts NumberFacts.
Import StringFacts ParseUnitsFacts BigIntStringFacts SmallestUnitFacts.
Local Open Scope Z_scope.

(** A positive value has one binary64 representation. *)
Lemma fin_val_unique x y v : fin_val x v -> fin_val y v -> 0 < v -> x = y.
Proof.
  intros [(s & _ & ->)|(m1 & e1 & -> & Hb1 & Hv1)] Hy Hv; [lia|].
  destruct Hy as [(s & _ & ->)|(m2 & e2 & -> & Hb2 & Hv2)]; [lia|].
  destruct (bounded_inv _ _ Hb1) as (He1 & _).
  destruct (bounded_inv _ _ Hb2) as (He2 & _).
  assert (e1 = e2).
  { destruct (Z.lt_trichotomy e1 e2) as [Hlt|[Heq|Hgt]]; [|exact Heq|].
    - pose proof (scaled_lt_of_exp _ _ _ _ Hb1 Hb2 Hlt). lia.
    - pose proof (scaled_lt_of_exp _ _ _ _ Hb2 Hb1 ltac:(lia)). lia. }
  subst e2. assert (Z.pos m1 = Z.pos m2) by (apply (scaled_inj _ _ e1); lia).
  congruence.
Qed.

Lemma round_ratio_whole p :
  Z.pos p < 2 ^ 53 ->
  round_ratio p 1 = binary_normalize prec emax (Z.pos p) 0 false.
Proof.
  intros Hp. unfold round_ratio.
  set (s := Z.max 0 (64 + Z.log2 1 - Z.log2 (Z.pos p))).
  assert (Hs : 0 <= s <= 64).
  { unfold s. pose proof (Z.log2_nonneg (Z.pos p)). change (Z.log2 1) with 0. lia. }
  destruct (Z.div_eucl (Z.shiftl (Z.pos p) s) 1) as [q r] eqn:Hqr.
  assert (Hq : q = Z.shiftl (Z.pos p) s / 1) by (unfold Z.div; now rewrite Hqr).
  assert (Hr : r = Z.shiftl (Z.pos p) s mod 1) by (unfold Z.modulo; now rewrite Hqr).
  rewrite Z.div_1_r, Z.shiftl_mul_pow2 in Hq by lia. rewrite Z.mod_1_r in Hr.
  subst q r. cbn [Z.eqb].
  pose proof (normalize_int (Z.pos p) ltac:(lia)) as Hk.
  destruct (normalize_bounds (2 * (Z.pos p * 2 ^ s) + 0) (- s - 1) _ _ _ _
              ltac:(lia) Hk Hk) as (v & Hv & Hle).
  { rewrite (scaled_shift (Z.pos p) 0 (- s - 1)) by lia.
    replace (0 - (- s - 1)) with (s + 1) by lia.
    rewrite pow2_add by lia. change (2 ^ 1) with 2.
    replace (2 * (Z.pos p * 2 ^ s) + 0) with (Z.pos p * (2 ^ s * 2)) by lia. lia. }
  assert (v = scaled (Z.pos p) 0) by lia. subst v.
  apply (fin_val_unique _ _ _ Hv Hk). unfold scaled.
  pose proof (pow2_pos (0 + 2200)). lia.
Qed.

(** [parseFloat] of the decimal digits of a whole number below [2^53] is
    that number. *)
Lemma parseFloat_whole k :
  0 < k < 2 ^ 53 -> parseFloat (BigInt_toString k) = Number_of_BigInt k.
Proof.
  intros Hk. unfold parseFloat, Number_of_BigInt. f_equal.
  destruct k as [|p|p]; try lia.
  rewrite <- round_ratio_whole by lia.
  destruct (toString_leading p) as (c & t & Hct & Hc).
  pose proof (digits_toString (Z.pos p) ltac:(lia)) as Hd.
  pose proof (digits_val_toString (Z.pos p) ltac:(lia)) as Hv.
  unfold parseSF. rewrite (dropWhile_digits _ Hd).
  rewrite Hct in Hd |- *. rewrite <- Hct.
  pose proof Hd as Hd'. cbn [forallb] in Hd'. apply andb_prop in Hd' as [Hcd _].
  destruct (digit_cases c Hcd) as (_ & -> & -> & _ & HI & _).
  unfold chars at 1. cbn [list_ascii_of_string is_prefix].
  rewrite Hct at 1. cbn [is_prefix]. rewrite HI. cbn [andb].
  rewrite <- Hct in Hd. rewrite (span_all _ _ Hd).
  rewrite List.app_nil_r. rewrite Hct. rewrite <- Hct, Hv. reflexivity.
Qed.

Lemma Number_whole_finite k :
  0 < k < 2 ^ 53 ->
  exists m e, Prim2SF (Number_of_BigInt k) = S754_finite false m e
              /\ bounded prec emax m e = true
              /\ scaled (Z.pos m) e = scaled k 0.
Proof.
  intros Hk. destruct (Number_fin k ltac:(lia)) as [(s & _ & H0)|(m & e & H & Hb & Hv)].
  - exfalso. unfold scaled in H0. pose proof (pow2_pos (0 + 2200)). nia.
  - exists m, e. auto.
Qed.

(** [Math.floor] leaves a whole number as it is. *)
Lemma Math_floor_whole k :
  0 < k < 2 ^ 53 -> Math_floor (Number_of_BigInt k) = Number_of_BigInt k.
Proof.
  intros Hk. destruct (Number_whole_finite k Hk) as (m & e & Hx & Hb & Hv).
  unfold Math_floor. rewrite Hx.
  destruct e as [|e|e]; try reflexivity.
  destruct (bounded_inv _ _ Hb) as (He & _).
  rewrite (scaled_shift k 0 (Z.neg e)) in Hv by lia.
  apply scaled_inj in Hv; [|lia].
  cbn [cond_Zopp]. rewrite Hv, Z.shiftr_div_pow2 by lia.
  replace (0 - Z.neg e) with (Z.pos e) by lia.
  rewrite Z.div_mul by (pose proof (pow2_pos (Z.pos e)); lia).
  replace (k =? 0) with false by (symmetry; apply Z.eqb_neq; lia).
  reflexivity.
Qed.

Lemma Prim2SF_inj_zero (x : float) : Prim2SF x = S754_zero false -> x = 0%float.
Proof. intros H. apply Prim2SF_inj. now rewrite H. Qed.

Lemma toSmallestUnit_whole amount k decimals :
  0 < k < 2 ^ 53 -> (decimals <= 22)%nat ->
  amountValue amount = Number_of_BigInt k ->
  toSmallestUnit amount decimals = Ok (BigInt_toString (k * 10 ^ Z.of_nat decimals)).
Proof.
  intros Hk Hd Ha. unfold toSmallestUnit. rewrite Ha.
  pose proof (Number_fin k ltac:(lia)) as Hfin.
  assert (H1 : PrimFloat.leb 1 (Number_of_BigInt k) = true).
  { rewrite (leb_fin _ _ _ _ one_fin Hfin). apply Z.leb_le, scaled_int_le. lia. }
  destruct (at_least_one_valid _ H1) as [Hnan Hle].
  unfold isNaN. rewrite Hnan, Hle. cbn [orb].
  destruct (pow10_exact decimals Hd) as [Hf (mf & ef & Hpf)]. rewrite Hf. cbn [bind].
  rewrite (Math_floor_whole k Hk).
  unfold BigIntN at 1. rewrite (BigInt_of_Number_fin _ _ Hfin). cbn [bind].
  destruct (Number_whole_finite k Hk) as (m & e & Hx & _).
  pose proof (sub_diag_finite _ _ _ _ Hx) as Hz.
  apply Prim2SF_inj_zero in Hz. rewrite Hz.
  fold (pow10 decimals).
  assert (Hm : Prim2SF (0 * pow10 decimals)%float = S754_zero false).
  { rewrite mul_spec, Hpf. reflexivity. }
  apply Prim2SF_inj_zero in Hm. rewrite Hm.
  change (BigIntN (Math_floor 0%float)) with (Ok (E := exn) 0). cbn [bind].
  now rewrite Z.add_0_r.
Qed.

Lemma trim_zeros_all k : trimTrailingZeros (repeat "0"%char k) = [].
Proof.
  unfold trimTrailingZeros. rewrite rev_zeros.
  induction k as [|k IH]; [reflexivity|]. cbn. exact IH.
Qed.

Lemma fromSmallestUnit_whole k decimals :
  0 <= k -> (decimals <= 22)%nat ->
  fromSmallestUnit (OfString (BigInt_toString (k * 10 ^ Z.of_nat decimals))) decimals
  = BigInt_toString k.
Proof.
  intros Hk Hd.
  assert (Hp : 0 < 10 ^ Z.of_nat decimals) by (apply Z.pow_pos_nonneg; lia).
  rewrite (fromSmallestUnit_parts _ (k * 10 ^ Z.of_nat decimals));
    [|apply BigInt_of_toString|nia|exact Hd].
  rewrite Z.div_mul, Z.mod_mul by lia.
  replace (padStart0 decimals (chars (BigInt_toString 0)))
    with (repeat "0"%char (Nat.max 1 decimals)).
  - rewrite trim_zeros_all. unfold decimalString.
    now rewrite List.app_nil_r, str_chars.
  - unfold padStart0. change (chars (BigInt_toString 0)) with (repeat "0"%char 1).
    rewrite <- repeat_app. f_equal. cbn [List.length repeat]. lia.
Qed.

End WholeAmountFacts.

Module TokenAmountFacts.
Import JS Exn TokenHelpers StringFacts ParseUnitsFacts.
Import BigIntStringFacts SmallestUnitFacts WholeAmountFacts.
Local Open Scope Z_scope.

(** X1: [fromSmallestUnit] is exact up to 22 decimals.  For an amount
    string that [BigInt] reads as [n >= 0], the result is the decimal
    expansion of [n / 10^decimals]: the digits [ip] of the integer part, then,
    when the fraction [fp] is not empty, a point and [fp], which has at most
    [decimals] digits and no trailing zero, with
    [ip * 10^decimals + fp * 10^(decimals - |fp|) = n]. *)
Theorem fromSmallestUnit_exact (amount : string) (n : Z) (decimals : nat) :
  BigInt_of_string amount = Some n -> 0 <= n -> (decimals <= 22)%nat ->
  exists ip fp,
    fromSmallestUnit (OfString amount) decimals = decimalString ip fp
    /\ ip <> [] /\ is_decimal ip fp
    /\ (List.length fp <= decimals)%nat
    /\ (forall t, fp <> t ++ ["0"%char])
    /\ digits_val ip * 10 ^ Z.of_nat decimals
       + digits_val fp * 10 ^ Z.of_nat (decimals - List.length fp) = n.
Proof.
  intros Ha Hn Hd.
  assert (Hp : 0 < 10 ^ Z.of_nat decimals) by (apply Z.pow_pos_nonneg; lia).
  assert (Hw : 0 <= n / 10 ^ Z.of_nat decimals) by (apply Z.div_pos; lia).
  destruct (fromSmallestUnit_fraction n decimals Hd) as (Hfd & Hfl & Hfv).
  exists (chars (BigInt_toString (n / 10 ^ Z.of_nat decimals))),
    (trimTrailingZeros
       (padStart0 decimals (chars (BigInt_toString (n mod 10 ^ Z.of_nat decimals))))).
  split; [apply (fromSmallestUnit_parts amount n decimals Ha Hn Hd)|].
  split; [now apply toString_nonempty|].
  split; [split; [now apply digits_toString|exact Hfd]|].
  split; [exact Hfl|]. split; [apply trim_no_trailing_zero|].
  rewrite Hfv, digits_val_toString by exact Hw.
  rewrite Z.mul_comm. symmetry. apply Z.div_mod. lia.
Qed.

Lemma fromSmallestUnit_exact_witness :
  exists ip fp,
    fromSmallestUnit (OfString "1500000") 6 = decimalString ip fp
    /\ ip <> [] /\ is_decimal ip fp
    /\ (List.length fp <= 6)%nat
    /\ (forall t, fp <> t ++ ["0"%char])
    /\ digits_val ip * 10 ^ Z.of_nat 6
       + digits_val fp * 10 ^ Z.of_nat (6 - List.length fp) = 1500000.
Proof.
  apply (fromSmallestUnit_exact "1500000" 1500000 6); [reflexivity|lia|lia].
Defined.

(** X2: whole amounts are scaled exactly and come back unchanged.  For a
    whole number [0 < k < 2^53], given as a number or as its decimal digits,
    and at most 22 decimals, [toSmallestUnit] returns the digits of
    [k * 10^decimals], and [fromSmallestUnit] takes them back to the digits
    of [k]. *)
Theorem toSmallestUnit_whole_round_trip (k : Z) (decimals : nat) :
  0 < k < 2 ^ 53 -> (decimals <= 22)%nat ->
  let scaled := BigInt_toString (k * 10 ^ Z.of_nat decimals) in
  toSmallestUnit (OfNumber (Number_of_BigInt k)) decimals = Ok scaled
  /\ toSmallestUnit (OfString (BigInt_toString k)) decimals = Ok scaled
  /\ fromSmallestUnit (OfString scaled) decimals = BigInt_toString k.
Proof.
  intros Hk Hd scaled. subst scaled. repeat split.
  - now apply toSmallestUnit_whole.
  - apply toSmallestUnit_whole; [exact Hk|exact Hd|]. now apply parseFloat_whole.
  - apply fromSmallestUnit_whole; [lia|exact Hd].
Qed.

Lemma toSmallestUnit_whole_round_trip_witness :
  toSmallestUnit (OfNumber 25%float) 18 = Ok "25000000000000000000"%string
  /\ toSmallestUnit (OfString "25") 18 = Ok "25000000000000000000"%string
  /\ fromSmallestUnit (OfString "25000000000000000000") 18 = "25"%string.
Proof.
  apply (toSmallestUnit_whole_round_trip 25 18); [lia|lia].
Defined.

Lemma parseUnits_whole ip :
  forallb is_digit ip = true ->
  parseUnits (decimalString ip []) 0 = Ok (digits_val ip).
Proof.
  intros Hi. rewrite parseUnits_decimal by (split; [exact Hi|reflexivity]).
  unfold scaleParts. cbn [Nat.eqb trimTrailingZeros rev dropWhile].
  change (round_of_string ["."%char]) with (@None Z). cbn [bind app].
  rewrite List.app_nil_r. now apply BigIntS_digits.
Qed.

(** X3: [parseUnits] takes the string [fromSmallestUnit] writes back to
    the amount.  For [n >= 0] and at most 22 decimals,
    [parseUnits(fromSmallestUnit(n.toString(), d), d)] is [n]. *)
Theorem parseUnits_fromSmallestUnit (n : Z) (decimals : nat) :
  0 <= n -> (decimals <= 22)%nat ->
  parseUnits (fromSmallestUnit (OfString (BigInt_toString n)) decimals) decimals
  = Ok n.
Proof.
  intros Hn Hd.
  assert (Hp : 0 < 10 ^ Z.of_nat decimals) by (apply Z.pow_pos_nonneg; lia).
  assert (Hw : 0 <= n / 10 ^ Z.of_nat decimals) by (apply Z.div_pos; lia).
  rewrite (fromSmallestUnit_parts _ n decimals (BigInt_of_toString n) Hn Hd).
  destruct (fromSmallestUnit_fraction n decimals Hd) as (Hfd & Hfl & Hfv).
  pose proof (digits_toString _ Hw) as Hid.
  destruct (Nat.eq_dec decimals 0) as [Hz|Hnz].
  - set (fp := trimTrailingZeros _) in *.
    assert (fp = []) by (destruct fp; [reflexivity|cbn in Hfl; lia]).
    rewrite H, Hz. rewrite parseUnits_whole by (rewrite <- Hz; exact Hid).
    rewrite <- Hz, digits_val_toString by exact Hw.
    rewrite Hz. cbn. now rewrite Z.div_1_r.
  - rewrite parseUnits_scaled; [|split; assumption|lia|exact Hfl].
    rewrite Hfv, digits_val_toString by exact Hw.
    f_equal. rewrite Z.mul_comm. symmetry. apply Z.div_mod. lia.
Qed.

Lemma parseUnits_fromSmallestUnit_witness :
  parseUnits (fromSmallestUnit (OfString "1234500") 6) 6 = Ok 1234500.
Proof. apply (parseUnits_fromSmallestUnit 1234500 6); lia. Defined.

Section Chain.
Variable getNativeCurrencyDecimals : Z -> nat.

Let escrow := getEscrowAmounts getNativeCurrencyDecimals.
Let subscription := getSubscriptionAmount getNativeCurrencyDecimals.

Lemma getSubscriptionAmount_agrees amount chainId pair :
  escrow amount chainId = Ok pair ->
  subscription amount chainId = Ok (transactionValue pair).
Proof.
  unfold escrow, subscription, getEscrowAmounts, getSubscriptionAmount.
  destruct (isHederaChain chainId).
  - destruct (parseUnits amount 8); [|discriminate]. cbn [bind].
    destruct (parseUnits amount 18); [|discriminate]. cbn [bind].
    now intros [= <-].
  - destruct (parseNativeAmount _ amount chainId); [|discriminate]. cbn [bind].
    now intros [= <-].
Qed.

Lemma getSubscriptionAmount_returns ip fp chainId :
  is_decimal ip fp -> exists n, subscription (decimalString ip fp) chainId = Ok n.
Proof.
  intros Hdec. unfold subscription, getSubscriptionAmount, parseNativeAmount.
  destruct (isHederaChain chainId); now apply parseUnits_returns.
Qed.

Lemma normalize_scaled (c : Z) expected chainId :
  0 <= c -> isHederaChain chainId = true ->
  normalizeTransactionValue (OfBigInt (c * 10 ^ 10)) expected chainId
  = Ok {| normalizedTxValue := BigInt_toString c; normalizedExpected := expected |}.
Proof.
  intros Hc Hh. unfold normalizeTransactionValue. rewrite Hh.
  unfold BigIntS. rewrite BigInt_of_toString. cbn [bind].
  destruct (pow10_exact 10 ltac:(lia)) as [-> _]. cbn [bind].
  unfold BigInt_div. change (10 ^ Z.of_nat 10 =? 0) with false. cbn [bind].
  change (Z.of_nat 10) with 10.
  rewrite Z.quot_div_nonneg, Z.div_mul by lia. reflexivity.
Qed.

End Chain.

(** X4: the value a subscription payment sends is the value an escrow of
    the same amount sends.  Whenever [getEscrowAmounts] returns a pair,
    [getSubscriptionAmount] returns its [transactionValue], for every amount
    string and chain; and on every decimal amount string it returns. *)
Theorem getSubscriptionAmount_is_transactionValue
    (getNativeCurrencyDecimals : Z -> nat) (chainId : Z) :
  (forall amount pair,
     getEscrowAmounts getNativeCurrencyDecimals amount chainId = Ok pair ->
     getSubscriptionAmount getNativeCurrencyDecimals amount chainId
     = Ok (transactionValue pair))
  /\ (forall ip fp,
        is_decimal ip fp ->
        exists n,
          getSubscriptionAmount getNativeCurrencyDecimals (decimalString ip fp) chainId
          = Ok n).
Proof.
  split.
  - intros amount pair. apply getSubscriptionAmount_agrees.
  - intros ip fp. apply getSubscriptionAmount_returns.
Qed.

Lemma getSubscriptionAmount_is_transactionValue_witness :
  getSubscriptionAmount (fun _ => 18%nat) "1.5" 296 = Ok 1500000000000000000.
Proof.
  destruct (getSubscriptionAmount_is_transactionValue (fun _ => 18%nat) 296) as [H _].
  apply (H "1.5"%string
           {| contractAmount := 150000000; transactionValue := 1500000000000000000 |}).
  reflexivity.
Defined.

(** X5: [normalizeTransactionValue] undoes the rescaling of
    [getEscrowAmounts].  For a decimal amount (of at most 8 fractional digits
    on the Hedera chains 295 and 296), [getEscrowAmounts] returns a pair, and
    normalising its [transactionValue] gives the decimal digits of its
    [contractAmount], with the expected amount passed through. *)
Theorem normalizeTransactionValue_contractAmount
    (getNativeCurrencyDecimals : Z -> nat)
    (ip fp : list ascii) (chainId : Z) (expected : string) :
  is_decimal ip fp ->
  (isHederaChain chainId = true -> (List.length fp <= 8)%nat) ->
  exists pair,
    getEscrowAmounts getNativeCurrencyDecimals (decimalString ip fp) chainId = Ok pair
    /\ normalizeTransactionValue (OfBigInt (transactionValue pair)) expected chainId
       = Ok {| normalizedTxValue := BigInt_toString (contractAmount pair);
               normalizedExpected := expected |}.
Proof.
  intros Hdec Hlen. unfold getEscrowAmounts, parseNativeAmount.
  destruct (isHederaChain chainId) eqn:Hh.
  - specialize (Hlen eq_refl).
    rewrite (parseUnits_scaled ip fp 8), (parseUnits_scaled ip fp 18);
      try assumption; try lia.
    cbn [bind]. eexists. split; [reflexivity|]. cbn [transactionValue contractAmount].
    set (c := digits_val ip * 10 ^ Z.of_nat 8
              + digits_val fp * 10 ^ Z.of_nat (8 - List.length fp)).
    assert (Hc : 0 <= c).
    { destruct Hdec as [Hi Hf].
      pose proof (digits_val_nonneg _ Hi). pose proof (digits_val_nonneg _ Hf).
      assert (0 < 10 ^ Z.of_nat (8 - List.length fp)) by (apply Z.pow_pos_nonneg; lia).
      unfold c. change (10 ^ Z.of_nat 8) with 100000000. nia. }
    replace (digits_val ip * 10 ^ Z.of_nat 18
             + digits_val fp * 10 ^ Z.of_nat (18 - List.length fp))
      with (c * 10 ^ 10).
    + now apply normalize_scaled.
    + unfold c.
      replace (18 - List.length fp)%nat with (8 - List.length fp + 10)%nat by lia.
      rewrite Nat2Z.inj_add, Z.pow_add_r by lia.
      change (Z.of_nat 18) with (8 + 10). change (Z.of_nat 8) with 8.
      change (Z.of_nat 10) with 10.
      rewrite (Z.pow_add_r 10 8 10) by lia. ring.
  - destruct (parseUnits_returns ip fp (getNativeCurrencyDecimals chainId) Hdec)
      as [n ->].
    cbn [bind]. eexists. split; [reflexivity|].
    unfold normalizeTransactionValue. rewrite Hh. reflexivity.
Qed.

Lemma normalizeTransactionValue_contractAmount_witness :
  exists pair,
    getEscrowAmounts (fun _ => 18%nat) "100.5" 296 = Ok pair
    /\ normalizeTransactionValue (OfBigInt (transactionValue pair)) "10050000000" 296
       = Ok {| normalizedTxValue := BigInt_toString (contractAmount pair);
               normalizedExpected := "10050000000" |}.
Proof.
  apply (normalizeTransactionValue_contractAmount (fun _ => 18%nat)
           (chars "100") (chars "5") 296 "10050000000");
    [split; reflexivity | intros _; cbn; lia].
Defined.

End TokenAmountFacts.

Module RetryRunFacts.
Import JS Exn ApiRetry FloatFacts.

Lemma not_nan_compare (x : float) :
  PrimFloat.is_nan x = false -> SFcompare (Prim2SF x) (Prim2SF x) = Some Eq.
Proof.
  unfold PrimFloat.is_nan. rewrite eqb_spec. unfold SFeqb.
  destruct (SFcompare (Prim2SF x) (Prim2SF x)) as [[]|]; cbn; congruence.
Qed.

Lemma compare_defined (x y : float) :
  PrimFloat.is_nan x = false -> PrimFloat.is_nan y = false ->
  exists c, SFcompare (Prim2SF x) (Prim2SF y) = Some c.
Proof.
  intros Hx Hy. apply not_nan_compare in Hx, Hy.
  destruct (Prim2SF x), (Prim2SF y); cbn in *; try discriminate; eauto.
Qed.

(** [Math.min(x, y)] is not above [y], unless it is NaN. *)
Lemma Math_min_capped (x y : float) : capped y (Math_min x y).
Proof.
  unfold capped, Math_min.
  destruct (PrimFloat.is_nan x) eqn:Hx; [now left|].
  destruct (PrimFloat.is_nan y) eqn:Hy; [now left|]. right.
  destruct (compare_defined x y Hx Hy) as [c Hc].
  assert (Hxy : PrimFloat.ltb x y = match c with Lt => true | _ => false end).
  { rewrite ltb_spec. unfold SFltb. rewrite Hc. now destruct c. }
  assert (Hyx : PrimFloat.ltb y x = match c with Gt => true | _ => false end).
  { rewrite ltb_spec. unfold SFltb. rewrite SFcompare_swap, Hc. now destruct c. }
  assert (Hle : c <> Gt -> PrimFloat.leb x y = true).
  { intros Hne. rewrite leb_spec. unfold SFleb. rewrite Hc. now destruct c. }
  assert (Hyy : PrimFloat.leb y y = true).
  { rewrite leb_spec. unfold SFleb. now rewrite (not_nan_compare y Hy). }
  rewrite Hxy, Hyx. destruct c.
  - destruct (PrimFloat.get_sign x); [apply Hle; discriminate|exact Hyy].
  - apply Hle. discriminate.
  - exact Hyy.
Qed.

Section Run.
Variable Math_pow : float -> Z -> float.
Context {T : Type}.
Variable fn : nat -> result exn T.
Variable random : nat -> float.
Variable config : RetryConfig.

Let loop := withRetry_loop Math_pow fn random config.

Lemma sleeps_app t1 t2 : sleeps (t1 ++ t2) = sleeps t1 ++ sleeps t2.
Proof. unfold sleeps. apply flat_map_app. Qed.

Lemma rateLimitedRetries_app t1 t2 :
  rateLimitedRetries (t1 ++ t2) = rateLimitedRetries t1 + rateLimitedRetries t2.
Proof. unfold rateLimitedRetries. now rewrite filter_app, length_app. Qed.

(** The loop invariant on the counters: entered at [attempt] with the [n]
    iterations that remain, the loop makes at most [n] calls, pauses once
    between two calls, and draws one random number for each retry after a
    rate-limit error. *)
Lemma withRetry_loop_counts (n : nat) (attempt : Z) (lastError : exn) (w : world) :
  (Z.of_nat n + attempt = maxRetries config + 2)%Z ->
  forall r w', loop n attempt lastError w = (r, w') ->
  calls w' <= calls w + n
  /\ (n = 0 -> w' = w)
  /\ (0 < n ->
      calls w' + List.length (sleeps (trace w))
      = calls w + List.length (sleeps (trace w')) + 1)
  /\ draws w' + rateLimitedRetries (trace w)
     = draws w + rateLimitedRetries (trace w').
Proof.
  revert attempt lastError w.
  induction n as [|n IH]; intros attempt lastError w Hn r w' Hrun.
  - cbn in Hrun. injection Hrun as <- <-. repeat split; lia.
  - unfold loop in Hrun. cbn [withRetry_loop] in Hrun. fold loop in Hrun.
    destruct (fn (calls w)) as [v|error].
    { injection Hrun as <- <-. cbn [calls draws trace]. repeat split; try lia; intros; lia. }
    destruct ((maxRetries config <? attempt)%Z || negb (isRetryableError error))
      eqn:Hstop.
    { injection Hrun as <- <-. cbn [calls draws trace]. repeat split; try lia; intros; lia. }
    apply orb_false_iff in Hstop as [Hle _]. apply Z.ltb_ge in Hle.
    assert (Hn' : (Z.of_nat n + (attempt + 1) = maxRetries config + 2)%Z) by lia.
    assert (Hpos : 0 < n) by lia.
    cbn [calls draws trace] in Hrun.
    destruct (onRetry config) as [callback|].
    + destruct (callback attempt error _) as [[]|thrown].
      * destruct (IH _ _ _ Hn' _ _ Hrun) as (Hc & _ & Hs & Hd).
        specialize (Hs Hpos). cbn [calls draws trace] in Hc, Hs, Hd.
        rewrite !sleeps_app, !length_app in Hs.
        rewrite !rateLimitedRetries_app in Hd. cbn in Hs, Hd.
        repeat split; try lia; try (intros; lia).
        destruct (isRateLimitError error); cbn in Hd; lia.
      * injection Hrun as <- <-. cbn [calls draws trace].
        rewrite sleeps_app, length_app, rateLimitedRetries_app. cbn.
        repeat split; try lia; try (intros; lia).
        destruct (isRateLimitError error); cbn; lia.
    + destruct (IH _ _ _ Hn' _ _ Hrun) as (Hc & _ & Hs & Hd).
      specialize (Hs Hpos). cbn [calls draws trace] in Hc, Hs, Hd.
      rewrite !sleeps_app, !length_app in Hs.
      rewrite !rateLimitedRetries_app in Hd. cbn in Hs, Hd.
      repeat split; try lia; try (intros; lia).
      destruct (isRateLimitError error); cbn in Hd; lia.
Qed.

(** Every value the operation's caller gets was returned by a call of the
    operation. *)
Lemma withRetry_loop_value (n : nat) (attempt : Z) (lastError : exn) (w : world) :
  forall v w', loop n attempt lastError w = (Ok v, w') ->
  exists i, calls w <= i < calls w' /\ fn i = Ok v.
Proof.
  revert attempt lastError w.
  induction n as [|n IH]; intros attempt lastError w v w' Hrun.
  - discriminate Hrun.
  - unfold loop in Hrun. cbn [withRetry_loop] in Hrun. fold loop in Hrun.
    destruct (fn (calls w)) as [v0|error] eqn:Hfn.
    { injection Hrun as <- <-. exists (calls w). cbn. split; [lia|exact Hfn]. }
    destruct ((maxRetries config <? attempt)%Z || negb (isRetryableError error));
      [discriminate|].
    cbn [calls draws trace] in Hrun.
    destruct (onRetry config) as [callback|].
    + destruct (callback attempt error _) as [[]|thrown]; [|discriminate].
      destruct (IH _ _ _ _ _ Hrun) as (i & Hi & Hv). cbn [calls] in Hi.
      exists i. split; [lia|exact Hv].
    + destruct (IH _ _ _ _ _ Hrun) as (i & Hi & Hv). cbn [calls] in Hi.
      exists i. split; [lia|exact Hv].
Qed.

Section Capped.
Import NumberFacts.
Variables a b : Z.
Hypothesis Hab : (0 <= a <= b)%Z.
Hypothesis Hb : (b < 2 ^ 53)%Z.
Hypothesis Hmin : minRetryDelayMs config = Number_of_BigInt a.
Hypothesis Hmax : maxRetryDelayMs config = Number_of_BigInt b.
Hypothesis Hrandom :
  forall i, PrimFloat.leb 0 (random i) = true /\ PrimFloat.ltb (random i) 1 = true.

Lemma calculateRetryDelay_capped attempt isRateLimit i :
  capped (maxRetryDelayMs config)
    (calculateRetryDelay Math_pow attempt config isRateLimit (random i)).
Proof.
  unfold calculateRetryDelay. destruct isRateLimit.
  - right. rewrite Hmin, Hmax.
    destruct (Hrandom i) as [H0 H1].
    destruct (ApiRetryFacts.jitter_between a b (random i) Hab Hb H0 H1)
      as (d & _ & _ & _ & Hhi).
    exact Hhi.
  - apply Math_min_capped.
Qed.

Lemma withRetry_loop_capped (n : nat) (attempt : Z) (lastError : exn) (w : world) :
  Forall (capped (maxRetryDelayMs config)) (sleeps (trace w)) ->
  forall r w', loop n attempt lastError w = (r, w') ->
  Forall (capped (maxRetryDelayMs config)) (sleeps (trace w')).
Proof.
  revert attempt lastError w.
  induction n as [|n IH]; intros attempt lastError w Hw r w' Hrun.
  - cbn in Hrun. now injection Hrun as <- <-.
  - unfold loop in Hrun. cbn [withRetry_loop] in Hrun. fold loop in Hrun.
    destruct (fn (calls w)) as [v|error].
    { now injection Hrun as <- <-. }
    destruct ((maxRetries config <? attempt)%Z || negb (isRetryableError error)).
    { now injection Hrun as <- <-. }
    cbn [calls draws trace] in Hrun.
    pose proof (calculateRetryDelay_capped attempt (isRateLimitError error) (draws w))
      as Hcap.
    destruct (onRetry config) as [callback|].
    + destruct (callback attempt error _) as [[]|thrown].
      * apply (IH _ _ _) in Hrun; [exact Hrun|]. cbn [trace].
        rewrite !sleeps_app. cbn. rewrite List.app_nil_r.
        apply Forall_app. split; [exact Hw|]. now constructor.
      * injection Hrun as <- <-. cbn [trace]. rewrite sleeps_app. cbn.
        now rewrite List.app_nil_r.
    + apply (IH _ _ _) in Hrun; [exact Hrun|]. cbn [trace].
      rewrite sleeps_app. cbn.
      apply Forall_app. split; [exact Hw|]. now constructor.
Qed.

End Capped.
End Run.

(** The counters of a whole run. *)
Lemma withRetry_run_counts (Math_pow : float -> Z -> float) (T : Type)
    (fn : nat -> result exn T) (random : nat -> float) (config : RetryConfig) :
  let w := snd (withRetry Math_pow fn random config start) in
  calls w <= Z.to_nat (maxRetries config + 1)
  /\ List.length (sleeps (trace w)) = calls w - 1
  /\ draws w = rateLimitedRetries (trace w).
Proof.
  intros w. subst w. unfold withRetry.
  destruct (withRetry_loop Math_pow fn random config
              (Z.to_nat (maxRetries config + 1)) 1 Nullish start) as [r w] eqn:Hrun.
  cbn [snd].
  destruct (Z.to_nat (maxRetries config + 1)) as [|n] eqn:Hn.
  - cbn in Hrun. injection Hrun as <- <-. cbn. repeat split; lia.
  - destruct (withRetry_loop_counts Math_pow fn random config (S n) 1 Nullish start
                ltac:(lia) r w Hrun) as (Hc & _ & Hs & Hd).
    specialize (Hs ltac:(lia)). cbn in Hc, Hs, Hd. repeat split; lia.
Qed.

End RetryRunFacts.

(** ** The attempts of [withRetry], by class of error *)
Module RetryAttemptsFacts.
Import JS Exn ApiRetry ApiRetryFacts RetryRunFacts.

Lemma carries_status_of e s :
  s <> 0%Z -> (carriesStatus e s <-> status_of e = Some s).
Proof.
  intros Hs. unfold status_of, truthy_status. split.
  - intros [H _|[H|H] Hc _|[H|H] [Hc|Hc] Hr]; rewrite ?H, ?Hc; cbn;
      try (apply Z.eqb_neq in Hs; rewrite Hs; reflexivity);
      try assumption.
  - destruct (status e) as [x|] eqn:Hst.
    + destruct (Z.eqb_spec x 0) as [->|Hx]; cbn.
      * destruct (statusCode e) as [y|] eqn:Hsc.
        -- destruct (Z.eqb_spec y 0) as [->|Hy]; cbn.
           ++ intros Hr. apply InResponse; unfold unset; auto.
           ++ intros [= ->]. apply InStatusCode; unfold unset; auto.
        -- cbn. intros Hr. apply InResponse; unfold unset; auto.
      * intros [= ->]. now apply InStatus.
    + cbn. destruct (statusCode e) as [y|] eqn:Hsc.
      * destruct (Z.eqb_spec y 0) as [->|Hy]; cbn.
        -- intros Hr. apply InResponse; unfold unset; auto.
        -- intros [= ->]. apply InStatusCode; unfold unset; auto.
      * cbn. intros Hr. apply InResponse; unfold unset; auto.
Qed.

Lemma mentions_lower e keyword :
  keyword <> ""%string ->
  (mentions e keyword <-> includes (message_lower e) keyword = true).
Proof.
  intros Hk. unfold mentions, message_lower. destruct (message e) as [m|].
  - split; [intros (m' & [= <-] & H); exact H|eauto].
  - split; [intros (m' & H & _); discriminate H|].
    unfold includes. destruct keyword as [|c k]; [now elim Hk|]. discriminate.
Qed.

Lemma rate_limit_match (o : option Z) (b : bool) :
  match o with Some 429%Z => true | _ => b end
  = (match o with Some s => (s =? 429)%Z | None => false end || b).
Proof.
  destruct o as [z|]; [|reflexivity].
  destruct (Z.eqb_spec z 429) as [->|Hz]; [reflexivity|]. cbn [orb].
  destruct z as [|p|p]; try reflexivity.
  assert (Hp : p <> 429%positive) by congruence.
  repeat match goal with
         | |- context [match ?q with _ => _ end] => destruct q
         end; try reflexivity; contradiction.
Qed.

(** [isRetryableError] accepts exactly the errors of the classes. *)
Lemma isRetryableError_classes error :
  isRetryableError error = true <-> RetryableClass error.
Proof.
  destruct error as [|e]; [split; [discriminate|inversion 1]|].
  unfold isRetryableError, isRateLimitError. cbv zeta.
  rewrite rate_limit_match.
  assert (Hm : forall k, k <> ""%string ->
             includes (message_lower e) k = true <-> mentions e k)
    by (intros; symmetry; now apply mentions_lower).
  split.
  - intros H.
    destruct (status_of e) as [s|] eqn:Hs.
    + destruct (Z.eqb_spec s 429) as [->|H429].
      { apply RateLimitStatus. apply carries_status_of; [lia|exact Hs]. }
      cbn [orb] in H.
      destruct (includes (message_lower e) "rate limit") eqn:H1.
      { apply RateLimitMessage. left. now apply Hm. }
      destruct (includes (message_lower e) "too many requests") eqn:H2.
      { apply RateLimitMessage. right; left. now apply Hm. }
      destruct (includes (message_lower e) "429") eqn:H3.
      { apply RateLimitMessage. right; right. now apply Hm. }
      cbn [orb] in H.
      destruct (includes (message_lower e) "network") eqn:H4.
      { apply NetworkError. left. now apply Hm. }
      destruct (includes (message_lower e) "timeout") eqn:H5.
      { apply NetworkError. right; left. now apply Hm. }
      destruct (includes (message_lower e) "econnrefused") eqn:H6.
      { apply NetworkError. right; right; left. now apply Hm. }
      destruct (includes (message_lower e) "enotfound") eqn:H7.
      { apply NetworkError. right; right; right. now apply Hm. }
      cbn [orb] in H. unfold truthy_status in H.
      destruct (Z.eqb_spec s 0) as [->|H0]; [discriminate|]. cbn [negb] in H.
      apply orb_true_iff in H as [H|H].
      * apply orb_true_iff in H as [H|H].
        -- apply Z.leb_le in H. apply (ServerError e s); [|exact H].
           apply carries_status_of; [lia|exact Hs].
        -- apply Z.eqb_eq in H. subst s. apply RequestTimeout.
           apply carries_status_of; [lia|exact Hs].
      * discriminate H.
    + cbn [orb] in H.
      destruct (includes (message_lower e) "rate limit") eqn:H1.
      { apply RateLimitMessage. left. now apply Hm. }
      destruct (includes (message_lower e) "too many requests") eqn:H2.
      { apply RateLimitMessage. right; left. now apply Hm. }
      destruct (includes (message_lower e) "429") eqn:H3.
      { apply RateLimitMessage. right; right. now apply Hm. }
      cbn [orb] in H.
      destruct (includes (message_lower e) "network") eqn:H4.
      { apply NetworkError. left. now apply Hm. }
      destruct (includes (message_lower e) "timeout") eqn:H5.
      { apply NetworkError. right; left. now apply Hm. }
      destruct (includes (message_lower e) "econnrefused") eqn:H6.
      { apply NetworkError. right; right; left. now apply Hm. }
      destruct (includes (message_lower e) "enotfound") eqn:H7.
      { apply NetworkError. right; right; right. now apply Hm. }
      discriminate H.
  - assert (Hst : forall s, s <> 0%Z -> carriesStatus e s ->
                    (500 <= s \/ s = 408 \/ s = 429)%Z ->
                    (if match status_of e with
                        | Some s0 => (s0 =? 429)%Z
                        | None => false
                        end
                        || (includes (message_lower e) "rate limit"
                            || includes (message_lower e) "too many requests"
                            || includes (message_lower e) "429")
                     then true
                     else
                       if includes (message_lower e) "network"
                          || includes (message_lower e) "timeout"
                          || includes (message_lower e) "econnrefused"
                          || includes (message_lower e) "enotfound"
                       then true
                       else
                         if truthy_status (status_of e)
                         then match status_of e with
                              | Some s0 => (500 <=? s0)%Z || (s0 =? 408)%Z || (s0 =? 429)%Z
                              | None => false
                              end
                         else false) = true).
    { intros s Hs0 Hc Hcases. apply carries_status_of in Hc; [|exact Hs0].
      rewrite Hc. unfold truthy_status.
      apply Z.eqb_neq in Hs0. rewrite Hs0. cbn [negb].
      assert (((500 <=? s)%Z || (s =? 408)%Z || (s =? 429)%Z) = true) as ->.
      { destruct Hcases as [H|[->| ->]]; [|reflexivity|reflexivity].
        apply Z.leb_le in H. now rewrite H. }
      repeat match goal with
             | |- (if ?c then _ else _) = true => destruct c
             end; reflexivity. }
    inversion 1 as [e' Hc|e' Hmn|e' s Hc Hs|e' Hc|e' Hmn]; subst e'.
    + apply (Hst 429%Z); [lia|exact Hc|lia].
    + assert (includes (message_lower e) "rate limit"
              || includes (message_lower e) "too many requests"
              || includes (message_lower e) "429" = true) as ->.
      { destruct Hmn as [H1|[H1|H1]]; apply Hm in H1; try discriminate;
          rewrite H1; rewrite ?orb_true_r; reflexivity. }
      now rewrite orb_true_r.
    + apply (Hst s); [lia|exact Hc|lia].
    + apply (Hst 408%Z); [lia|exact Hc|lia].
    + assert (includes (message_lower e) "network"
              || includes (message_lower e) "timeout"
              || includes (message_lower e) "econnrefused"
              || includes (message_lower e) "enotfound" = true) as ->.
      { destruct Hmn as [H1|[H1|[H1|H1]]]; apply Hm in H1; try discriminate;
          rewrite H1; rewrite ?orb_true_r; reflexivity. }
      now destruct (_ || _).
Qed.

(** C4, as the code has it: with [maxRetries = n >= 0] and an observer
    that returns normally, [withRetry] (i) calls an operation that fails at
    every attempt with an error of a retryable class (HTTP 429 or a rate-limit
    message, HTTP 500 and above, HTTP 408, a network-class message) exactly
    [n + 1] times and throws the error of the last call, after [n] pauses;
    (ii) throws an error of no such class at once, at the attempt it occurs (a
    single attempt when it is the first), with no pause after it; (iii)
    returns the result of the first successful attempt [k <= n + 1], with no
    further call. *)
Theorem withRetry_attempts (Math_pow : float -> Z -> float) (T : Type)
    (fn : nat -> result exn T) (random : nat -> float) (config : RetryConfig) :
  (0 <= maxRetries config)%Z ->
  callback_returns config ->
  let n := Z.to_nat (maxRetries config) in
  let retried i := exists e, fn i = Throw e /\ RetryableClass e in
  ((forall i, retried i) ->
   exists e w,
     fn n = Throw e
     /\ withRetry Math_pow fn random config start = (Throw e, w)
     /\ calls w = S n /\ List.length (sleeps (trace w)) = n)
  /\ (forall k e,
        k <= n -> (forall i, i < k -> retried i) ->
        fn k = Throw e -> ~ RetryableClass e ->
        exists w,
          withRetry Math_pow fn random config start = (Throw e, w)
          /\ calls w = S k /\ List.length (sleeps (trace w)) = k)
  /\ (forall k v,
        k <= n -> (forall i, i < k -> retried i) ->
        fn k = Ok v ->
        exists w,
          withRetry Math_pow fn random config start = (Ok v, w)
          /\ calls w = S k /\ List.length (sleeps (trace w)) = k).
Proof.
  intros Hmax Hcb n retried.
  assert (Hre : forall i, retried i -> fails_retryably fn i).
  { intros i (e & Hfn & Hc). exists e. split; [exact Hfn|].
    now apply isRetryableError_classes. }
  assert (Hsl : forall w,
             snd (withRetry Math_pow fn random config start) = w ->
             List.length (sleeps (trace w)) = calls w - 1).
  { intros w <-.
    pose proof (withRetry_run_counts Math_pow T fn random config) as H.
    cbv zeta in H. lia. }
  repeat split.
  - intros Hall. destruct (Hall n) as (e & Hfn & Hc).
    destruct (withRetry_settles Math_pow fn random config Hmax Hcb n)
      as (w & Hrun & Hcalls & _).
    + subst n. lia.
    + intros i _. apply Hre, Hall.
    + unfold settles. rewrite Hfn. right. subst n. lia.
    + exists e, w. rewrite Hrun, Hfn. repeat split; try assumption.
      rewrite (Hsl w) by now rewrite Hrun. lia.
  - intros k e Hk Hfail Hfn Hnr.
    destruct (withRetry_settles Math_pow fn random config Hmax Hcb k)
      as (w & Hrun & Hcalls & _).
    + subst n. lia.
    + intros i Hi. now apply Hre, Hfail.
    + unfold settles. rewrite Hfn. left.
      destruct (isRetryableError e) eqn:Hr; [|reflexivity].
      elim Hnr. now apply isRetryableError_classes.
    + exists w. rewrite Hrun, Hfn. repeat split; try assumption.
      rewrite (Hsl w) by now rewrite Hrun. lia.
  - intros k v Hk Hfail Hfn.
    destruct (withRetry_settles Math_pow fn random config Hmax Hcb k)
      as (w & Hrun & Hcalls & _).
    + subst n. lia.
    + intros i Hi. now apply Hre, Hfail.
    + unfold settles. now rewrite Hfn.
    + exists w. rewrite Hrun, Hfn. repeat split; try assumption.
      rewrite (Hsl w) by now rewrite Hrun. lia.
Qed.

Lemma withRetry_attempts_witness :
  exists w,
    withRetry pow_by_mult flaky (fun _ => 0.5%float) policy start = (Ok 42, w)
    /\ calls w = 2 /\ List.length (sleeps (trace w)) = 1.
Proof.
  destruct (withRetry_attempts pow_by_mult nat flaky (fun _ => 0.5%float) policy)
    as (_ & _ & Hok).
  - cbn. lia.
  - intros cb Hcb. discriminate Hcb.
  - apply (Hok 1 42).
    + cbn. lia.
    + intros i Hi. assert (i = 0) by lia. subst i.
      eexists. split; [reflexivity|].
      apply (ServerError _ 503%Z); [|lia].
      apply InStatus; [reflexivity|discriminate].
    + reflexivity.
Defined.

(** C4, the counterexample: the observer of the policy is called before
    the pause and may itself throw.  With [maxRetries = 2] and an operation
    that fails with HTTP 503 at every attempt, an observer that throws ends
    the run after one attempt, not three, and what is thrown is the observer's
    error, not the operation's. *)
Lemma withRetry_throwing_observer :
  RetryableClass
    (Obj {| status := Some 503%Z; statusCode := None;
            response_status := None; message := Some "unavailable"%string |})
  /\ maxRetries throwingObserver = 2%Z
  /\ exists w,
       withRetry pow_by_mult unavailable (fun _ => 0.5%float) throwingObserver start
       = (Throw (Error "observer failed"), w)
       /\ calls w = 1
       /\ unavailable 2 <> Throw (Error "observer failed").
Proof.
  split.
  { apply (ServerError _ 503%Z); [|lia]. apply InStatus; [reflexivity|discriminate]. }
  split; [reflexivity|].
  eexists. split; [vm_compute; reflexivity|]. split; [reflexivity|discriminate].
Qed.

End RetryAttemptsFacts.

Module RetryExtraFacts.
Import JS Exn ApiRetry RetryRunFacts.

(** X6: the counters of a run of [withRetry], whatever the operation, the
    observer and the random source do: the operation is called at most
    [maxRetries + 1] times (never, when that is not positive); there is
    exactly one pause between two calls, so one less than calls; and a random
    number is drawn exactly for the retries announced for a rate-limit
    error. *)
Theorem withRetry_counts (Math_pow : float -> Z -> float) (T : Type)
    (fn : nat -> result exn T) (random : nat -> float) (config : RetryConfig) :
  let w := snd (withRetry Math_pow fn random config start) in
  calls w <= Z.to_nat (maxRetries config + 1)
  /\ List.length (sleeps (trace w)) = calls w - 1
  /\ draws w = rateLimitedRetries (trace w).
Proof. apply withRetry_run_counts. Qed.

(** X7: [withRetry] never pauses longer than [maxRetryDelayMs].  When the
    two delays of the policy are whole numbers [a <= b] of milliseconds and
    [Math.random()] stays in [0, 1), every pause of every run is at most
    [maxRetryDelayMs], or NaN (no delay for [setTimeout]) when [Math.pow]
    gives NaN. *)
Theorem withRetry_sleeps_capped (Math_pow : float -> Z -> float) (T : Type)
    (fn : nat -> result exn T) (random : nat -> float) (config : RetryConfig)
    (a b : Z) :
  (0 <= a <= b)%Z -> (b < 2 ^ 53)%Z ->
  minRetryDelayMs config = Number_of_BigInt a ->
  maxRetryDelayMs config = Number_of_BigInt b ->
  (forall i, PrimFloat.leb 0 (random i) = true /\ PrimFloat.ltb (random i) 1 = true) ->
  Forall (capped (maxRetryDelayMs config))
    (sleeps (trace (snd (withRetry Math_pow fn random config start)))).
Proof.
  intros Hab Hb Hmin Hmax Hrandom. unfold withRetry.
  destruct (withRetry_loop Math_pow fn random config
              (Z.to_nat (maxRetries config + 1)) 1 Nullish start) as [r w] eqn:Hrun.
  cbn [snd].
  apply (withRetry_loop_capped Math_pow fn random config a b Hab Hb Hmin Hmax Hrandom
           _ _ _ start) in Hrun; [exact Hrun|constructor].
Qed.

Lemma withRetry_sleeps_capped_witness :
  Forall (capped 5000%float)
    (sleeps (trace (snd (withRetry pow_by_mult flaky (fun _ => 0.5%float) policy start)))).
Proof.
  apply (withRetry_sleeps_capped pow_by_mult nat flaky (fun _ => 0.5%float) policy
           1000 5000); try reflexivity; try lia.
  intros i. split; reflexivity.
Defined.

End RetryExtraFacts.

Module PriceFetcherFacts.
Import JS Exn PriceService ApiRetry PriceFetcher RetryRunFacts RetryExtraFacts.

(** A status that [isRetryableError] retries by itself. *)
Lemma status_retryable s sc rs m :
  (500 <= s \/ s = 408 \/ s = 429)%Z ->
  isRetryableError (Obj {| status := Some s; statusCode := sc;
                           response_status := rs; message := m |}) = true.
Proof.
  intros Hs. unfold isRetryableError.
  destruct (isRateLimitError _); [reflexivity|].
  match goal with |- (if ?c then _ else _) = _ => destruct c; [reflexivity|] end.
  assert (Ht : truthy_status (Some s) = true).
  { cbn. apply negb_true_iff, Z.eqb_neq. lia. }
  unfold status_of. cbn [status]. rewrite !Ht.
  destruct Hs as [H|[->| ->]]; [|reflexivity|reflexivity].
  apply Z.leb_le in H. now rewrite H.
Qed.

Lemma maxRetries_table p :
  PriceProvidersConfig.maxRetries
    (PriceProvidersConfig.retry (PriceProvidersConfig.getProviderConfig p))
  = match p with COINGECKO => 10%Z | _ => 5%Z end.
Proof. now destruct p. Qed.

Section Fetch.
Context {Data : Type}.
Variable fetch : nat -> string -> list (string * string) -> Z
                 -> result exn (Response Data).
Variable Math_pow : float -> Z -> float.
Variable random : nat -> float.
Variable options : PriceFetchOptions Data.

Let config := PriceProvidersConfig.getProviderConfig (provider options).
Let run := fetchPriceInternal fetch Math_pow random options start.

Lemma request_price i p :
  request fetch options config i = Ok (Some p) ->
  PrimFloat.leb p 0 = false
  /\ exists response data,
       fetch i (url options)
         (("Content-Type", "application/json")%string :: headers options)
         (PriceProvidersConfig.timeout config) = Ok response
       /\ ok response = true /\ json response = Ok data
       /\ parseResponse options data = Ok (Some p).
Proof.
  unfold request. destruct (fetch i _ _ _) as [response|e]; [|discriminate].
  cbn [bind]. destruct (ok response) eqn:Hok; [|discriminate]. cbn [negb].
  destruct (json response) as [data|e] eqn:Hj; [|discriminate]. cbn [bind].
  destruct (parseResponse options data) as [[q|]|e] eqn:Hp; try discriminate.
  cbn [bind]. destruct (PrimFloat.leb q 0) eqn:Hq; [discriminate|].
  intros [= <-]. split; [exact Hq|]. exists response, data. auto.
Qed.

Lemma fetchPriceInternal_value p w :
  run = (Ok (Some p), w) ->
  exists i, i < calls w /\ request fetch options config i = Ok (Some p).
Proof.
  unfold run, fetchPriceInternal, withRetry. fold config. intros Hrun.
  apply withRetry_loop_value in Hrun as (i & Hi & Hv).
  exists i. split; [lia|exact Hv].
Qed.

End Fetch.

(** X8: [fetchPriceInternal] never resolves to a price that is zero or
    negative.  A price it returns is the one [parseResponse] read from the
    body of an OK response to one of its requests, and it is not [<= 0]. *)
Theorem fetchPriceInternal_price_positive (Data : Type)
    (fetch : nat -> string -> list (string * string) -> Z -> result exn (Response Data))
    (Math_pow : float -> Z -> float) (random : nat -> float)
    (options : PriceFetchOptions Data) (p : float) (w : world) :
  fetchPriceInternal fetch Math_pow random options start = (Ok (Some p), w) ->
  PrimFloat.leb p 0 = false
  /\ exists i response data,
       i < calls w
       /\ fetch i (url options)
            (("Content-Type", "application/json")%string :: headers options)
            (PriceProvidersConfig.timeout
               (PriceProvidersConfig.getProviderConfig (provider options)))
          = Ok response
       /\ ok response = true /\ json response = Ok data
       /\ parseResponse options data = Ok (Some p).
Proof.
  intros Hrun.
  destruct (fetchPriceInternal_value fetch Math_pow random options p w Hrun)
    as (i & Hi & Hreq).
  destruct (request_price fetch options i p Hreq) as (Hp & response & data & H).
  split; [exact Hp|]. exists i, response, data. split; [exact Hi|exact H].
Qed.

Lemma fetchPriceInternal_price_positive_witness :
  PrimFloat.leb 2500.5 0 = false
  /\ exists i response data,
       i < 1
       /\ answering {| ok := true; response_code := 200; json := Ok 2500.5%float |}
            i "https://prices.example/eth"
            [("Content-Type", "application/json")%string] 15000%Z
          = Ok response
       /\ ok response = true /\ json response = Ok data
       /\ Ok (E := exn) (Some data) = Ok (Some 2500.5%float).
Proof.
  apply (fetchPriceInternal_price_positive float
           (answering {| ok := true; response_code := 200; json := Ok 2500.5%float |})
           pow_by_mult (fun _ => 0.5%float)
           (bodyIsPrice KRAKEN "https://prices.example/eth") 2500.5%float
           {| calls := 1; draws := 0; trace := [] |}).
  reflexivity.
Defined.

(** X9: a server that keeps answering with a retryable HTTP status (5xx,
    408 or 429) is asked [maxRetries + 1] times, 11 times for CoinGecko and 6
    times for the other providers, with a pause between two requests; then
    [fetchPriceInternal] throws the error built from the last response, which
    carries its status.  The observer, when one is given, returns normally. *)
Theorem fetchPriceInternal_server_errors (Data : Type)
    (fetch : nat -> string -> list (string * string) -> Z -> result exn (Response Data))
    (Math_pow : float -> Z -> float) (random : nat -> float)
    (options : PriceFetchOptions Data) :
  let config := PriceProvidersConfig.getProviderConfig (provider options) in
  let requests := match provider options with COINGECKO => 11 | _ => 6 end in
  (forall callback, onRetry options = Some callback ->
                    forall a e d, callback a e d = Ok tt) ->
  (forall i, exists response,
      fetch i (url options)
        (("Content-Type", "application/json")%string :: headers options)
        (PriceProvidersConfig.timeout config) = Ok response
      /\ ok response = false
      /\ (500 <= response_code response \/ response_code response = 408
          \/ response_code response = 429)%Z) ->
  exists response w,
    fetch (requests - 1) (url options)
      (("Content-Type", "application/json")%string :: headers options)
      (PriceProvidersConfig.timeout config) = Ok response
    /\ fetchPriceInternal fetch Math_pow random options start
       = (Throw (Obj {| status := Some (response_code response);
                        statusCode := None;
                        response_status := None;
                        message :=
                          Some (PriceProvidersConfig.displayName config
                                ++ " API error: "
                                ++ BigInt_toString (response_code response)
                                ++ ". URL: " ++ url options)%string |}), w)
    /\ calls w = requests
    /\ List.length (sleeps (trace w)) = requests - 1.
Proof.
  intros config requests Hcb Hfetch.
  set (rc := retryConfig options config).
  assert (Hmax : Z.to_nat (maxRetries rc) = requests - 1
                 /\ (0 <= maxRetries rc)%Z).
  { subst rc requests config. cbn [retryConfig maxRetries].
    rewrite maxRetries_table. destruct (provider options); split; (reflexivity || lia). }
  destruct Hmax as [Hreq Hmax].
  assert (Hobs : callback_returns rc).
  { intros cb Hsome a e d. subst rc. cbn in Hsome. injection Hsome as <-.
    destruct (onRetry options) as [callback|] eqn:Ho; [now apply Hcb|reflexivity]. }
  assert (Hfail : forall i, exists response,
             fetch i (url options)
               (("Content-Type", "application/json")%string :: headers options)
               (PriceProvidersConfig.timeout config) = Ok response
             /\ request fetch options config i
                = Throw (Obj {| status := Some (response_code response);
                                statusCode := None;
                                response_status := None;
                                message :=
                                  Some (PriceProvidersConfig.displayName config
                                        ++ " API error: "
                                        ++ BigInt_toString (response_code response)
                                        ++ ". URL: " ++ url options)%string |})
             /\ fails_retryably (request fetch options config) i).
  { intros i. destruct (Hfetch i) as (response & Hf & Hok & Hs).
    exists response. split; [exact Hf|].
    assert (Hr : request fetch options config i = Throw (Obj {|
                   status := Some (response_code response);
                   statusCode := None;
                   response_status := None;
                   message :=
                     Some (PriceProvidersConfig.displayName config
                           ++ " API error: "
                           ++ BigInt_toString (response_code response)
                           ++ ". URL: " ++ url options)%string |})).
    { unfold request. rewrite Hf. cbn [bind]. now rewrite Hok. }
    split; [exact Hr|]. eexists. split; [exact Hr|]. now apply status_retryable. }
  destruct (ApiRetryFacts.withRetry_settles Math_pow (request fetch options config)
              random rc Hmax Hobs (requests - 1))
    as (w & Hrun & Hc & Ht).
  - lia.
  - intros i _. now destruct (Hfail i) as (_ & _ & _ & H).
  - unfold settles. destruct (Hfail (requests - 1)) as (response & _ & -> & _).
    right. lia.
  - destruct (Hfail (requests - 1)) as (response & Hf & Hr & _).
    exists response, w. split; [exact Hf|].
    split; [unfold fetchPriceInternal; fold config; fold rc; now rewrite Hrun, Hr|].
    assert (Hreq1 : 1 <= requests) by (subst requests; destruct (provider options); lia).
    split; [lia|].
    pose proof (withRetry_run_counts Math_pow _ (request fetch options config) random rc)
      as Hcounts.
    cbv zeta in Hcounts. rewrite Hrun in Hcounts. cbn [snd] in Hcounts. lia.
Qed.

Lemma fetchPriceInternal_server_errors_witness :
  exists response w,
    answering {| ok := false; response_code := 503; json := Ok 0%float |}
      5 "https://prices.example/eth"
      [("Content-Type", "application/json")%string] 15000%Z = Ok response
    /\ fetchPriceInternal
         (answering {| ok := false; response_code := 503; json := Ok 0%float |})
         pow_by_mult (fun _ => 0.5%float)
         (bodyIsPrice KRAKEN "https://prices.example/eth") start
       = (Throw (Obj {| status := Some (response_code response);
                        statusCode := None;
                        response_status := None;
                        message :=
                          Some ("Kraken" ++ " API error: "
                                ++ BigInt_toString (response_code response)
                                ++ ". URL: " ++ "https://prices.example/eth")%string |}),
          w)
    /\ calls w = 6
    /\ List.length (sleeps (trace w)) = 5.
Proof.
  apply (fetchPriceInternal_server_errors float
           (answering {| ok := false; response_code := 503; json := Ok 0%float |})
           pow_by_mult (fun _ => 0.5%float)
           (bodyIsPrice KRAKEN "https://prices.example/eth")).
  - intros callback H. discriminate H.
  - intros i. eexists. split; [reflexivity|]. split; [reflexivity|]. left. cbn. lia.
Defined.

(** X10: the pauses of [fetchPriceInternal] stay within the provider's
    configured maximum.  For every provider and every run, with
    [Math.random()] in [0, 1), each pause between two requests is at most
    [maxDelayMs] of the provider's retry settings, 3000 ms for Binance and
    5000 ms for the others (or NaN, when [Math.pow] gives NaN). *)
Theorem fetchPriceInternal_pauses_capped (Data : Type)
    (fetch : nat -> string -> list (string * string) -> Z -> result exn (Response Data))
    (Math_pow : float -> Z -> float) (random : nat -> float)
    (options : PriceFetchOptions Data) :
  (forall i, PrimFloat.leb 0 (random i) = true /\ PrimFloat.ltb (random i) 1 = true) ->
  let cap := match provider options with BINANCE => 3000%float | _ => 5000%float end in
  cap = PriceProvidersConfig.maxDelayMs
          (PriceProvidersConfig.retry
             (PriceProvidersConfig.getProviderConfig (provider options)))
  /\ Forall (capped cap)
       (sleeps (trace (snd (fetchPriceInternal fetch Math_pow random options start)))).
Proof.
  intros Hrandom cap.
  set (config := PriceProvidersConfig.getProviderConfig (provider options)).
  set (rc := retryConfig options config).
  assert (Hpolicy : exists a b,
             (0 <= a <= b)%Z /\ (b < 2 ^ 53)%Z
             /\ minRetryDelayMs rc = Number_of_BigInt a
             /\ maxRetryDelayMs rc = Number_of_BigInt b
             /\ cap = maxRetryDelayMs rc).
  { subst rc config cap. cbn [retryConfig minRetryDelayMs maxRetryDelayMs].
    destruct (provider options);
      [exists 1000%Z, 5000%Z | exists 500%Z, 3000%Z | exists 1000%Z, 5000%Z
      | exists 1000%Z, 5000%Z | exists 1000%Z, 5000%Z];
      repeat split; try reflexivity; lia. }
  destruct Hpolicy as (a & b & Hab & Hb & Hmin & Hmax & Hcap).
  split; [exact Hcap|]. rewrite Hcap.
  unfold fetchPriceInternal, withRetry. fold config. fold rc.
  destruct (withRetry_loop Math_pow (request fetch options config) random rc
              (Z.to_nat (maxRetries rc + 1)) 1 Nullish start) as [r w] eqn:Hrun.
  cbn [snd].
  apply (withRetry_loop_capped Math_pow (request fetch options config) random rc
           a b Hab Hb Hmin Hmax Hrandom _ _ _ start) in Hrun; [exact Hrun|constructor].
Qed.

Lemma fetchPriceInternal_pauses_capped_witness :
  3000%float
  = PriceProvidersConfig.maxDelayMs
      (PriceProvidersConfig.retry (PriceProvidersConfig.getProviderConfig BINANCE))
  /\ Forall (capped 3000%float)
       (sleeps (trace (snd (fetchPriceInternal
                              (answering {| ok := false; response_code := 429;
                                            json := Ok 0%float |})
                              pow_by_mult (fun _ => 0.25%float)
                              (bodyIsPrice BINANCE "https://prices.example/eth")
                              start)))).
Proof.
  apply (fetchPriceInternal_pauses_capped float
           (answering {| ok := false; response_code := 429; json := Ok 0%float |})
           pow_by_mult (fun _ => 0.25%float)
           (bodyIsPrice BINANCE "https://prices.example/eth")).
  intros i. split; reflexivity.
Defined.

End PriceFetcherFacts.

Module ProviderHealthFacts.
Import JS Exn PriceService PriceProvidersConfig.
Local Open Scope Z_scope.

Lemma PriceProvider_eqb_refl p : PriceProvider_eqb p p = true.
Proof. now destruct p. Qed.

Lemma PriceProvider_eqb_neq p q : p <> q -> PriceProvider_eqb p q = false.
Proof. destruct p, q; intros H; try reflexivity; now elim H. Qed.

Lemma update_same m p success now :
  updateProviderHealth m p success now p
  = Some (if success
          then {| lastSuccess := now; consecutiveFailures := 0; isHealthy := true |}
          else
            let h := match m p with
                     | Some h => h
                     | None => {| lastSuccess := 0; consecutiveFailures := 0;
                                  isHealthy := true |}
                     end in
            {| lastSuccess := lastSuccess h;
               consecutiveFailures := consecutiveFailures h + 1;
               isHealthy := consecutiveFailures h + 1 <? 3 |}).
Proof.
  unfold updateProviderHealth, providerHealth_set. rewrite PriceProvider_eqb_refl.
  now destruct success.
Qed.

Lemma update_other m p q success now :
  p <> q -> updateProviderHealth m q success now p = m p.
Proof.
  intros H. unfold updateProviderHealth, providerHealth_set.
  now rewrite PriceProvider_eqb_neq.
Qed.

(** The record after [k] failures in a row. *)
Lemma failures_record k m p now h :
  m p = Some h ->
  failures k m p now p
  = Some {| lastSuccess := lastSuccess h;
            consecutiveFailures := consecutiveFailures h + Z.of_nat k;
            isHealthy := match k with
                         | O => isHealthy h
                         | S _ => consecutiveFailures h + Z.of_nat k <? 3
                         end |}.
Proof.
  revert m h. induction k as [|k IH]; intros m h Hm.
  - cbn [failures Z.of_nat]. rewrite Hm, Z.add_0_r. now destruct h.
  - cbn [failures]. erewrite IH by (rewrite update_same, Hm; reflexivity).
    cbn [lastSuccess consecutiveFailures isHealthy].
    replace (consecutiveFailures h + 1 + Z.of_nat k)
      with (consecutiveFailures h + Z.of_nat (S k)) by lia.
    destruct k; [|reflexivity]. reflexivity.
Qed.

Lemma failures_other k m p q now : p <> q -> failures k m q now p = m p.
Proof.
  intros H. revert m. induction k as [|k IH]; intros m; [reflexivity|].
  cbn [failures]. rewrite IH. now apply update_other.
Qed.

(** X11: the health of a price provider.  After a success reported at
    time [t0] and then [k] failures in a row, the provider is healthy at time
    [now] exactly when [k = 0], or [k < 3] and the success is at most five
    minutes old; a provider with no success on record is unhealthy from its
    first failure on, once the clock is past five minutes; and reports about
    another provider change nothing. *)
Theorem isProviderHealthy_after_failures (providerHealth : HealthMap)
    (provider : PriceProvider) (t0 now : Z) (k : nat) (times : Z) :
  isProviderHealthy
    (failures k (updateProviderHealth providerHealth provider true t0) provider times)
    provider now
  = ((k =? 0)%nat || ((k <? 3)%nat && (now - 300000 <=? t0)))
  /\ isProviderHealthy (failures (S k) noHealthData provider times) provider now
     = ((S k <? 3)%nat && (now <=? 300000))
  /\ (forall other success t,
        other <> provider ->
        isProviderHealthy (updateProviderHealth providerHealth other success t)
          provider now
        = isProviderHealthy providerHealth provider now).
Proof.
  split; [|split].
  - unfold isProviderHealthy.
    rewrite (failures_record k _ provider times _ (update_same _ _ true t0)).
    cbn [lastSuccess consecutiveFailures isHealthy Z.add].
    change (5 * 60 * 1000) with 300000.
    destruct k as [|k].
    + cbn. now rewrite andb_false_r.
    + replace (0 <? Z.of_nat (S k)) with true by (symmetry; apply Z.ltb_lt; lia).
      rewrite andb_true_r. cbn [Nat.eqb orb].
      replace (Z.of_nat (S k) <? 3) with (S k <? 3)%nat
        by (destruct (Nat.ltb_spec (S k) 3), (Z.ltb_spec (Z.of_nat (S k)) 3);
            reflexivity || lia).
      destruct (t0 <? now - 300000) eqn:E.
      * apply Z.ltb_lt in E.
        replace (now - 300000 <=? t0) with false by (symmetry; apply Z.leb_gt; lia).
        now rewrite andb_false_r.
      * apply Z.ltb_ge in E.
        replace (now - 300000 <=? t0) with true by (symmetry; apply Z.leb_le; lia).
        now rewrite andb_true_r.
  - unfold isProviderHealthy. cbn [failures].
    rewrite (failures_record k _ provider times _ (update_same _ _ false times)).
    cbn [noHealthData lastSuccess consecutiveFailures isHealthy].
    change (5 * 60 * 1000) with 300000. change (0 + 1) with 1.
    replace (0 <? 1 + Z.of_nat k) with true by (symmetry; apply Z.ltb_lt; lia).
    rewrite andb_true_r.
    assert (Hh : match k with
                 | O => 1 <? 3
                 | S _ => 1 + Z.of_nat k <? 3
                 end = (S k <? 3)%nat).
    { destruct k as [|[|k]]; try reflexivity.
      symmetry. destruct (Z.ltb_spec (1 + Z.of_nat (S (S k))) 3); [lia|].
      apply Nat.ltb_ge. lia. }
    rewrite Hh.
    destruct (0 <? now - 300000) eqn:E.
    + apply Z.ltb_lt in E.
      replace (now <=? 300000) with false by (symmetry; apply Z.leb_gt; lia).
      now rewrite andb_false_r.
    + apply Z.ltb_ge in E.
      replace (now <=? 300000) with true by (symmetry; apply Z.leb_le; lia).
      now rewrite andb_true_r.
  - intros other success t Hne. unfold isProviderHealthy.
    rewrite update_other by congruence. reflexivity.
Qed.

End ProviderHealthFacts.

Module EscrowTransactionsFacts.
Import JS Exn TokenHelpers EscrowTransactions.
Local Open Scope Z_scope.

Lemma BigIntS_Ok a z : BigIntS a = Ok z <-> BigInt_of_string a = Some z.
Proof.
  unfold BigIntS. destruct (BigInt_of_string a); split; intros H;
    try discriminate; congruence.
Qed.

Lemma mapM_BigIntS amountList zs :
  mapM BigIntS amountList = Ok zs
  <-> Forall2 (fun a z => BigInt_of_string a = Some z) amountList zs.
Proof.
  revert zs. induction amountList as [|a rest IH]; intros zs; cbn [mapM].
  - split; [intros [= <-]; constructor|intros H; now inversion H].
  - split.
    + destruct (BigIntS a) as [z|] eqn:Ha; [|discriminate]. cbn [bind].
      destruct (mapM BigIntS rest) as [ys|]; [|discriminate]. cbn [bind].
      intros [= <-]. constructor; [now apply BigIntS_Ok|now apply IH].
    + intros H. inversion H as [|a' z rest' ys Ha Hrest]; subst.
      apply BigIntS_Ok in Ha. apply IH in Hrest. now rewrite Ha, Hrest.
Qed.

Lemma sumAmounts_sum amountList zs sum :
  Forall2 (fun a z => BigInt_of_string a = Some z) amountList zs ->
  sumAmounts sum amountList = Ok (sum + fold_right Z.add 0 zs).
Proof.
  intros H. revert sum. induction H as [|a z rest ys Ha _ IH]; intros sum.
  - cbn. now rewrite Z.add_0_r.
  - cbn [sumAmounts fold_right]. apply BigIntS_Ok in Ha. rewrite Ha. cbn [bind].
    rewrite IH. f_equal. lia.
Qed.

Lemma BigIntN_Some x z : BigIntN x = Ok z <-> BigInt_of_Number x = Some z.
Proof.
  unfold BigIntN. destruct (BigInt_of_Number x); split; intros H;
    try discriminate; congruence.
Qed.

Lemma mapM_BigIntN ws zs :
  mapM BigIntN ws = Ok zs
  <-> Forall2 (fun w z => BigInt_of_Number w = Some z) ws zs.
Proof.
  revert zs. induction ws as [|w rest IH]; intros zs; cbn [mapM].
  - split; [intros [= <-]; constructor|intros H; now inversion H].
  - split.
    + destruct (BigIntN w) as [z|] eqn:Hw; [|discriminate]. cbn [bind].
      destruct (mapM BigIntN rest) as [ys|]; [|discriminate]. cbn [bind].
      intros [= <-]. constructor; [now apply BigIntN_Some|now apply IH].
    + intros H. inversion H as [|w' z rest' ys Hw Hrest]; subst.
      apply BigIntN_Some in Hw. apply IH in Hrest. now rewrite Hw, Hrest.
Qed.

(** X12: the value sent with a batch of escrows is the sum of the amounts
    passed to the contract.  [getBatchCreateEscrowsConfig] returns exactly
    when the sellers are given, each amount is a string [BigInt] reads, and
    each dispute window, when windows are given, is a number [BigInt] reads (a
    whole number).  Its arguments are then the sellers, these amounts as
    integers, these windows as integers (none when no windows are given) and
    the metadata, and its value is the sum of the amounts. *)
Theorem getBatchCreateEscrowsConfig_value (Abi : Type) (this : ContractClient Abi)
    (params : Params) :
  let reads sellerList amountList zs windows :=
    sellers params = Some sellerList
    /\ amounts params = Some amountList
    /\ Forall2 (fun a z => BigInt_of_string a = Some z) amountList zs
    /\ match disputeWindows params with
       | Some ws => Forall2 (fun w z => BigInt_of_Number w = Some z) ws windows
       | None => windows = []
       end in
  (forall config,
     getBatchCreateEscrowsConfig this params = Ok config ->
     exists sellerList amountList zs windows,
       reads sellerList amountList zs windows
       /\ args config
          = [VStrings sellerList; VBigInts zs; VBigInts windows;
             VStrings (match metadatas params with Some ms => ms | None => [] end)]
       /\ value_sent config = Some (fold_right Z.add 0 zs)
       /\ functionName config = "batchCreateEscrows"%string
       /\ address config = this_contractAddress this
       /\ chainId config = this_chainId this)
  /\ (forall sellerList amountList zs windows,
        reads sellerList amountList zs windows ->
        exists config, getBatchCreateEscrowsConfig this params = Ok config).
Proof.
  intros reads. subst reads. cbv beta. split.
  - intros config. unfold getBatchCreateEscrowsConfig, prepareEscrowParams.
    cbn [String.eqb Ascii.eqb Bool.eqb orb].
    destruct (sellers params) as [sellerList|]; [|discriminate]. cbn [arrayOf bind].
    destruct (amounts params) as [amountList|]; [|discriminate]. cbn [arrayOf bind].
    destruct (mapM BigIntS amountList) as [zs|] eqn:Hmap; [|discriminate].
    cbn [bind]. apply mapM_BigIntS in Hmap.
    destruct (match disputeWindows params with
              | Some ws => mapM BigIntN ws
              | None => Ok []
              end) as [windows|] eqn:Hwin; [|discriminate].
    cbn [bind]. rewrite (sumAmounts_sum _ _ 0 Hmap). cbn [bind].
    intros [= <-]. exists sellerList, amountList, zs, windows.
    cbn. repeat split; auto.
    destruct (disputeWindows params) as [ws|].
    + now apply mapM_BigIntN.
    + now injection Hwin as <-.
  - intros sellerList amountList zs windows (Hs & Ha & Hall & Hw).
    unfold getBatchCreateEscrowsConfig, prepareEscrowParams.
    cbn [String.eqb Ascii.eqb Bool.eqb orb].
    rewrite Hs, Ha. cbn [arrayOf bind].
    pose proof Hall as Hmap. apply mapM_BigIntS in Hmap. rewrite Hmap. cbn [bind].
    assert (Hwin : (match disputeWindows params with
                    | Some ws => mapM BigIntN ws
                    | None => Ok []
                    end) = Ok windows).
    { destruct (disputeWindows params) as [ws|].
      - now apply mapM_BigIntN.
      - now subst windows. }
    rewrite Hwin. cbn [bind].
    rewrite (sumAmounts_sum _ _ 0 Hall). cbn [bind]. eauto.
Qed.

Lemma getBatchCreateEscrowsConfig_value_witness :
  exists config,
    getBatchCreateEscrowsConfig
      {| this_contractAddress := "0xEscrow"%string; this_abi := tt;
         this_chainId := 2818 |}
      {| seller := None; amount := None; disputeWindow := None; metadata := None;
         autoFund := None; escrowId := None; reason := None; refundBuyer := None;
         buyerAmount := None; sellerAmount := None;
         sellers := Some ["0xA"; "0xB"]%string;
         amounts := Some ["100"; "0x10"]%string;
         disputeWindows := Some [3600; 7200]%float; metadatas := None |} = Ok config.
Proof.
  destruct (getBatchCreateEscrowsConfig_value unit
              {| this_contractAddress := "0xEscrow"%string; this_abi := tt;
                 this_chainId := 2818 |}
              {| seller := None; amount := None; disputeWindow := None;
                 metadata := None; autoFund := None; escrowId := None; reason := None;
                 refundBuyer := None; buyerAmount := None; sellerAmount := None;
                 sellers := Some ["0xA"; "0xB"]%string;
                 amounts := Some ["100"; "0x10"]%string;
                 disputeWindows := Some [3600; 7200]%float; metadatas := None |})
    as [_ H].
  apply (H ["0xA"; "0xB"]%string ["100"; "0x10"]%string [100; 16] [3600; 7200]).
  repeat split; repeat constructor.
Defined.

(** X13: what [getCreateEscrowConfig] sends.  When it returns, the
    contract arguments are the seller, the amount as an integer, the dispute
    window and the metadata (the empty string when absent); the value sent is
    that amount when [autoFund] is set and [0] otherwise.  The window is the
    caller's, as an integer, when it is a number other than zero and NaN; a
    window that is absent, zero or NaN is replaced by 86400 seconds, so that a
    window of zero cannot be asked for. *)
Theorem getCreateEscrowConfig_sends (Abi : Type) (this : ContractClient Abi)
    (params : Params) (config : TransactionConfig Abi) :
  getCreateEscrowConfig this params = Ok config ->
  exists amountText a window,
    amount params = Some amountText
    /\ BigInt_of_string amountText = Some a
    /\ args config
       = [field VString (seller params); VBigInt a; VBigInt window;
          VString (match metadata params with Some m => m | None => ""%string end)]
    /\ value_sent config
       = Some (match autoFund params with Some true => a | _ => 0 end)
    /\ match disputeWindow params with
       | Some w =>
           if PrimFloat.is_nan w || PrimFloat.eqb w 0 then window = 86400
           else BigInt_of_Number w = Some window
       | None => window = 86400
       end.
Proof.
  unfold getCreateEscrowConfig, prepareEscrowParams.
  cbn [String.eqb Ascii.eqb Bool.eqb].
  destruct (amount params) as [amountText|]; [|discriminate]. cbn [BigIntOf].
  destruct (BigIntS amountText) as [a|] eqn:Ha; [|discriminate]. cbn [bind].
  apply BigIntS_Ok in Ha.
  destruct (BigIntN _) as [window|] eqn:Hw; [|discriminate]. cbn [bind].
  assert (Hv : (match autoFund params with
                | Some true => Ok a
                | _ => Ok 0
                end)
               = Ok (E := exn) (match autoFund params with Some true => a | _ => 0 end)).
  { now destruct (autoFund params) as [[|]|]. }
  rewrite Hv. cbn [bind]. intros [= <-].
  exists amountText, a, window. cbn. repeat split; auto.
  assert (Hdefault : BigIntN 86400%float = Ok window -> window = 86400).
  { intros H. vm_compute in H. congruence. }
  destruct (disputeWindow params) as [w|]; [|now apply Hdefault].
  unfold truthy, isNaN in Hw.
  destruct (PrimFloat.is_nan w || PrimFloat.eqb w 0); cbn [negb] in Hw.
  - now apply Hdefault.
  - now apply BigIntN_Some.
Qed.

Lemma getCreateEscrowConfig_sends_witness :
  exists amountText a window,
    Some "2500"%string = Some amountText
    /\ BigInt_of_string amountText = Some a
    /\ [VString "0xSeller"; VBigInt 2500; VBigInt 3600; VString ""]
       = [VString "0xSeller"; VBigInt a; VBigInt window; VString ""]
    /\ Some 2500 = Some a
    /\ BigInt_of_Number 3600%float = Some window.
Proof.
  apply (getCreateEscrowConfig_sends unit
           {| this_contractAddress := "0xEscrow"; this_abi := tt; this_chainId := 2818 |}
           {| seller := Some "0xSeller"%string; amount := Some "2500"%string;
              disputeWindow := Some 3600%float; metadata := None; autoFund := Some true;
              escrowId := None; reason := None; refundBuyer := None;
              buyerAmount := None; sellerAmount := None; sellers := None;
              amounts := None; disputeWindows := None; metadatas := None |}
           {| address := "0xEscrow"; abi := tt; functionName := "createEscrow";
              args := [VString "0xSeller"; VBigInt 2500; VBigInt 3600; VString ""];
              value_sent := Some 2500; chainId := 2818 |}).
  reflexivity.
Defined.

Section Receipt.
Variable parseLog : Log -> result exn (option LogDescription).
Variable getPublicClient : Z -> result exn (option (string -> result exn (list Log))).

Let first := firstEscrowCreated parseLog.

Lemma log_eta log : {| data := data log; topics := topics log |} = log.
Proof. now destruct log. Qed.

Lemma decodeEventLog_parse log :
  decodeEventLog parseLog {| data := data log; topics := topics log |}
  = match parseLog log with
    | Ok d => d
    | Throw _ => None
    end.
Proof. unfold decodeEventLog. cbn [data topics]. now rewrite log_eta. Qed.

(** A log the loop passes over: the parser throws or gives [null], or
    the event has another name, or no arguments. *)
Lemma firstEscrowCreated_pass log rest :
  match parseLog log with
  | Ok (Some d) =>
      event_name d <> "EscrowCreated"%string \/ event_args d = None
  | _ => True
  end ->
  first (log :: rest) = first rest.
Proof.
  unfold first. cbn [firstEscrowCreated]. rewrite decodeEventLog_parse.
  destruct (parseLog log) as [[d|]|e]; try reflexivity.
  intros [Hname|Hargs].
  - apply String.eqb_neq in Hname. now rewrite Hname.
  - rewrite Hargs. now destruct (event_name d =? "EscrowCreated")%string.
Qed.

Lemma firstEscrowCreated_skip earlier rest :
  (forall l, In l earlier ->
             match parseLog l with
             | Ok (Some d) =>
                 event_name d <> "EscrowCreated"%string \/ event_args d = None
             | _ => True
             end) ->
  first (earlier ++ rest) = first rest.
Proof.
  induction earlier as [|l earlier IH]; intros Hnone; [reflexivity|].
  cbn [app]. rewrite firstEscrowCreated_pass by (apply Hnone; now left).
  apply IH. intros l' Hl'. apply Hnone. now right.
Qed.

Lemma firstEscrowCreated_found log rest d args :
  parseLog log = Ok (Some d) ->
  event_name d = "EscrowCreated"%string -> event_args d = Some args ->
  first (log :: rest)
  = Some (match args with
          | Some escrowId => Number_of_BigInt escrowId
          | None => PrimFloat.nan
          end).
Proof.
  intros Hp Hname Hargs. unfold first. cbn [firstEscrowCreated].
  rewrite decodeEventLog_parse, Hp, Hname, Hargs. reflexivity.
Qed.

End Receipt.

(** X14: [getEscrowIdFromReceipt] returns the id of the first
    [EscrowCreated] log of the receipt.  A log is passed over when the parser
    throws on it or gives [null], or gives an event of another name or one
    without arguments; the first log the parser reads as an [EscrowCreated]
    event with arguments gives the result, [Number(args.escrowId)] (NaN when
    the arguments have no [escrowId]), and later logs are not looked at.  The
    result is [null], never an exception, when every log is passed over, when
    the chain has no client, or when the client or the receipt lookup
    fails. *)
Theorem getEscrowIdFromReceipt_first
    (parseLog : Log -> result exn (option LogDescription))
    (getPublicClient : Z -> result exn (option (string -> result exn (list Log))))
    (this_chainId : Z) (txHash : string) (chainId : option Z) :
  let effectiveChainId :=
    match chainId with
    | Some c => if c =? 0 then this_chainId else c
    | None => this_chainId
    end in
  let passedOver log :=
    match parseLog log with
    | Ok (Some d) =>
        event_name d <> "EscrowCreated"%string \/ event_args d = None
    | _ => True
    end in
  let result := getEscrowIdFromReceipt parseLog getPublicClient this_chainId txHash
                  chainId in
  (forall getTransactionReceipt earlier log later d args,
     getPublicClient effectiveChainId = Ok (Some getTransactionReceipt) ->
     getTransactionReceipt txHash = Ok (earlier ++ log :: later) ->
     (forall l, In l earlier -> passedOver l) ->
     parseLog log = Ok (Some d) ->
     event_name d = "EscrowCreated"%string -> event_args d = Some args ->
     result = Some (match args with
                    | Some escrowId => Number_of_BigInt escrowId
                    | None => PrimFloat.nan
                    end))
  /\ (forall getTransactionReceipt logs,
        getPublicClient effectiveChainId = Ok (Some getTransactionReceipt) ->
        getTransactionReceipt txHash = Ok logs ->
        (forall l, In l logs -> passedOver l) ->
        result = None)
  /\ (forall getTransactionReceipt e,
        getPublicClient effectiveChainId = Ok (Some getTransactionReceipt) ->
        getTransactionReceipt txHash = Throw e ->
        result = None)
  /\ ((getPublicClient effectiveChainId = Ok None
       \/ exists e, getPublicClient effectiveChainId = Throw e) ->
      result = None).
Proof.
  intros effectiveChainId passedOver result. subst result passedOver.
  unfold getEscrowIdFromReceipt. fold effectiveChainId. repeat split.
  - intros receipt earlier log later d args -> -> Hnone Hp Hname Hargs.
    rewrite firstEscrowCreated_skip by exact Hnone.
    now apply (firstEscrowCreated_found parseLog log later d args).
  - intros receipt logs -> -> Hnone.
    rewrite <- (List.app_nil_r logs). now rewrite firstEscrowCreated_skip.
  - now intros receipt e -> ->.
  - now intros [-> | [e ->]].
Qed.

Lemma getEscrowIdFromReceipt_first_witness :
  getEscrowIdFromReceipt
    (fun log => if (data log =? "created")%string
                then Ok (Some {| event_name := "EscrowCreated";
                                 event_args := Some (Some 7) |})
                else Throw Nullish)
    (fun _ => Ok (Some (fun _ => Ok [ {| data := "transfer"; topics := [] |};
                                      {| data := "created"; topics := [] |};
                                      {| data := "created"; topics := [] |} ])))
    2818 "0xTx" None
  = Some 7%float.
Proof.
  destruct (getEscrowIdFromReceipt_first
              (fun log => if (data log =? "created")%string
                          then Ok (Some {| event_name := "EscrowCreated";
                                           event_args := Some (Some 7) |})
                          else Throw Nullish)
              (fun _ => Ok (Some (fun _ => Ok [ {| data := "transfer"; topics := [] |};
                                                {| data := "created"; topics := [] |};
                                                {| data := "created"; topics := [] |} ])))
              2818 "0xTx"%string None) as [H _].
  apply (H (fun _ => Ok [ {| data := "transfer"; topics := [] |};
                          {| data := "created"; topics := [] |};
                          {| data := "created"; topics := [] |} ])
           [ {| data := "transfer"; topics := [] |} ]
           {| data := "created"; topics := [] |}
           [ {| data := "created"; topics := [] |} ]
           {| event_name := "EscrowCreated"; event_args := Some (Some 7) |}
           (Some 7)); try reflexivity.
  intros l [<-|[]]. exact I.
Defined.

End EscrowTransactionsFacts.

Module TokenDecimalsCacheFacts.
Import JS Exn TokenDecimalsCache.
Local Open Scope Z_scope.

Section Cache.
Context {Decimals : Type}.
Variable getTokenDecimals : nat -> string -> string -> Decimals.
Variable Date_now : nat -> Z.

Let lookup := getCachedTokenDecimals getTokenDecimals Date_now.

Lemma tokenInfoCache_set_same (m : TokenInfoCache Decimals) key entry :
  tokenInfoCache_set m key entry key = Some entry.
Proof. unfold tokenInfoCache_set. now rewrite String.eqb_refl. Qed.

(** After a call the cache holds the returned decimals under the key of
    the token. *)
Lemma getCachedTokenDecimals_stores tokenAddress chainId s :
  exists entry,
    tokenInfoCache (snd (lookup tokenAddress chainId s))
      (cacheKeyOf tokenAddress chainId) = Some entry
    /\ decimals entry = fst (lookup tokenAddress chainId s).
Proof.
  unfold lookup, getCachedTokenDecimals.
  destruct (tokenInfoCache s (cacheKeyOf tokenAddress chainId)) as [cached|] eqn:Hc.
  - destruct (Date_now (readings s) - timestamp cached <? CACHE_DURATION).
    + exists cached. cbn. auto.
    + unfold refresh. cbn. rewrite tokenInfoCache_set_same. eauto.
  - unfold refresh. cbn. rewrite tokenInfoCache_set_same. eauto.
Qed.

Lemma getCachedTokenDecimals_cached tokenAddress chainId s cached :
  tokenInfoCache s (cacheKeyOf tokenAddress chainId) = Some cached ->
  lookup tokenAddress chainId s
  = let ticked := {| tokenInfoCache := tokenInfoCache s;
                     lookups := lookups s;
                     readings := S (readings s) |} in
    if Date_now (readings s) - timestamp cached <? 300000
    then (decimals cached, ticked)
    else refresh getTokenDecimals Date_now tokenAddress chainId ticked.
Proof.
  intros Hc. unfold lookup, getCachedTokenDecimals. now rewrite Hc.
Qed.

End Cache.

(** X15: the cache of token decimals.  After any call for a token on a
    chain, a second call for the same chain and the same address in any letter
    case returns the same decimals without asking [getTokenDecimals] again, as
    long as the clock it reads is less than five minutes past the entry's
    timestamp; from five minutes on it asks again and stores the new answer. *)
Theorem getCachedTokenDecimals_hit (Decimals : Type)
    (getTokenDecimals : nat -> string -> string -> Decimals) (Date_now : nat -> Z)
    (tokenAddress sameAddress chainId : string) (s : state Decimals) :
  toLowerCase sameAddress = toLowerCase tokenAddress ->
  let first := getCachedTokenDecimals getTokenDecimals Date_now tokenAddress chainId s in
  let second :=
    getCachedTokenDecimals getTokenDecimals Date_now sameAddress chainId (snd first) in
  exists entry,
    tokenInfoCache (snd first) (cacheKeyOf tokenAddress chainId) = Some entry
    /\ decimals entry = fst first
    /\ (Date_now (readings (snd first)) - timestamp entry < 300000 ->
        fst second = fst first
        /\ lookups (snd second) = lookups (snd first)
        /\ tokenInfoCache (snd second) = tokenInfoCache (snd first))
    /\ (300000 <= Date_now (readings (snd first)) - timestamp entry ->
        fst second = getTokenDecimals (lookups (snd first)) sameAddress chainId
        /\ lookups (snd second) = S (lookups (snd first))
        /\ tokenInfoCache (snd second) (cacheKeyOf tokenAddress chainId)
           = Some {| decimals := fst second;
                     timestamp := Date_now (S (readings (snd first))) |}).
Proof.
  intros Hsame first second.
  destruct (getCachedTokenDecimals_stores getTokenDecimals Date_now
              tokenAddress chainId s) as (entry & Hentry & Hd).
  fold first in Hentry, Hd. exists entry. split; [exact Hentry|].
  split; [exact Hd|].
  assert (Hkey : cacheKeyOf sameAddress chainId = cacheKeyOf tokenAddress chainId)
    by (unfold cacheKeyOf; now rewrite Hsame).
  rewrite <- Hkey in Hentry.
  pose proof (getCachedTokenDecimals_cached getTokenDecimals Date_now
                sameAddress chainId (snd first) entry Hentry) as Hsecond.
  fold second in Hsecond. cbv zeta in Hsecond. split.
  - intros Hfresh. apply Z.ltb_lt in Hfresh. rewrite Hfresh in Hsecond.
    rewrite Hsecond. cbn. auto.
  - intros Hstale. apply Z.ltb_ge in Hstale. rewrite Hstale in Hsecond.
    rewrite Hsecond. unfold refresh. cbn. rewrite <- Hkey, tokenInfoCache_set_same. auto.
Qed.

Lemma getCachedTokenDecimals_hit_witness :
  let first :=
    getCachedTokenDecimals (fun _ _ _ => 6%nat) (fun j => 1000 * Z.of_nat j)
      "0xA0B8" "1"
      {| tokenInfoCache := fun _ => None; lookups := 0; readings := 0 |} in
  let second :=
    getCachedTokenDecimals (fun _ _ _ => 6%nat) (fun j => 1000 * Z.of_nat j)
      "0xa0b8" "1" (snd first) in
  exists entry,
    tokenInfoCache (snd first) (cacheKeyOf "0xA0B8" "1") = Some entry
    /\ decimals entry = fst first
    /\ (1000 * Z.of_nat (readings (snd first)) - timestamp entry < 300000 ->
        fst second = fst first
        /\ lookups (snd second) = lookups (snd first)
        /\ tokenInfoCache (snd second) = tokenInfoCache (snd first))
    /\ (300000 <= 1000 * Z.of_nat (readings (snd first)) - timestamp entry ->
        fst second = 6%nat
        /\ lookups (snd second) = S (lookups (snd first))
        /\ tokenInfoCache (snd second) (cacheKeyOf "0xA0B8" "1")
           = Some {| decimals := fst second;
                     timestamp := 1000 * Z.of_nat (S (readings (snd first))) |}).
Proof.
  apply (getCachedTokenDecimals_hit nat (fun _ _ _ => 6%nat)
           (fun j => 1000 * Z.of_nat j) "0xA0B8" "0xa0b8" "1"
           {| tokenInfoCache := fun _ => None; lookups := 0; readings := 0 |}).
  reflexivity.
Defined.

End TokenDecimalsCacheFacts.

Module FeeEdgeFacts.
Import JS Exn EscrowCore Dyadic Binary64 FloatFacts NumberFacts EscrowCoreFacts.
Local Open Scope Z_scope.

Lemma shr_1_m_nonneg mrs : 0 <= shr_m mrs -> 0 <= shr_m (shr_1 mrs).
Proof.
  destruct mrs as [m r s]. cbn [shr_m]. intros Hm.
  destruct m as [|[p|p|]|p]; cbn; lia.
Qed.

Lemma shr_m_nonneg mrs e n : 0 <= shr_m mrs -> 0 <= shr_m (fst (shr mrs e n)).
Proof.
  intros Hm. destruct n as [|p|p]; cbn [shr fst]; try exact Hm.
  rewrite iter_pos_nat. induction (Pos.to_nat p) as [|k IH]; [exact Hm|].
  rewrite Nat.iter_succ. now apply shr_1_m_nonneg.
Qed.

Lemma shr_fexp_m_nonneg m e l : 0 <= m -> 0 <= shr_m (fst (shr_fexp prec emax m e l)).
Proof.
  intros Hm. unfold shr_fexp. apply shr_m_nonneg.
  destruct l as [|[]]; exact Hm.
Qed.

(** Rounding a non-negative mantissa gives a zero, an infinity or a finite
    float of the sign asked for. *)
Lemma binary_round_aux_signed sx mx ex lx :
  0 <= mx ->
  match binary_round_aux prec emax sx mx ex lx with
  | S754_zero s | S754_infinity s | S754_finite s _ _ => s = sx
  | S754_nan => False
  end.
Proof.
  intros Hm. unfold binary_round_aux.
  pose proof (shr_fexp_m_nonneg mx ex lx Hm) as H1.
  destruct (shr_fexp prec emax mx ex lx) as [mrs' e']. cbn [fst] in H1.
  pose proof (round_nearest_even_bounds mrs') as [Hb _]. cbn zeta in Hb.
  pose proof (shr_fexp_m_nonneg
                (round_nearest_even (shr_m mrs') (loc_of_shr_record mrs')) e' loc_Exact
                ltac:(lia)) as H2.
  destruct (shr_fexp prec emax _ e' loc_Exact) as [mrs'' e'']. cbn [fst] in H2.
  destruct (shr_m mrs''); [reflexivity| |lia].
  destruct (e'' <=? emax - prec); reflexivity.
Qed.

Lemma binary_normalize_not_nan z e s : binary_normalize prec emax z e s <> S754_nan.
Proof.
  destruct z as [|p|p]; cbn [binary_normalize]; [discriminate| |];
    unfold binary_round;
    destruct (shl_align p e _) as [mz ez];
    match goal with
    | |- binary_round_aux _ _ ?sx ?m ?ex ?l <> _ =>
        pose proof (binary_round_aux_signed sx m ex l ltac:(lia)) as H;
        destruct (binary_round_aux prec emax sx m ex l); try discriminate; elim H
    end.
Qed.

(** A finite number minus a number is a number. *)
Lemma SFsub_finite_not_nan s m e y :
  y <> S754_nan -> SF64sub (S754_finite s m e) y <> S754_nan.
Proof.
  intros Hy. unfold SF64sub. destruct y as [sy|sy| |sy my ey]; cbn [SFsub];
    try discriminate; [now elim Hy|].
  apply binary_normalize_not_nan.
Qed.

(** The quotient of an absolute value by a negative finite number is a
    zero, an infinity or a finite float, and carries the minus sign. *)
Lemma SFdiv_abs_by_negative x m e :
  x <> S754_nan ->
  match SF64div (SFabs x) (S754_finite true m e) with
  | S754_zero s | S754_infinity s | S754_finite s _ _ => s = true
  | S754_nan => False
  end.
Proof.
  intros Hx. unfold SF64div.
  destruct x as [sx|sx| |sx mx ex]; cbn [SFabs SFdiv xorb]; try reflexivity;
    [now elim Hx|].
  unfold SFdiv_core_binary.
  set (s := _ - _ - Z.min _ _).
  set (m' := match s with Z.pos _ => Z.shiftl (Z.pos mx) s | 0 => Z.pos mx | _ => 0 end).
  assert (Hm' : 0 <= m').
  { subst m'. destruct s; try lia. apply Z.shiftl_nonneg. lia. }
  destruct (Z.div_eucl m' (Z.pos m)) as [q r] eqn:Hqr.
  assert (Hq : q = m' / Z.pos m) by (unfold Z.div; now rewrite Hqr).
  assert (0 <= q) by (subst q; apply Z.div_pos; lia).
  now apply binary_round_aux_signed.
Qed.

Lemma negative_finite (x : float) :
  PrimFloat.ltb x 0 = true -> PrimFloat.ltb neg_infinity x = true ->
  exists m e, Prim2SF x = S754_finite true m e.
Proof.
  rewrite !ltb_spec, Prim2SF_zero.
  change (Prim2SF neg_infinity) with (S754_infinity true).
  destruct (Prim2SF x) as [[|]|[|]| |[|] m e]; cbn; try discriminate; eauto.
Qed.

Lemma not_nan_spec (x : float) : PrimFloat.is_nan x = false -> Prim2SF x <> S754_nan.
Proof.
  unfold PrimFloat.is_nan. rewrite eqb_spec. intros H Hn. rewrite Hn in H.
  discriminate H.
Qed.

Lemma nan_spec (x : float) : PrimFloat.is_nan x = true -> Prim2SF x = S754_nan.
Proof.
  unfold PrimFloat.is_nan. rewrite eqb_spec.
  destruct (Prim2SF x) as [[|]|[|]| |[|] m e]; cbn; try discriminate; try reflexivity;
    unfold SFeqb, SFcompare; rewrite Z.compare_refl, Pos.compare_cont_refl;
    discriminate.
Qed.

Local Open Scope float_scope.

(** X16: [validateClientFee] never accepts a client fee that is NaN,
    whatever the amount and the fee tier. *)
Theorem validateClientFee_rejects_nan this addr amount client r :
  calculateUserFee this addr amount = Ok r ->
  PrimFloat.is_nan client = true ->
  validateClientFee this addr amount client = Ok false.
Proof.
  intros H Hnan. unfold validateClientFee. rewrite H. cbn [bind]. f_equal.
  unfold Math_abs. rewrite leb_spec, div_spec, abs_spec, sub_spec.
  rewrite (nan_spec _ Hnan).
  now destruct (Prim2SF (feeAmount r)) as [[|]|[|]| |[|] m e].
Qed.

Lemma validateClientFee_rejects_nan_witness :
  validateClientFee (fixedTier 250) "0xA11CE" (OfNumber 1000) nan = Ok false.
Proof.
  apply (validateClientFee_rejects_nan (fixedTier 250) "0xA11CE" (OfNumber 1000) nan
           {| feePercentage := 2.5; feeAmount := 25; netAmount := 975 |});
    reflexivity.
Defined.

(** With a negative finite authoritative fee the comparison holds for
    every client fee that is a number. *)
Lemma validateClientFee_below_zero this addr amount client r :
  calculateUserFee this addr amount = Ok r ->
  (feeAmount r <? 0) = true -> (neg_infinity <? feeAmount r) = true ->
  PrimFloat.is_nan client = false ->
  validateClientFee this addr amount client = Ok true.
Proof.
  intros H Hneg Hfin Hclient. unfold validateClientFee. rewrite H. cbn [bind]. f_equal.
  destruct (negative_finite _ Hneg Hfin) as (m & e & Hfee).
  unfold Math_abs. rewrite leb_spec, div_spec, abs_spec, sub_spec, Hfee.
  pose proof (SFsub_finite_not_nan true m e _ (not_nan_spec _ Hclient)) as Hsub.
  pose proof (SFdiv_abs_by_negative _ m e Hsub) as Hdiv.
  destruct tolerance_finite as (mt & et & ->).
  destruct (SF64div _ _) as [s|s| |s mq eq]; try (now elim Hdiv); subst s; reflexivity.
Qed.

(** X17: with a negative authoritative fee, as a negative amount gives,
    [validateClientFee] accepts every client fee that is a number: the
    relative difference is divided by the negative fee and so is never above
    the tolerance. *)
Theorem validateClientFee_negative_fee this addr amount client r :
  calculateUserFee this addr amount = Ok r ->
  (feeAmount r <? 0) = true -> (neg_infinity <? feeAmount r) = true ->
  PrimFloat.is_nan client = false ->
  validateClientFee this addr amount client = Ok true.
Proof. apply validateClientFee_below_zero. Qed.

Lemma validateClientFee_negative_fee_witness :
  validateClientFee (fixedTier 250) "0xA11CE" (OfNumber (-1000)) 0 = Ok true.
Proof.
  apply (validateClientFee_negative_fee (fixedTier 250) "0xA11CE" (OfNumber (-1000)) 0
           {| feePercentage := 2.5; feeAmount := -25; netAmount := -975 |});
    reflexivity.
Defined.

End FeeEdgeFacts.

Module ValidateFeeRouteFacts.
Import JS Exn EscrowCore ValidateFeeRoute FeeEdgeFacts.

Section Handler.
Variable getSession : result exn (option Session).
Variable request_json : result exn Body.
Variable newEscrowCoreService : float -> result exn (EscrowCoreService * option string).

Let post := POST getSession request_json newEscrowCoreService.

Let reaches := reaches getSession request_json newEscrowCoreService.

Lemma POST_reaches session body amountField chainIdField clientFeeField
    addressText escrowService contractAddress :
  reaches session body amountField chainIdField clientFeeField addressText
    escrowService contractAddress ->
  post
  = match validateClientFee escrowService addressText amountField clientFeeField with
    | Ok true =>
        {| status := 200; success := true; isValid := Some true; error := None;
           message := Some "Fee validation successful"%string; details := None;
           correctFee := None; providedFee := None |}
    | Ok false =>
        match calculateUserFee escrowService addressText amountField with
        | Ok fee =>
            {| status := 200; success := false; isValid := Some false;
               error := Some "Invalid fee amount"%string;
               message := None; details := None;
               correctFee := Some fee; providedFee := Some clientFeeField |}
        | Throw e => POST (Throw e) request_json newEscrowCoreService
        end
    | Throw e => POST (Throw e) request_json newEscrowCoreService
    end.
Proof.
  intros (Hs & Hb & Ha & Hta & Hc & Htc & Hf & Haddr & Hne & Hsvc & Hca).
  unfold post, POST, handle. rewrite Hs. cbn [bind]. rewrite Hb. cbn [bind].
  rewrite Ha in Hta. rewrite Ha, Hc, Hf, Hta, Htc. cbn [negb orb].
  rewrite Haddr. apply String.eqb_neq in Hne. rewrite Hne.
  rewrite Hsvc. cbn [bind]. rewrite Hca. cbn [negb].
  destruct (validateClientFee _ _ _ _) as [[|]|e]; cbn [bind negb]; try reflexivity.
  destruct (calculateUserFee _ _ _) as [fee|e]; reflexivity.
Qed.

Lemma POST_success :
  success post = true ->
  exists session body amountField chainIdField clientFeeField addressText
         escrowService contractAddress,
    reaches session body amountField chainIdField clientFeeField addressText
      escrowService contractAddress
    /\ validateClientFee escrowService addressText amountField clientFeeField = Ok true.
Proof.
  unfold post, POST, handle.
  destruct getSession as [[session|]|e]; cbn [bind]; try discriminate.
  destruct request_json as [body|e]; cbn [bind]; try discriminate.
  destruct (amount body) as [amountField|] eqn:Ha; try discriminate.
  destruct (chainId body) as [chainIdField|] eqn:Hc; try discriminate.
  destruct (clientFee body) as [clientFeeField|] eqn:Hf; try discriminate.
  destruct (truthyAmount (Some amountField)) eqn:Hta; cbn [negb orb];
    try discriminate.
  destruct (truthyNumber chainIdField) eqn:Htc; cbn [negb]; try discriminate.
  destruct (orString (userAddress body) (walletAddress session)) as [addressText|]
    eqn:Haddr; try discriminate.
  destruct (addressText =? "")%string eqn:Hne; try discriminate.
  destruct (newEscrowCoreService chainIdField) as [[escrowService contractAddress]|e]
    eqn:Hsvc; cbn [bind]; try discriminate.
  destruct (truthyString contractAddress) eqn:Hca; cbn [negb]; try discriminate.
  destruct (validateClientFee _ _ _ _) as [[|]|e] eqn:Hv; cbn [bind negb];
    try discriminate.
  - intros _. exists session, body, amountField, chainIdField, clientFeeField,
      addressText, escrowService, contractAddress.
    split; [|exact Hv]. apply String.eqb_neq in Hne.
    unfold reaches, ValidateFeeRoute.reaches. rewrite Ha. repeat split; auto.
  - destruct (calculateUserFee _ _ _); discriminate.
Qed.

Lemma POST_status : In (status post) [200; 400; 401; 500]%Z.
Proof.
  unfold post, POST, handle.
  destruct getSession as [[session|]|e]; cbn [bind]; [|cbn; tauto|cbn; tauto].
  destruct request_json as [body|e]; cbn [bind]; [|cbn; tauto].
  destruct (amount body), (chainId body), (clientFee body); try (cbn; tauto).
  match goal with |- context [if ?c then _ else _] => destruct c end; [cbn; tauto|].
  destruct (orString _ _) as [addressText|]; [|cbn; tauto].
  destruct (addressText =? "")%string; [cbn; tauto|].
  destruct (newEscrowCoreService _) as [[escrowService contractAddress]|e];
    cbn [bind]; [|cbn; tauto].
  destruct (negb (truthyString contractAddress)); [cbn; tauto|].
  destruct (validateClientFee _ _ _ _) as [[|]|e]; cbn [bind negb]; try (cbn; tauto).
  destruct (calculateUserFee _ _ _); cbn; tauto.
Qed.

End Handler.

(** X18: when the fee endpoint reports success.  [POST] answers
    [success: true] exactly when there is a session, the body has a truthy
    amount and chain id and a client fee, a wallet address is known, the
    service of the chain has a contract address, and [validateClientFee]
    returns [true]; the reply then has status 200.  Every reply has status
    200, 400, 401 or 500 (the handler never throws), and it is 401 without a
    session, whatever the body. *)
Theorem POST_success_iff
    (getSession : result exn (option Session)) (request_json : result exn Body)
    (newEscrowCoreService : float -> result exn (EscrowCoreService * option string)) :
  let post := POST getSession request_json newEscrowCoreService in
  (success post = true
   <-> exists session body amountField chainIdField clientFeeField addressText
              escrowService contractAddress,
         reaches getSession request_json newEscrowCoreService
           session body amountField chainIdField clientFeeField addressText
           escrowService contractAddress
         /\ validateClientFee escrowService addressText amountField clientFeeField
            = Ok true)
  /\ (success post = true -> status post = 200%Z /\ isValid post = Some true)
  /\ In (status post) [200; 400; 401; 500]%Z
  /\ (getSession = Ok None -> status post = 401%Z).
Proof.
  intros post.
  assert (Hback : forall session body amountField chainIdField clientFeeField
                         addressText escrowService contractAddress,
             reaches getSession request_json newEscrowCoreService
               session body amountField chainIdField clientFeeField addressText
               escrowService contractAddress ->
             validateClientFee escrowService addressText amountField clientFeeField
             = Ok true ->
             success post = true /\ status post = 200%Z /\ isValid post = Some true).
  { intros session body amountField chainIdField clientFeeField addressText
      escrowService contractAddress Hr Hv.
    subst post. rewrite (POST_reaches _ _ _ _ _ _ _ _ _ _ _ Hr), Hv. auto. }
  split; [split|split; [|split]].
  - apply POST_success.
  - intros (session & body & amountField & chainIdField & clientFeeField
            & addressText & escrowService & contractAddress & Hr & Hv).
    now destruct (Hback _ _ _ _ _ _ _ _ Hr Hv).
  - intros Hs. apply POST_success in Hs
      as (session & body & amountField & chainIdField & clientFeeField
          & addressText & escrowService & contractAddress & Hr & Hv).
    now destruct (Hback _ _ _ _ _ _ _ _ Hr Hv).
  - apply POST_status.
  - intros Hs. subst post. unfold POST, handle. now rewrite Hs.
Qed.

(** X19: the fee endpoint accepts any client fee for a negative amount.
    When a request gets as far as the fee check and the authoritative fee is
    negative (and finite), as for a negative amount on a positive fee tier,
    [POST] answers [success: true] for every client fee that is a number. *)
Theorem POST_negative_fee_accepted
    (getSession : result exn (option Session)) (request_json : result exn Body)
    (newEscrowCoreService : float -> result exn (EscrowCoreService * option string))
    session body amountField chainIdField clientFeeField addressText
    escrowService contractAddress fee :
  reaches getSession request_json newEscrowCoreService
    session body amountField chainIdField clientFeeField addressText
    escrowService contractAddress ->
  calculateUserFee escrowService addressText amountField = Ok fee ->
  PrimFloat.ltb (feeAmount fee) 0 = true ->
  PrimFloat.ltb neg_infinity (feeAmount fee) = true ->
  PrimFloat.is_nan clientFeeField = false ->
  success (POST getSession request_json newEscrowCoreService) = true
  /\ status (POST getSession request_json newEscrowCoreService) = 200%Z.
Proof.
  intros Hr Hfee Hneg Hfin Hclient.
  rewrite (POST_reaches _ _ _ _ _ _ _ _ _ _ _ Hr).
  rewrite (validateClientFee_below_zero _ _ _ _ _ Hfee Hneg Hfin Hclient). auto.
Qed.

Lemma POST_negative_fee_accepted_witness :
  success (POST (Ok (Some {| walletAddress := Some "0xA11CE"%string |}))
             (Ok {| amount := Some (OfNumber (-1000)%float);
                    chainId := Some 2818%float;
                    userAddress := None;
                    clientFee := Some 0%float |})
             (fun _ => Ok (fixedTier 250, Some "0xE5C"%string))) = true
  /\ status (POST (Ok (Some {| walletAddress := Some "0xA11CE"%string |}))
               (Ok {| amount := Some (OfNumber (-1000)%float);
                      chainId := Some 2818%float;
                      userAddress := None;
                      clientFee := Some 0%float |})
               (fun _ => Ok (fixedTier 250, Some "0xE5C"%string))) = 200%Z.
Proof.
  apply (POST_negative_fee_accepted _ _ _
           {| walletAddress := Some "0xA11CE"%string |}
           {| amount := Some (OfNumber (-1000)%float);
              chainId := Some 2818%float;
              userAddress := None;
              clientFee := Some 0%float |}
           (OfNumber (-1000)%float) 2818%float 0%float "0xA11CE"%string
           (fixedTier 250) (Some "0xE5C"%string)
           {| feePercentage := 2.5; feeAmount := -25; netAmount := -975 |});
    try reflexivity.
  repeat split; try reflexivity. discriminate.
Defined.

End ValidateFeeRouteFacts.

Module SmallestUnitTotalFacts.
Import JS Exn TokenHelpers Dyadic Binary64 FloatFacts NumberFacts.
Import SmallestUnitFacts.
Local Open Scope Z_scope.

(** The product of a value of at most one by a positive finite number is
    finite. *)
Lemma SFmul_at_most_one u d vu vd :
  fin_val u vu -> fin_val d vd -> vu <= scaled 1 0 ->
  exists v, fin_val (SF64mul u d) v /\ v <= vd.
Proof.
  intros Hu Hd Hlt. unfold SF64mul.
  destruct Hu as [(su & -> & ->)|(mu & eu & -> & Hbu & ->)];
    destruct Hd as [(sd & -> & ->)|(md & ed & -> & Hbd & ->)].
  - exists 0. split; [apply fin_val_zero|lia].
  - exists 0. split; [apply fin_val_zero|].
    destruct (bounded_inv _ _ Hbd). pose proof (scaled_pos md ed). lia.
  - exists 0. split; [apply fin_val_zero|lia].
  - cbn [SFmul xorb].
    destruct (bounded_inv _ _ Hbu) as (Heu & Hmu & Hnu & _).
    destruct (bounded_inv _ _ Hbd) as (Hed & Hmd & Hnd & _).
    change (Z.pos (mu * md)) with (Z.pos mu * Z.pos md).
    assert (Hprod : 0 < Z.pos mu * Z.pos md) by lia.
    assert (Hpre : eu + ed <= fexp64 (Zdigits2 (Z.pos mu * Z.pos md) + (eu + ed))).
    { rewrite fexp64_eq, Zdigits2_log2 by lia.
      destruct Hnu as [->|Hnu]; destruct Hnd as [->|Hnd]; try lia;
        (assert (52 <= Z.log2 (Z.pos mu * Z.pos md)); [|lia]);
        apply Z.log2_le_pow2; nia. }
    assert (Hval : scaled (Z.pos mu * Z.pos md) (eu + ed) <= scaled (Z.pos md) ed).
    { unfold scaled in *. rewrite Z.mul_1_l in Hlt.
      replace (0 + 2200) with 2200 in Hlt by lia.
      pose proof (pow2_pos (eu + 2200) ltac:(lia)) as Hpu.
      pose proof (pow2_pos (ed + 2200) ltac:(lia)) as Hpd.
      pose proof (pow2_pos (eu + ed + 2200) ltac:(lia)) as Hpe.
      assert (Heq : 2 ^ (eu + ed + 2200) * 2 ^ 2200
                    = 2 ^ (eu + 2200) * 2 ^ (ed + 2200)).
      { rewrite <- !pow2_add by lia. f_equal. lia. }
      pose proof (pow2_pos 2200 ltac:(lia)) as Hp.
      apply Z.mul_le_mono_pos_r with (p := 2 ^ 2200); [exact Hp|].
      assert (Hre : Z.pos mu * Z.pos md * 2 ^ (eu + ed + 2200) * 2 ^ 2200
                    = (Z.pos mu * 2 ^ (eu + 2200)) * (Z.pos md * 2 ^ (ed + 2200))).
      { rewrite <- (Z.mul_assoc (Z.pos mu * Z.pos md)), Heq. ring. }
      rewrite Hre, (Z.mul_comm (Z.pos md * 2 ^ (ed + 2200)) (2 ^ 2200)).
      apply Z.mul_le_mono_nonneg_r; lia. }
    assert (Hlow : -2200 <= eu + ed) by lia.
    destruct (round_aux_upper _ _ _ _ Hprod Hlow Hpre Hbd Hval)
      as [->|(m & e & -> & Hb & Hle)].
    + exists 0. split; [apply fin_val_zero|]. pose proof (scaled_pos md ed). lia.
    + eexists. split; [now apply fin_val_finite|exact Hle].
Qed.

(** [10 ** d], up to [d = 22], as a value. *)
Lemma pow10_fin d :
  (d <= 22)%nat -> exists v, fin_val (Prim2SF (pow10 d)) v.
Proof.
  intros Hd.
  do 23 (destruct d as [|d];
         [eexists; right; do 2 eexists;
          split; [vm_compute; reflexivity|split; [vm_compute; reflexivity|reflexivity]]|]).
  lia.
Qed.

Lemma positive_fin (x : float) :
  PrimFloat.ltb 0 x = true -> PrimFloat.ltb x infinity = true ->
  exists v, fin_val (Prim2SF x) v.
Proof.
  intros H0 Hinf. destruct (positive_finite x H0 Hinf) as (m & e & Hx).
  pose proof (Prim2SF_valid x) as Hv. rewrite Hx in Hv. cbn in Hv.
  exists (scaled (Z.pos m) e). rewrite Hx. now apply fin_val_finite.
Qed.

Lemma BigIntN_floor_fin x v :
  fin_val (Prim2SF x) v -> exists z, 0 <= z /\ BigIntN (Math_floor x) = Ok z.
Proof.
  intros Hx. destruct (Math_floor_fin x v Hx) as (z & Hz & Hfl & _).
  exists z. split; [exact Hz|]. unfold BigIntN.
  now rewrite (BigInt_of_Number_fin _ _ Hfl).
Qed.

(** X20: for an amount whose value is a positive finite number and at most 22
    decimals, [toSmallestUnit] does not throw: it returns the decimal text
    of a natural number. *)
Theorem toSmallestUnit_finite amount decimals :
  (decimals <= 22)%nat ->
  PrimFloat.ltb 0 (amountValue amount) = true ->
  PrimFloat.ltb (amountValue amount) infinity = true ->
  exists n, 0 <= n /\ toSmallestUnit amount decimals = Ok (BigInt_toString n).
Proof.
  intros Hd H0 Hinf. unfold toSmallestUnit.
  set (value := amountValue amount) in *.
  destruct (positive_fin value H0 Hinf) as (v & Hv).
  destruct (positive_finite value H0 Hinf) as (m & e & Hx).
  assert (Hnan : isNaN value = false).
  { unfold isNaN, PrimFloat.is_nan. rewrite eqb_spec, Hx. unfold SFeqb, SFcompare.
    now rewrite Z.compare_refl, Pos.compare_cont_refl. }
  rewrite Hnan, (ltb_leb_false _ _ H0). cbn [orb].
  destruct (pow10_exact decimals Hd) as [Hf _]. rewrite Hf. cbn [bind].
  destruct (Math_floor_fin value v Hv) as (w & Hw & Hfl & Hbounds).
  unfold BigIntN at 1. rewrite (BigInt_of_Number_fin _ _ Hfl). cbn [bind].
  (* the fractional part is between 0 and 1 *)
  destruct (SFsub_bounds _ _ _ _ _ _ _ _ Hv Hfl (fin_val_zero false) one_fin)
    as (vd & Hdec & Hdv).
  { unfold scaled in *. lia. }
  rewrite <- sub_spec in Hdec.
  destruct (pow10_fin decimals Hd) as (vf & Hpf).
  destruct (SFmul_at_most_one _ _ _ _ Hdec Hpf ltac:(lia)) as (vp & Hp & _).
  rewrite <- mul_spec in Hp. fold (pow10 decimals).
  destruct (BigIntN_floor_fin _ _ Hp) as (z & Hz & ->). cbn [bind].
  exists (w * 10 ^ Z.of_nat decimals + z). split; [|reflexivity].
  assert (0 < 10 ^ Z.of_nat decimals) by (apply Z.pow_pos_nonneg; lia). nia.
Qed.

Lemma toSmallestUnit_finite_witness :
  exists n, 0 <= n
    /\ toSmallestUnit (OfNumber 1.5%float) 18 = Ok (BigInt_toString n).
Proof.
  apply (toSmallestUnit_finite (OfNumber 1.5%float) 18);
    [lia|reflexivity|reflexivity].
Defined.

(** X21: an amount whose value is [Infinity] is not caught by the guard of
    [toSmallestUnit]: the conversion of its whole part throws, whatever the
    number of decimals. *)
Theorem toSmallestUnit_infinity amount decimals :
  amountValue amount = infinity ->
  exists e, toSmallestUnit amount decimals = Throw e.
Proof.
  intros Ha. unfold toSmallestUnit. rewrite Ha.
  change (isNaN infinity || PrimFloat.leb infinity 0) with false.
  destruct (BigIntN (pow10 decimals)) as [factor|e]; cbn [bind]; [|eauto].
  change (BigIntN (Math_floor infinity))
    with (Throw (A := Z) (Error "RangeError: the number cannot be converted to a BigInt")).
  cbn [bind]. eauto.
Qed.

Lemma toSmallestUnit_infinity_witness :
  exists e, toSmallestUnit (OfString "Infinity") 18 = Throw e.
Proof. apply (toSmallestUnit_infinity (OfString "Infinity") 18). reflexivity. Defined.

End SmallestUnitTotalFacts.

Module PriceFetcherRetryFacts.
Import JS Exn PriceService ApiRetry PriceFetcher RetryRunFacts PriceFetcherFacts.

Lemma chars_app (a b : string) : chars (a ++ b)%string = chars a ++ chars b.
Proof.
  unfold chars. induction a as [|c a IH]; simpl; [reflexivity|]. now rewrite IH.
Qed.

Lemma str_app x y : str (x ++ y) = (str x ++ str y)%string.
Proof.
  unfold str. induction x as [|c x IH]; simpl; [reflexivity|]. now rewrite IH.
Qed.

Lemma toLowerCase_app (a b : string) :
  toLowerCase (a ++ b)%string = (toLowerCase a ++ toLowerCase b)%string.
Proof. unfold toLowerCase. now rewrite chars_app, map_app, str_app. Qed.

Lemma includes_app_r (a b p : string) :
  includes b p = true -> includes (a ++ b)%string p = true.
Proof.
  unfold includes. rewrite chars_app. intros H.
  induction (chars a) as [|c l IH]; [exact H|].
  cbn [app includes_chars]. rewrite IH. apply orb_true_r.
Qed.

(** The message of the error [fetchPriceInternal] builds ends with the
    URL: what the URL includes, the lower-cased message includes. *)
Lemma message_includes_url (displayName code url keyword : string) :
  includes (toLowerCase url) keyword = true ->
  includes (toLowerCase (displayName ++ " API error: " ++ code ++ ". URL: " ++ url)%string)
    keyword = true.
Proof.
  intros H. rewrite !toLowerCase_app. now do 4 apply includes_app_r.
Qed.

Lemma status_429_or (o : option Z) (b : bool) :
  b = true -> match o with Some 429%Z => true | _ => b end = true.
Proof.
  intros ->. destruct o as [z|]; [|reflexivity].
  repeat match goal with
         | |- context [match ?p with _ => _ end] => destruct p
         end; reflexivity.
Qed.

Lemma keyword_retryable e keyword :
  In keyword retryKeywords ->
  includes (message_lower e) keyword = true ->
  isRetryableError (Obj e) = true.
Proof.
  intros Hin Hinc. unfold isRetryableError.
  destruct (isRateLimitError (Obj e)) eqn:Hrate; [reflexivity|].
  cbn [retryKeywords In] in Hin.
  destruct Hin as [<-|[<-|[<-|Hin]]].
  1-3: exfalso; unfold isRateLimitError in Hrate;
       rewrite status_429_or in Hrate; [discriminate|];
       rewrite Hinc; cbn; rewrite ?orb_true_r; reflexivity.
  destruct Hin as [<-|[<-|[<-|[<-|[]]]]]; rewrite Hinc;
    cbn; rewrite ?orb_true_r; reflexivity.
Qed.

Lemma no_keyword_not_retryable s m :
  (s < 500)%Z -> s <> 408%Z -> s <> 429%Z ->
  (forall keyword, In keyword retryKeywords ->
                   includes (toLowerCase m) keyword = false) ->
  isRetryableError (Obj {| status := Some s; statusCode := None;
                           response_status := None; message := Some m |}) = false.
Proof.
  intros H5 H408 H429 Hkw.
  assert (Hk : forall keyword, In keyword retryKeywords ->
                 includes (message_lower {| status := Some s; statusCode := None;
                                            response_status := None;
                                            message := Some m |}) keyword = false)
    by exact Hkw.
  unfold isRetryableError, isRateLimitError. cbv zeta.
  rewrite !Hk by (unfold retryKeywords; cbn [In]; auto 10). cbn [orb].
  unfold status_of. cbn [status statusCode response_status truthy_status].
  destruct (Z.eqb_spec s 0) as [->|H0]; cbn [negb]; [reflexivity|].
  assert (Hm : match Some s with Some 429%Z => true | _ => false end = false).
  { destruct s as [|p|p]; try reflexivity.
    destruct (Pos.eq_dec p 429) as [->|Hp]; [lia|].
    repeat match goal with
           | |- context [match ?q with _ => _ end] => destruct q
           end; try reflexivity; contradiction. }
  rewrite Hm.
  apply Z.ltb_lt in H5. rewrite Z.leb_antisym, H5. cbn [negb orb].
  apply Z.eqb_neq in H408, H429. rewrite H408, H429. now destruct (truthy_status _).
Qed.

Section Exhaust.
Context {Data : Type}.
Variable fetch : nat -> string -> list (string * string) -> Z
                 -> result exn (Response Data).
Variable Math_pow : float -> Z -> float.
Variable random : nat -> float.
Variable options : PriceFetchOptions Data.

Let config := PriceProvidersConfig.getProviderConfig (provider options).
Let requests := match provider options with COINGECKO => 11 | _ => 6 end.
Let httpError (response : Response Data) : exn :=
  Obj {| status := Some (response_code response);
         statusCode := None;
         response_status := None;
         message :=
           Some (PriceProvidersConfig.displayName config
                 ++ " API error: "
                 ++ BigInt_toString (response_code response)
                 ++ ". URL: " ++ url options)%string |}.

Lemma request_not_ok i response :
  fetch i (url options)
    (("Content-Type", "application/json")%string :: headers options)
    (PriceProvidersConfig.timeout config) = Ok response ->
  ok response = false ->
  request fetch options config i = Throw (httpError response).
Proof. intros Hf Hok. unfold request. rewrite Hf. cbn [bind]. now rewrite Hok. Qed.

Lemma fetchPriceInternal_exhausts :
  (forall callback, onRetry options = Some callback ->
                    forall a e d, callback a e d = Ok tt) ->
  (forall i, exists response,
      fetch i (url options)
        (("Content-Type", "application/json")%string :: headers options)
        (PriceProvidersConfig.timeout config) = Ok response
      /\ ok response = false
      /\ isRetryableError (httpError response) = true) ->
  exists e w,
    fetchPriceInternal fetch Math_pow random options start = (Throw e, w)
    /\ calls w = requests
    /\ List.length (sleeps (trace w)) = requests - 1.
Proof.
  intros Hcb Hfetch.
  set (rc := retryConfig options config).
  assert (Hmax : Z.to_nat (maxRetries rc) = requests - 1
                 /\ (0 <= maxRetries rc)%Z).
  { subst rc requests config. cbn [retryConfig maxRetries].
    rewrite maxRetries_table. destruct (provider options); split; (reflexivity || lia). }
  destruct Hmax as [Hreq Hmax].
  assert (Hobs : callback_returns rc).
  { intros cb Hsome a e d. subst rc. cbn in Hsome. injection Hsome as <-.
    destruct (onRetry options) as [callback|] eqn:Ho; [now apply Hcb|reflexivity]. }
  assert (Hfail : forall i, exists response,
             request fetch options config i = Throw (httpError response)
             /\ fails_retryably (request fetch options config) i).
  { intros i. destruct (Hfetch i) as (response & Hf & Hok & Hs).
    exists response. pose proof (request_not_ok i response Hf Hok) as Hr.
    split; [exact Hr|]. eexists. split; [exact Hr|exact Hs]. }
  destruct (ApiRetryFacts.withRetry_settles Math_pow (request fetch options config)
              random rc Hmax Hobs (requests - 1))
    as (w & Hrun & Hc & Ht).
  - lia.
  - intros i _. now destruct (Hfail i) as (_ & _ & H).
  - unfold settles. destruct (Hfail (requests - 1)) as (response & -> & _).
    right. lia.
  - destruct (Hfail (requests - 1)) as (response & Hr & _).
    exists (httpError response), w.
    split; [unfold fetchPriceInternal; fold config; fold rc; now rewrite Hrun, Hr|].
    assert (Hreq1 : 1 <= requests) by (subst requests; destruct (provider options); lia).
    split; [lia|].
    pose proof (withRetry_run_counts Math_pow _ (request fetch options config) random rc)
      as Hcounts.
    cbv zeta in Hcounts. rewrite Hrun in Hcounts. cbn [snd] in Hcounts. lia.
Qed.

End Exhaust.

(** X22: a retry keyword in the URL makes every HTTP error retryable.
    The error [fetchPriceInternal] builds for a response that is not OK quotes
    the URL in its message, and [isRetryableError] searches the message; so
    when the lower-cased URL includes one of the keywords (a token id such as
    [celer-network], say), a server that keeps answering with any error
    status, a 404 as well, is asked [maxRetries + 1] times, with a pause
    between two requests, before the error is thrown.  The observer, when one
    is given, is assumed to return normally: one that throws ends the run at
    its first call. *)
Theorem fetchPriceInternal_keyword_in_url (Data : Type)
    (fetch : nat -> string -> list (string * string) -> Z -> result exn (Response Data))
    (Math_pow : float -> Z -> float) (random : nat -> float)
    (options : PriceFetchOptions Data) (keyword : string) :
  let config := PriceProvidersConfig.getProviderConfig (provider options) in
  let requests := match provider options with COINGECKO => 11 | _ => 6 end in
  In keyword retryKeywords ->
  includes (toLowerCase (url options)) keyword = true ->
  (forall callback, onRetry options = Some callback ->
                    forall a e d, callback a e d = Ok tt) ->
  (forall i, exists response,
      fetch i (url options)
        (("Content-Type", "application/json")%string :: headers options)
        (PriceProvidersConfig.timeout config) = Ok response
      /\ ok response = false) ->
  exists e w,
    fetchPriceInternal fetch Math_pow random options start = (Throw e, w)
    /\ calls w = requests
    /\ List.length (sleeps (trace w)) = requests - 1.
Proof.
  intros config requests Hin Hinc Hcb Hfetch.
  apply fetchPriceInternal_exhausts; [exact Hcb|].
  intros i. destruct (Hfetch i) as (response & Hf & Hok).
  exists response. split; [exact Hf|]. split; [exact Hok|].
  apply (keyword_retryable _ keyword Hin).
  cbn [message_lower message]. now apply message_includes_url.
Qed.

Lemma fetchPriceInternal_keyword_in_url_witness :
  exists e w,
    fetchPriceInternal
      (answering {| ok := false; response_code := 404; json := Ok 0%float |})
      pow_by_mult (fun _ => 0.5%float)
      (bodyIsPrice COINGECKO "https://prices.example/price?ids=celer-network") start
    = (Throw e, w)
    /\ calls w = 11
    /\ List.length (sleeps (trace w)) = 10.
Proof.
  apply (fetchPriceInternal_keyword_in_url float
           (answering {| ok := false; response_code := 404; json := Ok 0%float |})
           pow_by_mult (fun _ => 0.5%float)
           (bodyIsPrice COINGECKO "https://prices.example/price?ids=celer-network")
           "network"%string).
  - vm_compute. auto 10.
  - vm_compute. reflexivity.
  - intros callback H. discriminate H.
  - intros i. eexists. split; reflexivity.
Defined.

(** X23: an HTTP error that is not retryable is thrown after one request.
    When the first response is not OK, its status is below 500 and neither 408
    nor 429, and the lower-cased message of the error includes none of the
    retry keywords, [fetchPriceInternal] throws that error at once: one
    request, no pause, no observer call. *)
Theorem fetchPriceInternal_client_error (Data : Type)
    (fetch : nat -> string -> list (string * string) -> Z -> result exn (Response Data))
    (Math_pow : float -> Z -> float) (random : nat -> float)
    (options : PriceFetchOptions Data) (response : Response Data) :
  let config := PriceProvidersConfig.getProviderConfig (provider options) in
  let text := (PriceProvidersConfig.displayName config
               ++ " API error: "
               ++ BigInt_toString (response_code response)
               ++ ". URL: " ++ url options)%string in
  fetch 0 (url options)
    (("Content-Type", "application/json")%string :: headers options)
    (PriceProvidersConfig.timeout config) = Ok response ->
  ok response = false ->
  (response_code response < 500)%Z ->
  response_code response <> 408%Z -> response_code response <> 429%Z ->
  (forall keyword, In keyword retryKeywords ->
                   includes (toLowerCase text) keyword = false) ->
  fetchPriceInternal fetch Math_pow random options start
  = (Throw (Obj {| status := Some (response_code response);
                   statusCode := None;
                   response_status := None;
                   message := Some text |}),
     {| calls := 1; draws := 0; trace := [] |}).
Proof.
  intros config text Hf Hok H5 H408 H429 Hkw. subst config text.
  unfold fetchPriceInternal, withRetry.
  set (config := PriceProvidersConfig.getProviderConfig (provider options)) in *.
  assert (Hn : exists n, Z.to_nat (maxRetries (retryConfig options config) + 1) = S n).
  { subst config. cbn [retryConfig maxRetries]. rewrite maxRetries_table.
    destruct (provider options); eexists; reflexivity. }
  destruct Hn as (n & ->).
  cbn [withRetry_loop start calls draws trace].
  pose proof (request_not_ok fetch options 0 response Hf Hok) as Hr.
  fold config in Hr. rewrite Hr.
  rewrite (no_keyword_not_retryable _ _ H5 H408 H429 Hkw).
  cbn [negb]. now rewrite orb_true_r.
Qed.

Lemma fetchPriceInternal_client_error_witness :
  fetchPriceInternal
    (answering {| ok := false; response_code := 404; json := Ok 0%float |})
    pow_by_mult (fun _ => 0.5%float)
    (bodyIsPrice KRAKEN "https://prices.example/eth") start
  = (Throw (Obj {| status := Some 404%Z;
                   statusCode := None;
                   response_status := None;
                   message :=
                     Some "Kraken API error: 404. URL: https://prices.example/eth"%string |}),
     {| calls := 1; draws := 0; trace := [] |}).
Proof.
  apply (fetchPriceInternal_client_error float
           (answering {| ok := false; response_code := 404; json := Ok 0%float |})
           pow_by_mult (fun _ => 0.5%float)
           (bodyIsPrice KRAKEN "https://prices.example/eth")
           {| ok := false; response_code := 404; json := Ok 0%float |}).
  - reflexivity.
  - reflexivity.
  - reflexivity.
  - discriminate.
  - discriminate.
  - intros keyword Hin. unfold retryKeywords in Hin. cbn [In] in Hin.
    destruct Hin as [<-|[<-|[<-|[<-|[<-|[<-|[<-|[]]]]]]]]; vm_compute; reflexivity.
Defined.

End PriceFetcherRetryFacts.
